(** * etl::ibitset: a shallow embedding of src/ibitset.h

    The class [etl::ibitset] packs [NBITS] bits into [SIZE] storage elements
    of type [element_t = uint8_t] that live in an array owned by the derived
    container.  The embedding keeps the representation of the source:

    - an element is a [Z] in [0, 256); every conversion back to [element_t]
      is written out as a reduction modulo [2^8];
    - a [size_t] is a [Z] in [0, 2^64); unsigned wrap-around is written out
      as a reduction modulo [2^64];
    - the storage behind [pdata] is a [list Z]; the list is the extent of the
      array, and an access outside of it is undefined behaviour;
    - undefined behaviour (an access outside the array, a shift of a promoted
      [int] by 32 or more) is the result [None]; a member function that
      returns normally gives [Some] of its result. *)

From Stdlib Require Import ZArith Lia List Bool String Ascii.
From stdpp Require Import base list.

Local Open Scope Z_scope.

(** ** Undefined behaviour as an error monad *)

Definition UB (A : Type) : Type := option A.

Definition ub_bind {A B : Type} (m : UB A) (k : A -> UB B) : UB B :=
  match m with
  | Some a => k a
  | None => None
  end.

Notation "'do' x <- m ; k" := (ub_bind m (fun x => k))
  (at level 10, x name, m at level 100, k at level 200).

(** ** Integer types of the source *)

Module Ints.

(** [uint8_t]. *)
Definition element_bits : Z := 8.
Definition to_element (z : Z) : Z := z mod 2 ^ element_bits.

(** [size_t], 64 bits wide. *)
Definition size_bits : Z := 64.
Definition size_max : Z := 2 ^ size_bits - 1.
Definition to_size (z : Z) : Z := z mod 2 ^ size_bits.

(** [unsigned long long]. *)
Definition ull_bits : Z := 64.

(** An [element_t] operand of [<<], [>>], [~], [&] is promoted to [int],
    32 bits wide.  Shifting an [int] by its width or more is undefined. *)
Definition int_bits : Z := 32.

Definition shl_int (x n : Z) : UB Z :=
  if n <? int_bits then Some (Z.shiftl x n) else None.

Definition shr_int (x n : Z) : UB Z :=
  if n <? int_bits then Some (Z.shiftr x n) else None.

End Ints.
Import Ints.

(** ** The class *)

Module Etl.

(** [integral_limits<element_t>::max], [integral_limits<element_t>::bits]
    and [log2<BITS_PER_ELEMENT>::value] come from headers outside of
    src/ibitset.h; for [uint8_t] they are 255, 8 and 3. *)
Definition ALL_SET : Z := 255.
Definition ALL_CLEAR : Z := 0.
Definition BITS_PER_ELEMENT : Z := 8.
Definition log2_BITS_PER_ELEMENT : Z := 3.

(** [npos = integral_limits<size_t>::max]. *)
Definition npos : Z := size_max.

Record ibitset : Type := mk_ibitset {
  NBITS : Z;
  SIZE : Z;
  pdata : list Z;
  TOP_MASK : Z
}.

Definition with_pdata (b : ibitset) (l : list Z) : ibitset :=
  {| NBITS := NBITS b; SIZE := SIZE b; pdata := l; TOP_MASK := TOP_MASK b |}.

(** [pdata[i]] read as an rvalue. *)
Definition rd (b : ibitset) (i : Z) : UB Z :=
  if (0 <=? i) then pdata b !! Z.to_nat i else None.

(** [pdata[i] = v]. *)
Definition wr (b : ibitset) (i : Z) (v : Z) : UB ibitset :=
  if (0 <=? i) && (i <? Z.of_nat (length (pdata b)))
  then Some (with_pdata b (<[Z.to_nat i := v]> (pdata b)))
  else None.

(** A counted loop [for (size_t i = 0; i < n; ++i) body], where the body may
    run into undefined behaviour.  [cnt] is the number of iterations left and
    [i] the current value of the loop variable. *)
Fixpoint for_loop {S : Type} (cnt : nat) (i : Z)
         (body : Z -> S -> UB S) (s : S) : UB S :=
  match cnt with
  | O => Some s
  | Datatypes.S cnt' => do s' <- body i s; for_loop cnt' (i + 1) body s'
  end.

(** *** Constructor (lines 655-663) *)

Definition top_mask_shift (nbits size : Z) : Z :=
  let allocated_bits := to_size (size * BITS_PER_ELEMENT) in
  (to_size (BITS_PER_ELEMENT - to_size (allocated_bits - nbits)))
    mod BITS_PER_ELEMENT.

Definition ctor (nbits size : Z) (data : list Z) : ibitset :=
  let s := top_mask_shift nbits size in
  {| NBITS := nbits;
     SIZE := size;
     pdata := data;
     TOP_MASK := to_element
                   (if s =? 0 then ALL_SET
                    else Z.lnot (Z.shiftl ALL_SET s)) |}.

(** *** size (lines 176-179) *)

Definition size (b : ibitset) : Z := NBITS b.

(** *** count (lines 184-194) *)

(** Modelled from the spec: [etl::count_bits] is declared in binary.h, which
    is not part of src/; the spec describes it as the population count of
    one storage element, the number of set bits among its eight bits. *)
Definition count_bits (v : Z) : Z :=
  Z.of_nat (length (List.filter (Z.testbit v) (seqZ 0 8))).

Definition count (b : ibitset) : UB Z :=
  for_loop (Z.to_nat (SIZE b)) 0
    (fun i n => do v <- rd b i; Some (to_size (n + count_bits v))) 0.

(** *** Index and mask of a position (shared by test, set, reset, flip) *)

Definition locate (b : ibitset) (position : Z) : UB (Z * Z) :=
  if SIZE b =? 1 then
    do m <- shl_int 1 position; Some (0, to_element m)
  else
    do m <- shl_int 1 (Z.land position (BITS_PER_ELEMENT - 1));
    Some (Z.shiftr position log2_BITS_PER_ELEMENT, to_element m).

(** *** test (lines 200-217) *)

Definition test (b : ibitset) (position : Z) : UB bool :=
  do im <- locate b position;
  do v <- rd b (fst im);
  Some (negb (Z.land v (snd im) =? 0)).

(** *** set() (lines 222-232) *)

(** [pdata[SIZE - 1] &= TOP_MASK], shared by set(), flip() and
    initialise().  The index [SIZE - 1] is computed in [size_t]. *)
Definition mask_top (b : ibitset) : UB ibitset :=
  let last := to_size (SIZE b - 1) in
  do v <- rd b last;
  wr b last (to_element (Z.land v (TOP_MASK b))).

Definition set_all (b : ibitset) : UB ibitset :=
  do b1 <- for_loop (Z.to_nat (SIZE b)) 0 (fun i s => wr s i ALL_SET) b;
  mask_top b1.

(** *** set(position, value) (lines 237-263) *)

Definition set_bit (b : ibitset) (position : Z) (value : bool) : UB ibitset :=
  do im <- locate b position;
  do v <- rd b (fst im);
  if value
  then wr b (fst im) (to_element (Z.lor v (snd im)))
  else wr b (fst im) (to_element (Z.land v (Z.lnot (snd im)))).

(** *** reset() (lines 285-293) *)

Definition reset_all (b : ibitset) : UB ibitset :=
  for_loop (Z.to_nat (SIZE b)) 0 (fun i s => wr s i ALL_CLEAR) b.

(** *** set(text) (lines 268-280) *)

(** [*text++] on a NUL-terminated string: the character under the pointer
    and the rest of the string.  At the terminator the character is NUL. *)
Definition next_char (text : string) : ascii * string :=
  match text with
  | String c rest => (c, rest)
  | EmptyString => (zero, EmptyString)
  end.

(** The loop [while (i > 0) set(--i, *text++ == '1')]; it runs [i] times. *)
Fixpoint set_text_loop (cnt : nat) (i : Z) (text : string) (b : ibitset)
  : UB ibitset :=
  match cnt with
  | O => Some b
  | Datatypes.S cnt' =>
      let i' := i - 1 in
      let (c, rest) := next_char text in
      do b' <- set_bit b i' (Ascii.eqb c "1"%char);
      set_text_loop cnt' i' rest b'
  end.

(** [strlen]: the number of characters before the terminating NUL.  The
    text is a [string]; its end, or a NUL character inside of it, is the
    terminator. *)
Fixpoint strlen (text : string) : Z :=
  match text with
  | EmptyString => 0
  | String c rest => if Ascii.eqb c zero then 0 else 1 + strlen rest
  end.

Definition set_text (b : ibitset) (text : string) : UB ibitset :=
  do b0 <- reset_all b;
  let i := Z.min (NBITS b0) (strlen text) in
  set_text_loop (Z.to_nat i) i text b0.

(** *** reset(position) (lines 298-317) *)

Definition reset_bit (b : ibitset) (position : Z) : UB ibitset :=
  do im <- locate b position;
  do v <- rd b (fst im);
  wr b (fst im) (to_element (Z.land v (Z.lnot (snd im)))).

(** *** flip() (lines 322-332) *)

Definition flip_all (b : ibitset) : UB ibitset :=
  do b1 <- for_loop (Z.to_nat (SIZE b)) 0
             (fun i s => do v <- rd s i; wr s i (to_element (Z.lnot v))) b;
  mask_top b1.

(** *** flip(position) (lines 337-359) *)

Definition flip_bit (b : ibitset) (position : Z) : UB ibitset :=
  if position <? NBITS b then
    do im <- locate b position;
    do v <- rd b (fst im);
    wr b (fst im) (to_element (Z.lxor v (snd im)))
  else Some b.

(** *** all (lines 364-382) *)

(** The first loop: [false] as soon as one element differs from ALL_SET. *)
Fixpoint all_loop (cnt : nat) (i : Z) (b : ibitset) : UB bool :=
  match cnt with
  | O => Some true
  | Datatypes.S cnt' =>
      do v <- rd b i;
      if negb (v =? ALL_SET) then Some false else all_loop cnt' (i + 1) b
  end.

Definition all (b : ibitset) : UB bool :=
  do r <- all_loop (Z.to_nat (to_size (SIZE b - 1))) 0 b;
  if r then
    do v <- rd b (to_size (SIZE b - 1));
    if negb (v =? Z.land ALL_SET (TOP_MASK b)) then Some false else Some true
  else Some false.

(** *** none, any (lines 387-406) *)

Fixpoint none_loop (cnt : nat) (i : Z) (b : ibitset) : UB bool :=
  match cnt with
  | O => Some true
  | Datatypes.S cnt' =>
      do v <- rd b i;
      if negb (v =? 0) then Some false else none_loop cnt' (i + 1) b
  end.

Definition none (b : ibitset) : UB bool :=
  none_loop (Z.to_nat (SIZE b)) 0 b.

Definition any (b : ibitset) : UB bool :=
  do r <- none b; Some (negb r).

(** *** find_next, find_first (lines 413-480) *)

Inductive scan_result : Type :=
| Found (position : Z)       (* [return position] inside the inner loop *)
| Exhausted (position : Z).  (* the inner loop ended; the cursor it left *)

(** The inner loop [while ((bit < BITS_PER_ELEMENT) && (position < NBITS))].
    [cnt] bounds the iterations; [find_next] passes BITS_PER_ELEMENT, and
    [bit] has reached BITS_PER_ELEMENT by the time [cnt] is used up. *)
Fixpoint scan_element (cnt : nat) (nbits : Z) (state : bool)
         (value mask position bit : Z) : scan_result :=
  match cnt with
  | O => Exhausted position
  | Datatypes.S cnt' =>
      if (bit <? BITS_PER_ELEMENT) && (position <? nbits) then
        if Bool.eqb (negb (Z.land value mask =? 0)) state
        then Found position
        else scan_element cnt' nbits state value
               (to_element (Z.shiftl mask 1))
               (to_size (position + 1))
               (to_size (bit + 1))
      else Exhausted position
  end.

(** The outer loop [while (index < SIZE)]; [cnt] is [SIZE - index]. *)
Fixpoint find_loop (cnt : nat) (b : ibitset) (state : bool)
         (index position bit mask : Z) : UB Z :=
  match cnt with
  | O => Some npos
  | Datatypes.S cnt' =>
      do value <- rd b index;
      if (state && negb (value =? ALL_CLEAR))
         || (negb state && negb (value =? ALL_SET))
      then
        match scan_element (Z.to_nat BITS_PER_ELEMENT) (NBITS b) state
                           value mask position bit with
        | Found p => Some p
        | Exhausted p => find_loop cnt' b state (index + 1) p 0 1
        end
      else
        find_loop cnt' b state (index + 1)
                  (to_size (position + BITS_PER_ELEMENT)) 0 1
  end.

Definition find_next (b : ibitset) (state : bool) (position : Z) : UB Z :=
  let index := if SIZE b =? 1 then 0
               else Z.shiftr position log2_BITS_PER_ELEMENT in
  let bit := if SIZE b =? 1 then position
             else Z.land position (BITS_PER_ELEMENT - 1) in
  do m <- shl_int 1 bit;
  find_loop (Z.to_nat (SIZE b - index)) b state index position bit
            (to_element m).

Definition find_first (b : ibitset) (state : bool) : UB Z :=
  find_next b state 0.

(** *** operator[] const (lines 485-488) *)

Definition index_const (b : ibitset) (position : Z) : UB bool :=
  test b position.

(** *** operator&=, operator|=, operator^= (lines 501-535) *)

Definition combine (op : Z -> Z -> Z) (b other : ibitset) : UB ibitset :=
  for_loop (Z.to_nat (SIZE b)) 0
    (fun i s => do x <- rd s i; do y <- rd other i;
                wr s i (to_element (op x y))) b.

Definition and_assign : ibitset -> ibitset -> UB ibitset := combine Z.land.
Definition or_assign : ibitset -> ibitset -> UB ibitset := combine Z.lor.
Definition xor_assign : ibitset -> ibitset -> UB ibitset := combine Z.lxor.

(** *** operator<<= (lines 540-563) *)

(** The state of the two loops of the multi-element path: the cursors
    [source] and [destination] and the bitset. *)
Record shift_state : Type := mk_shift_state {
  sh_source : Z;
  sh_destination : Z;
  sh_bitset : ibitset
}.

Definition shl_assign (b : ibitset) (shift : Z) : UB ibitset :=
  if SIZE b =? 1 then
    do v <- rd b 0;
    do r <- shl_int v shift;
    wr b 0 (to_element r)
  else
    let source := to_size (NBITS b - shift - 1) in
    let destination := to_size (NBITS b - 1) in
    do s1 <- for_loop (Z.to_nat (to_size (NBITS b - shift))) 0
               (fun _ s =>
                  do t <- test (sh_bitset s) (sh_source s);
                  do b' <- set_bit (sh_bitset s) (sh_destination s) t;
                  Some (mk_shift_state (to_size (sh_source s - 1))
                                       (to_size (sh_destination s - 1)) b'))
               (mk_shift_state source destination b);
    do s2 <- for_loop (Z.to_nat shift) 0
               (fun _ s =>
                  do b' <- reset_bit (sh_bitset s) (sh_destination s);
                  Some (mk_shift_state (sh_source s)
                                       (to_size (sh_destination s - 1)) b'))
               s1;
    Some (sh_bitset s2).

(** *** operator>>= (lines 568-591) *)

Definition shr_assign (b : ibitset) (shift : Z) : UB ibitset :=
  if SIZE b =? 1 then
    do v <- rd b 0;
    do r <- shr_int v shift;
    wr b 0 (to_element r)
  else
    do s1 <- for_loop (Z.to_nat (to_size (NBITS b - shift))) 0
               (fun _ s =>
                  do t <- test (sh_bitset s) (sh_source s);
                  do b' <- set_bit (sh_bitset s) (sh_destination s) t;
                  Some (mk_shift_state (to_size (sh_source s + 1))
                                       (to_size (sh_destination s + 1)) b'))
               (mk_shift_state shift 0 b);
    do s2 <- for_loop (Z.to_nat shift) 0
               (fun _ s =>
                  do b' <- reset_bit (sh_bitset s) (sh_destination s);
                  Some (mk_shift_state (sh_source s)
                                       (to_size (sh_destination s + 1)) b'))
               s1;
    Some (sh_bitset s2).

(** *** initialise (lines 606-631) *)

(** The loop [while ((value != 0) && (i < SIZE))]; [cnt] is [SIZE - i]. *)
Fixpoint initialise_loop (cnt : nat) (shift : Z) (value i : Z) (b : ibitset)
  : UB ibitset :=
  match cnt with
  | O => Some b
  | Datatypes.S cnt' =>
      if negb (value =? 0) && (i <? SIZE b) then
        do b' <- wr b i (to_element (Z.land value ALL_SET));
        initialise_loop cnt' shift (Z.shiftr value shift) (i + 1) b'
      else Some b
  end.

Definition initialise (b : ibitset) (value : Z) : UB ibitset :=
  do b0 <- reset_all b;
  let SHIFT := if ull_bits <=? BITS_PER_ELEMENT then 0
               else BITS_PER_ELEMENT in
  do b1 <- (if SHIFT =? 0
            then wr b0 0 (to_element value)
            else initialise_loop (Z.to_nat (SIZE b0)) SHIFT value 0 b0);
  mask_top b1.

(** *** invert (lines 636-642) *)

Definition invert (b : ibitset) : UB ibitset :=
  for_loop (Z.to_nat (SIZE b)) 0
    (fun i s => do v <- rd s i; wr s i (to_element (Z.lnot v))) b.

(** *** swap (lines 596-599) *)

(** [std::swap_ranges(pdata, pdata + SIZE, other.pdata)]: element [i] of the
    one array is exchanged with element [i] of the other, for [i] below the
    [SIZE] of [*this].  The two bitsets are two objects over two arrays. *)
Definition swap (b other : ibitset) : UB (ibitset * ibitset) :=
  for_loop (Z.to_nat (SIZE b)) 0
    (fun i s =>
       do x <- rd (fst s) i;
       do y <- rd (snd s) i;
       do b' <- wr (fst s) i y;
       do o' <- wr (snd s) i x;
       Some (b', o'))
    (b, other).

(** *** is_equal (lines 668-671) *)

(** [std::equal(lhs.pdata, lhs.pdata + lhs.SIZE, rhs.pdata)]: [false] at the
    first index where the elements differ. *)
Fixpoint equal_loop (cnt : nat) (i : Z) (lhs rhs : ibitset) : UB bool :=
  match cnt with
  | O => Some true
  | Datatypes.S cnt' =>
      do x <- rd lhs i;
      do y <- rd rhs i;
      if negb (x =? y) then Some false else equal_loop cnt' (i + 1) lhs rhs
  end.

Definition is_equal (lhs rhs : ibitset) : UB bool :=
  equal_loop (Z.to_nat (SIZE lhs)) 0 lhs rhs.

(** *** bit_reference (lines 100-171) *)

(** The proxy for one bit.  The pointer [p_bitset] is the bitset that handed
    the reference out; the operations below take the current value of that
    bitset and, where they write, give its new value. *)
Record bit_reference : Type := mk_bit_reference {
  position : Z
}.

(** [operator[] (size_t)] and [get_bit_reference] (lines 493-496, 647-650). *)
Definition index_ref (position : Z) : bit_reference :=
  mk_bit_reference position.

Definition get_bit_reference (position : Z) : bit_reference :=
  mk_bit_reference position.

(** [operator bool() const]. *)
Definition ref_bool (b : ibitset) (r : bit_reference) : UB bool :=
  test b (position r).

(** [operator = (bool)]. *)
Definition ref_assign (b : ibitset) (r : bit_reference) (v : bool)
  : UB ibitset :=
  set_bit b (position r) v.

(** [operator = (const bit_reference&)], for a source reference into the
    bitset [src]: the source bit is read before the target is written. *)
Definition ref_assign_ref (b : ibitset) (r : bit_reference)
           (src : ibitset) (r' : bit_reference) : UB ibitset :=
  do v <- ref_bool src r';
  set_bit b (position r) v.

(** [bit_reference::flip()]. *)
Definition ref_flip (b : ibitset) (r : bit_reference) : UB ibitset :=
  flip_bit b (position r).

(** [operator~() const]. *)
Definition ref_not (b : ibitset) (r : bit_reference) : UB bool :=
  do t <- test b (position r); Some (negb t).

End Etl.

Import Etl.

(** * Well-formed bitsets and the storage invariant *)

Module Wf.

Definition is_element (v : Z) : Prop := 0 <= v < 256.

Definition is_elementb (v : Z) : bool := (0 <=? v) && (v <? 256).

(** What the derived container guarantees when it constructs the base
    class: at least one bit (an array of zero elements cannot be declared),
    [SIZE = ceil(NBITS / BITS_PER_ELEMENT)] elements of storage, each one a
    [uint8_t], and the [TOP_MASK] that the constructor computed. *)
Definition wfb (b : ibitset) : bool :=
  (0 <? NBITS b) && (NBITS b <=? size_max)
  && (SIZE b =? (NBITS b + 7) / 8)
  && (Z.of_nat (length (pdata b)) =? SIZE b)
  && forallb is_elementb (pdata b)
  && (TOP_MASK b =? TOP_MASK (ctor (NBITS b) (SIZE b) (pdata b))).

Definition wf (b : ibitset) : Prop := wfb b = true.

(** The last storage element, [pdata[SIZE - 1]]. *)
Definition last_element (b : ibitset) : Z :=
  default 0 (pdata b !! Z.to_nat (SIZE b - 1)).

(** Bit [j] of the last element sits at position
    [BITS_PER_ELEMENT * (SIZE - 1) + j] of the bitset.  The invariant: the
    bits of the last element at positions [NBITS] and above are zero. *)
Definition invariantb (b : ibitset) : bool :=
  forallb (fun j => implb (NBITS b <=? BITS_PER_ELEMENT * (SIZE b - 1) + j)
                          (negb (Z.testbit (last_element b) j)))
          (seqZ 0 BITS_PER_ELEMENT).

Definition invariant (b : ibitset) : Prop := invariantb b = true.

(** The bit of the storage at an absolute position. *)
Definition raw_bit (l : list Z) (p : Z) : bool :=
  Z.testbit (default 0 (l !! Z.to_nat (p / 8))) (p mod 8).

(** The number of valid bits of the last element. *)
Definition top_bits (nbits : Z) : Z :=
  if nbits mod 8 =? 0 then 8 else nbits mod 8.

(** The state of an element-wise loop that has reached index [j]: the
    elements below [j] have been replaced by their image under [f], the
    others are untouched. *)
Definition updated_upto (f : nat -> Z -> Z) (b : ibitset) (j : Z)
           (s : ibitset) : Prop :=
  NBITS s = NBITS b /\ SIZE s = SIZE b /\ TOP_MASK s = TOP_MASK b
  /\ length (pdata s) = length (pdata b)
  /\ forall k : nat,
       pdata s !! k = if Z.of_nat k <? j then f k <$> (pdata b !! k)
                      else pdata b !! k.

(** What [flip()] leaves in element [k] that held [v]. *)
Definition flip_element (b : ibitset) (k : nat) (v : Z) : Z :=
  if Z.of_nat k =? SIZE b - 1
  then to_element (Z.land (to_element (Z.lnot v)) (TOP_MASK b))
  else to_element (Z.lnot v).

(** The number of positions [p] in [lo, lo + n) with [f p = true]. *)
Definition count_range (f : Z -> bool) (lo n : Z) : Z :=
  Z.of_nat (length (List.filter f (seqZ lo n))).

(** [test(p) == true], for a call that returns. *)
Definition test_true (b : ibitset) (p : Z) : bool :=
  match test b p with
  | Some true => true
  | _ => false
  end.

(** The number of positions [p] in [0, NBITS) for which [test(p)] is true. *)
Definition positions_set (b : ibitset) : Z :=
  count_range (test_true b) 0 (NBITS b).

(** Whether character [k] of the text (counted from the left end, from 0) is
    the character ['1']. *)
Definition char_is_one (text : string) (k : nat) : bool :=
  match String.get k text with
  | Some c => Ascii.eqb c "1"%char
  | None => false
  end.

(** The bit that [set(text)] leaves at position [p], in the words of the
    specification: [min(NBITS, length)] characters are consumed from the
    right end of the text, the rightmost character mapping to bit 0. *)
Definition text_bit_from_right (nbits : Z) (text : string) (p : Z) : bool :=
  (p <? Z.min nbits (strlen text))
  && char_is_one text (Z.to_nat (strlen text - 1 - p)).

(** The same for the leftmost [min(NBITS, length)] characters of the text,
    the last one of them mapping to bit 0. *)
Definition text_bit_from_left (nbits : Z) (text : string) (p : Z) : bool :=
  (p <? Z.min nbits (strlen text))
  && char_is_one text (Z.to_nat (Z.min nbits (strlen text) - 1 - p)).

(** The test that makes [find_next] skip an element without looking at its
    bits: no bit of [value] can be in the wanted state. *)
Definition skippable (state : bool) (value : Z) : bool :=
  negb ((state && negb (value =? ALL_CLEAR))
        || (negb state && negb (value =? ALL_SET))).

(** [r] is what [find_next(state, k)] has to return: the smallest position
    [p] with [k <= p < NBITS] and [test(p) == state], or [npos] when there is
    no such position. *)
Definition first_match_at (b : ibitset) (state : bool) (k r : Z) : Prop :=
  (k <= r < NBITS b /\ test b r = Some state
   /\ forall q, k <= q < r -> test b q = Some (negb state))
  \/ (r = npos
      /\ forall q, k <= q < NBITS b -> test b q = Some (negb state)).

(** Two bitsets over the same geometry. *)
Definition same_shape (b b' : ibitset) : Prop :=
  NBITS b' = NBITS b /\ SIZE b' = SIZE b /\ TOP_MASK b' = TOP_MASK b
  /\ length (pdata b') = length (pdata b).

(** The bits after the copying loop of [>>=] has moved [j] bits. *)
Definition shr_copied (b : ibitset) (shift j : Z) (s : shift_state) : Prop :=
  wf (sh_bitset s) /\ same_shape b (sh_bitset s)
  /\ sh_source s = shift + j /\ sh_destination s = j
  /\ forall q, 0 <= q ->
       raw_bit (pdata (sh_bitset s)) q
       = if q <? j then raw_bit (pdata b) (q + shift) else raw_bit (pdata b) q.

(** The bits after the clearing loop of [>>=] has cleared [j] bits. *)
Definition shr_cleared (b : ibitset) (shift j : Z) (s : shift_state) : Prop :=
  wf (sh_bitset s) /\ same_shape b (sh_bitset s)
  /\ sh_destination s = NBITS b - shift + j
  /\ forall q, 0 <= q ->
       raw_bit (pdata (sh_bitset s)) q
       = if q <? NBITS b - shift then raw_bit (pdata b) (q + shift)
         else if q <? NBITS b - shift + j then false
              else raw_bit (pdata b) q.

(** The bits after the copying loop of [<<=] has moved [j] bits. *)
Definition shl_copied (b : ibitset) (shift j : Z) (s : shift_state) : Prop :=
  wf (sh_bitset s) /\ same_shape b (sh_bitset s)
  /\ sh_source s = to_size (NBITS b - shift - 1 - j)
  /\ sh_destination s = to_size (NBITS b - 1 - j)
  /\ forall q, 0 <= q ->
       raw_bit (pdata (sh_bitset s)) q
       = if (NBITS b - j <=? q) && (q <? NBITS b)
         then raw_bit (pdata b) (q - shift) else raw_bit (pdata b) q.

(** The bits after the clearing loop of [<<=] has cleared [j] bits. *)
Definition shl_cleared (b : ibitset) (shift j : Z) (s : shift_state) : Prop :=
  wf (sh_bitset s) /\ same_shape b (sh_bitset s)
  /\ sh_destination s = to_size (shift - 1 - j)
  /\ forall q, 0 <= q ->
       raw_bit (pdata (sh_bitset s)) q
       = if (shift <=? q) && (q <? NBITS b) then raw_bit (pdata b) (q - shift)
         else if (shift - j <=? q) && (q <? shift) then false
              else raw_bit (pdata b) q.

Definition first_raw_match (b : ibitset) (state : bool) (k r : Z) : Prop :=
  (k <= r < NBITS b /\ raw_bit (pdata b) r = state
   /\ forall q, k <= q < r -> raw_bit (pdata b) q = negb state)
  \/ (r = npos
      /\ forall q, k <= q < NBITS b -> raw_bit (pdata b) q = negb state).

End Wf.
Import Wf.

(** * Basic facts *)

Section Basics.

Lemma to_element_small (v : Z) : is_element v -> to_element v = v.
Proof. unfold is_element, to_element, element_bits. intros H. apply Z.mod_small. lia. Qed.

Lemma to_element_is_element (v : Z) : is_element (to_element v).
Proof.
  unfold is_element, to_element, element_bits.
  change (2 ^ 8) with 256. apply Z.mod_pos_bound. lia.
Qed.

Lemma is_elementb_spec (v : Z) : is_elementb v = true <-> is_element v.
Proof. unfold is_elementb, is_element. rewrite andb_true_iff. lia. Qed.

Lemma wf_spec (b : ibitset) :
  wf b <->
  (0 < NBITS b <= size_max
   /\ SIZE b = (NBITS b + 7) / 8
   /\ Z.of_nat (length (pdata b)) = SIZE b
   /\ Forall is_element (pdata b)
   /\ TOP_MASK b = TOP_MASK (ctor (NBITS b) (SIZE b) (pdata b))).
Proof.
  unfold wf, wfb. rewrite !andb_true_iff, forallb_forall, Forall_forall.
  rewrite Z.ltb_lt, Z.leb_le, !Z.eqb_eq.
  assert (E : (forall v, In v (pdata b) -> is_elementb v = true)
              <-> (forall v, v ∈ pdata b -> is_element v)).
  { split; intros H v Hv; apply is_elementb_spec, H, list_elem_of_In, Hv. }
  rewrite E. tauto.
Qed.

Lemma invariant_spec (b : ibitset) :
  invariant b <->
  (forall j, 0 <= j < 8 -> NBITS b <= 8 * (SIZE b - 1) + j ->
             Z.testbit (last_element b) j = false).
Proof.
  unfold invariant, invariantb, BITS_PER_ELEMENT.
  rewrite forallb_forall. split.
  - intros H j Hj Hn.
    assert (Hin : In j (seqZ 0 8)).
    { apply list_elem_of_In, elem_of_seqZ. lia. }
    specialize (H j Hin).
    destruct (Z.leb_spec (NBITS b) (8 * (SIZE b - 1) + j)); [|lia].
    simpl in H. now apply negb_true_iff in H.
  - intros H j Hin. apply list_elem_of_In, elem_of_seqZ in Hin.
    destruct (Z.leb_spec (NBITS b) (8 * (SIZE b - 1) + j)); simpl; auto.
    rewrite H by lia. reflexivity.
Qed.

End Basics.

(** * Bits of one element *)

Section ElementBits.

Lemma is_element_high_bits (v j : Z) :
  is_element v -> 8 <= j -> Z.testbit v j = false.
Proof.
  intros Hv Hj. rewrite <- (to_element_small v Hv).
  unfold to_element, element_bits. apply Z.mod_pow2_bits_high. lia.
Qed.

Lemma to_element_low_bits (x j : Z) :
  0 <= j < 8 -> Z.testbit (to_element x) j = Z.testbit x j.
Proof.
  intros Hj. unfold to_element, element_bits. apply Z.mod_pow2_bits_low. lia.
Qed.

Lemma to_element_high_bits (x j : Z) :
  8 <= j -> Z.testbit (to_element x) j = false.
Proof. intros Hj. apply is_element_high_bits; [apply to_element_is_element | exact Hj]. Qed.

Lemma element_ext (a b : Z) :
  is_element a -> is_element b ->
  (forall j, 0 <= j < 8 -> Z.testbit a j = Z.testbit b j) -> a = b.
Proof.
  intros Ha Hb H. apply Z.bits_inj'. intros j Hj.
  destruct (Z.lt_ge_cases j 8) as [Hlt | Hge].
  - apply H. lia.
  - rewrite !is_element_high_bits by assumption. reflexivity.
Qed.

Lemma land_pow2_eqb (v k : Z) :
  0 <= k -> (Z.land v (2 ^ k) =? 0) = negb (Z.testbit v k).
Proof.
  intros Hk.
  assert (E : Z.land v (2 ^ k) = if Z.testbit v k then 2 ^ k else 0).
  { apply Z.bits_inj'. intros j Hj. rewrite Z.land_spec, Z.pow2_bits_eqb by lia.
    destruct (Z.eqb_spec k j) as [->|Hne].
    - destruct (Z.testbit v j); simpl.
      + rewrite Z.pow2_bits_eqb, Z.eqb_refl by lia. reflexivity.
      + rewrite Z.bits_0. reflexivity.
    - rewrite andb_false_r. destruct (Z.testbit v k).
      + rewrite Z.pow2_bits_eqb by lia. symmetry. apply Z.eqb_neq. exact Hne.
      + rewrite Z.bits_0. reflexivity. }
  rewrite E. destruct (Z.testbit v k); simpl.
  - apply Z.eqb_neq. assert (0 < 2 ^ k) by (apply Z.pow_pos_nonneg; lia). lia.
  - reflexivity.
Qed.

Lemma shl_int_one (k : Z) :
  0 <= k < 8 ->
  (do m <- shl_int 1 k; Some (to_element m)) = Some (2 ^ k).
Proof.
  intros Hk. unfold shl_int, int_bits.
  destruct (Z.ltb_spec k 32); [|lia]. simpl.
  rewrite Z.shiftl_1_l. f_equal. apply to_element_small.
  unfold is_element. split.
  - apply Z.pow_nonneg. lia.
  - change 256 with (2 ^ 8). apply Z.pow_lt_mono_r; lia.
Qed.

Lemma ones_bits (n j : Z) :
  0 <= n -> 0 <= j -> Z.testbit (Z.ones n) j = (j <? n).
Proof.
  intros Hn Hj. destruct (Z.ltb_spec j n).
  - apply Z.ones_spec_low. lia.
  - apply Z.ones_spec_high. lia.
Qed.

End ElementBits.

(** * The storage: reads and writes *)

Section Storage.

Lemma rd_some (b : ibitset) (i v : Z) :
  rd b i = Some v <-> 0 <= i /\ pdata b !! Z.to_nat i = Some v.
Proof.
  unfold rd. destruct (Z.leb_spec 0 i); split; intros H0; try tauto; try discriminate.
  - lia.
Qed.

Lemma rd_in_range (b : ibitset) (i : Z) :
  0 <= i < Z.of_nat (length (pdata b)) ->
  rd b i = Some (default 0 (pdata b !! Z.to_nat i)).
Proof.
  intros Hi. unfold rd. destruct (Z.leb_spec 0 i); [|lia].
  destruct (pdata b !! Z.to_nat i) eqn:E; [reflexivity|].
  apply lookup_ge_None in E. lia.
Qed.

Lemma rd_out_of_range (b : ibitset) (i : Z) :
  Z.of_nat (length (pdata b)) <= i -> rd b i = None.
Proof.
  intros Hi. unfold rd. destruct (0 <=? i); [|reflexivity].
  apply lookup_ge_None. lia.
Qed.

Lemma wr_in_range (b : ibitset) (i v : Z) :
  0 <= i < Z.of_nat (length (pdata b)) ->
  wr b i v = Some (with_pdata b (<[Z.to_nat i := v]> (pdata b))).
Proof.
  intros Hi. unfold wr.
  destruct (Z.leb_spec 0 i); [|lia].
  destruct (Z.ltb_spec i (Z.of_nat (length (pdata b)))); [|lia].
  reflexivity.
Qed.

Lemma wf_with_pdata (b : ibitset) (l : list Z) :
  wf b -> length l = length (pdata b) -> Forall is_element l ->
  wf (with_pdata b l).
Proof.
  rewrite !wf_spec. simpl. intros (H1 & H2 & H3 & H4 & H5) Hl Hf.
  repeat split; try tauto; try lia.
Qed.

Lemma Forall_insert_element (l : list Z) (i : nat) (v : Z) :
  Forall is_element l -> is_element v -> Forall is_element (<[i := v]> l).
Proof. intros Hl Hv. apply Forall_insert; assumption. Qed.

Lemma same_shape_refl (b : ibitset) : same_shape b b.
Proof. unfold same_shape. tauto. Qed.

Lemma same_shape_trans (a b c : ibitset) :
  same_shape a b -> same_shape b c -> same_shape a c.
Proof. unfold same_shape. intros (?&?&?&?) (?&?&?&?). repeat split; congruence. Qed.

Lemma same_shape_with_pdata (b : ibitset) (l : list Z) :
  length l = length (pdata b) -> same_shape b (with_pdata b l).
Proof. unfold same_shape. simpl. tauto. Qed.

(** A bitset is determined by its geometry and its storage. *)
Lemma same_shape_eq (b b' : ibitset) :
  same_shape b b' -> pdata b' = pdata b -> b' = b.
Proof.
  destruct b, b'. unfold same_shape. simpl.
  intros (-> & -> & -> & _) ->. reflexivity.
Qed.

End Storage.

(** * The constructor and the top mask *)

Section TopMask.

Lemma top_mask_shift_ceil (nbits : Z) :
  0 <= nbits <= size_max ->
  top_mask_shift nbits ((nbits + 7) / 8) = nbits mod 8.
Proof.
  unfold top_mask_shift, to_size, size_max, size_bits, BITS_PER_ELEMENT.
  intros H.
  change (2 ^ 64) with 18446744073709551616 in *.
  rewrite Zminus_mod_idemp_l.
  assert (E : ((nbits + 7) / 8 * 8 - nbits) mod 18446744073709551616
              = (8 - nbits mod 8) mod 8).
  { rewrite Z.mod_small; Z.div_mod_to_equations; lia. }
  rewrite E. rewrite (Z.mod_small (8 - _)) by (Z.div_mod_to_equations; lia).
  Z.div_mod_to_equations; lia.
Qed.

Lemma low_mask_value (s : Z) :
  0 < s < 8 -> to_element (Z.lnot (Z.shiftl ALL_SET s)) = Z.ones s.
Proof.
  intros H.
  assert (C : s = 1 \/ s = 2 \/ s = 3 \/ s = 4 \/ s = 5 \/ s = 6 \/ s = 7) by lia.
  destruct C as [-> | [-> | [-> | [-> | [-> | [-> | ->]]]]]]; reflexivity.
Qed.

Lemma ctor_top_mask_value (nbits : Z) (data : list Z) :
  0 <= nbits <= size_max ->
  TOP_MASK (ctor nbits ((nbits + 7) / 8) data) = Z.ones (top_bits nbits).
Proof.
  intros H. unfold ctor, top_bits. simpl.
  rewrite top_mask_shift_ceil by exact H.
  destruct (Z.eqb_spec (nbits mod 8) 0) as [E | E].
  - reflexivity.
  - apply low_mask_value. Z.div_mod_to_equations; lia.
Qed.

Lemma wf_top_mask (b : ibitset) :
  wf b -> TOP_MASK b = Z.ones (top_bits (NBITS b)).
Proof.
  rewrite wf_spec. intros (H1 & H2 & H3 & H4 & H5).
  rewrite H5, H2. apply ctor_top_mask_value. lia.
Qed.

Lemma top_bits_range (nbits : Z) : 0 < top_bits nbits <= 8.
Proof.
  unfold top_bits. destruct (Z.eqb_spec (nbits mod 8) 0); Z.div_mod_to_equations; lia.
Qed.

(** Geometry of a well-formed bitset: the last element starts below
    [NBITS] and the storage ends at or after it. *)
Lemma wf_geometry (b : ibitset) :
  wf b ->
  1 <= SIZE b /\ 8 * (SIZE b - 1) < NBITS b <= 8 * SIZE b
  /\ NBITS b = 8 * (SIZE b - 1) + top_bits (NBITS b)
  /\ Z.of_nat (length (pdata b)) = SIZE b
  /\ SIZE b <= size_max.
Proof.
  rewrite wf_spec. unfold size_max, size_bits, top_bits.
  change (2 ^ 64) with 18446744073709551616.
  intros (H1 & H2 & H3 & H4 & H5).
  destruct (Z.eqb_spec (NBITS b mod 8) 0);
    repeat split; try assumption; Z.div_mod_to_equations; lia.
Qed.

Lemma wf_single (b : ibitset) : wf b -> SIZE b = 1 -> NBITS b <= 8.
Proof. intros Hw Hs. pose proof (wf_geometry b Hw). lia. Qed.

Lemma to_size_small (z : Z) : 0 <= z <= size_max -> to_size z = z.
Proof.
  unfold to_size, size_max, size_bits. intros H. apply Z.mod_small. lia.
Qed.

Lemma wf_last_index (b : ibitset) :
  wf b -> to_size (SIZE b - 1) = SIZE b - 1.
Proof.
  intros Hw. pose proof (wf_geometry b Hw). apply to_size_small. lia.
Qed.

End TopMask.

(** * Positions: index and mask *)

Section Positions.

Lemma locate_multi (b : ibitset) (p : Z) :
  SIZE b <> 1 -> 0 <= p ->
  locate b p = Some (p / 8, 2 ^ (p mod 8)).
Proof.
  intros Hs Hp. unfold locate, BITS_PER_ELEMENT, log2_BITS_PER_ELEMENT.
  destruct (Z.eqb_spec (SIZE b) 1); [contradiction|].
  change (8 - 1) with (Z.ones 3). rewrite Z.land_ones by lia.
  change (2 ^ 3) with 8.
  assert (Hm : 0 <= p mod 8 < 8) by (apply Z.mod_pos_bound; lia).
  pose proof (shl_int_one (p mod 8) Hm) as E.
  destruct (shl_int 1 (p mod 8)) as [m|]; simpl in *; [|discriminate].
  rewrite Z.shiftr_div_pow2 by lia. change (2 ^ 3) with 8.
  congruence.
Qed.

Lemma locate_single (b : ibitset) (p : Z) :
  SIZE b = 1 -> 0 <= p < 8 ->
  locate b p = Some (p / 8, 2 ^ (p mod 8)).
Proof.
  intros Hs Hp. unfold locate.
  destruct (Z.eqb_spec (SIZE b) 1); [|contradiction].
  pose proof (shl_int_one p Hp) as E.
  destruct (shl_int 1 p) as [m|]; simpl in *; [|discriminate].
  rewrite Z.div_small, Z.mod_small by lia. congruence.
Qed.

Lemma locate_ok (b : ibitset) (p : Z) :
  wf b -> 0 <= p < NBITS b ->
  locate b p = Some (p / 8, 2 ^ (p mod 8))
  /\ 0 <= p / 8 < Z.of_nat (length (pdata b)).
Proof.
  intros Hw Hp. pose proof (wf_geometry b Hw) as G. split.
  - destruct (Z.eq_dec (SIZE b) 1) as [E | E].
    + apply locate_single; [exact E | lia].
    + apply locate_multi; [exact E | lia].
  - Z.div_mod_to_equations; lia.
Qed.

Lemma test_ok (b : ibitset) (p : Z) :
  wf b -> 0 <= p < NBITS b -> test b p = Some (raw_bit (pdata b) p).
Proof.
  intros Hw Hp. destruct (locate_ok b p Hw Hp) as [E R].
  unfold test. rewrite E. simpl. rewrite rd_in_range by exact R. simpl.
  rewrite land_pow2_eqb by (Z.div_mod_to_equations; lia).
  rewrite negb_involutive. reflexivity.
Qed.

(** Positions and (index, bit) pairs. *)
Lemma position_split (p q : Z) :
  p / 8 = q / 8 -> p mod 8 = q mod 8 -> p = q.
Proof. intros. Z.div_mod_to_equations; lia. Qed.

Lemma raw_bit_insert (l : list Z) (p q x : Z) :
  0 <= p -> 0 <= q -> 0 <= p / 8 < Z.of_nat (length l) ->
  raw_bit (<[Z.to_nat (p / 8) := to_element x]> l) q
  = if q / 8 =? p / 8 then Z.testbit x (q mod 8) else raw_bit l q.
Proof.
  intros Hp Hq Hr. unfold raw_bit.
  destruct (Z.eqb_spec (q / 8) (p / 8)) as [E | E].
  - rewrite E, list_lookup_insert_eq by lia. simpl.
    apply to_element_low_bits. apply Z.mod_pos_bound. lia.
  - rewrite list_lookup_insert_ne; [reflexivity|].
    intros C. apply E. apply Z2Nat.inj in C; Z.div_mod_to_equations; lia.
Qed.

End Positions.

(** * Single-bit mutators *)

Section SingleBit.

(** Writing one element that differs from the old one in bit [p mod 8] only. *)
Lemma poke_ok (b : ibitset) (p x : Z) (val : bool) :
  wf b -> 0 <= p < NBITS b ->
  (forall j, 0 <= j < 8 ->
     Z.testbit x j = if j =? p mod 8 then val
                     else Z.testbit (default 0 (pdata b !! Z.to_nat (p / 8))) j) ->
  exists b', wr b (p / 8) (to_element x) = Some b'
    /\ pdata b' = <[Z.to_nat (p / 8) := to_element x]> (pdata b)
    /\ wf b' /\ same_shape b b'
    /\ forall q, 0 <= q ->
         raw_bit (pdata b') q = if q =? p then val else raw_bit (pdata b) q.
Proof.
  intros Hw Hp Hx. destruct (locate_ok b p Hw Hp) as [_ R].
  exists (with_pdata b (<[Z.to_nat (p / 8) := to_element x]> (pdata b))).
  split; [apply wr_in_range; exact R|].
  split; [reflexivity|].
  split.
  { apply wf_with_pdata; [exact Hw | apply length_insert |].
    apply Forall_insert_element; [|apply to_element_is_element].
    apply wf_spec in Hw. tauto. }
  split; [apply same_shape_with_pdata, length_insert|].
  intros q Hq. simpl. rewrite raw_bit_insert by lia.
  assert (Hm : 0 <= q mod 8 < 8) by (apply Z.mod_pos_bound; lia).
  destruct (Z.eqb_spec (q / 8) (p / 8)) as [E | E].
  - rewrite Hx by exact Hm.
    destruct (Z.eqb_spec (q mod 8) (p mod 8)) as [E' | E'].
    + rewrite (position_split q p E E'), Z.eqb_refl. reflexivity.
    + destruct (Z.eqb_spec q p) as [-> | _]; [contradiction|].
      unfold raw_bit. rewrite E. reflexivity.
  - destruct (Z.eqb_spec q p) as [-> | _]; [contradiction | reflexivity].
Qed.

Lemma set_bit_ok (b : ibitset) (p : Z) (val : bool) :
  wf b -> 0 <= p < NBITS b ->
  exists b', set_bit b p val = Some b' /\ wf b' /\ same_shape b b'
    /\ forall q, 0 <= q ->
         raw_bit (pdata b') q = if q =? p then val else raw_bit (pdata b) q.
Proof.
  intros Hw Hp. destruct (locate_ok b p Hw Hp) as [E R].
  assert (Hk : 0 <= p mod 8 < 8) by (apply Z.mod_pos_bound; lia).
  unfold set_bit. rewrite E. simpl. rewrite rd_in_range by exact R. simpl.
  set (v := default 0 (pdata b !! Z.to_nat (p / 8))).
  destruct val.
  - destruct (poke_ok b p (Z.lor v (2 ^ (p mod 8))) true Hw Hp) as (b' & H1 & _ & H2).
    { intros j Hj. rewrite Z.lor_spec, Z.pow2_bits_eqb by lia. fold v.
      rewrite (Z.eqb_sym (p mod 8) j).
      destruct (j =? p mod 8); [apply orb_true_r | apply orb_false_r]. }
    exists b'. split; assumption.
  - destruct (poke_ok b p (Z.land v (Z.lnot (2 ^ (p mod 8)))) false Hw Hp)
      as (b' & H1 & _ & H2).
    { intros j Hj. rewrite Z.land_spec, Z.lnot_spec, Z.pow2_bits_eqb by lia. fold v.
      rewrite (Z.eqb_sym (p mod 8) j).
      destruct (j =? p mod 8); [apply andb_false_r | apply andb_true_r]. }
    exists b'. split; assumption.
Qed.

Lemma reset_bit_is_set_false (b : ibitset) (p : Z) :
  reset_bit b p = set_bit b p false.
Proof. reflexivity. Qed.

Lemma reset_bit_ok (b : ibitset) (p : Z) :
  wf b -> 0 <= p < NBITS b ->
  exists b', reset_bit b p = Some b' /\ wf b' /\ same_shape b b'
    /\ forall q, 0 <= q ->
         raw_bit (pdata b') q = if q =? p then false else raw_bit (pdata b) q.
Proof. rewrite reset_bit_is_set_false. apply set_bit_ok. Qed.

Lemma flip_bit_ok (b : ibitset) (p : Z) :
  wf b -> 0 <= p < NBITS b ->
  exists b', flip_bit b p = Some b'
    /\ pdata b' = <[Z.to_nat (p / 8) :=
                     to_element (Z.lxor (default 0 (pdata b !! Z.to_nat (p / 8)))
                                        (2 ^ (p mod 8)))]> (pdata b)
    /\ wf b' /\ same_shape b b'
    /\ forall q, 0 <= q ->
         raw_bit (pdata b') q
         = if q =? p then negb (raw_bit (pdata b) p) else raw_bit (pdata b) q.
Proof.
  intros Hw Hp. destruct (locate_ok b p Hw Hp) as [E R].
  assert (Hk : 0 <= p mod 8 < 8) by (apply Z.mod_pos_bound; lia).
  unfold flip_bit. destruct (Z.ltb_spec p (NBITS b)); [|lia].
  rewrite E. simpl. rewrite rd_in_range by exact R. simpl.
  set (v := default 0 (pdata b !! Z.to_nat (p / 8))).
  apply (poke_ok b p (Z.lxor v (2 ^ (p mod 8))) (negb (raw_bit (pdata b) p)) Hw Hp).
  intros j Hj. rewrite Z.lxor_spec, Z.pow2_bits_eqb by lia. fold v.
  rewrite (Z.eqb_sym (p mod 8) j).
  destruct (Z.eqb_spec j (p mod 8)) as [-> | _].
  - unfold raw_bit. fold v. apply xorb_true_r.
  - apply xorb_false_r.
Qed.

End SingleBit.

(** * Loops over the storage *)

Section Loops.

Lemma for_loop_rule {S : Type} (P : Z -> S -> Prop)
      (body : Z -> S -> UB S) (cnt : nat) (i : Z) (s : S) :
  P i s ->
  (forall j t, i <= j < i + Z.of_nat cnt -> P j t ->
               exists t', body j t = Some t' /\ P (j + 1) t') ->
  exists s', for_loop cnt i body s = Some s' /\ P (i + Z.of_nat cnt) s'.
Proof.
  revert i s. induction cnt as [|cnt IH]; intros i s Hs Hbody.
  - exists s. simpl. rewrite Z.add_0_r. auto.
  - destruct (Hbody i s ltac:(lia) Hs) as (t & Ht & HP).
    destruct (IH (i + 1) t HP) as (s' & Hs' & HP').
    { intros j u Hj Hu. apply Hbody; [lia | exact Hu]. }
    exists s'. simpl. rewrite Ht. simpl. rewrite Hs'.
    split; [reflexivity|].
    replace (i + Z.of_nat (Datatypes.S cnt)) with (i + 1 + Z.of_nat cnt) by lia.
    exact HP'.
Qed.

Lemma for_loop_fails_at_once {S : Type} (body : Z -> S -> UB S)
      (cnt : nat) (i : Z) (s : S) :
  (0 < cnt)%nat -> body i s = None -> for_loop cnt i body s = None.
Proof.
  intros Hc Hb. destruct cnt as [|cnt]; [lia|]. simpl. rewrite Hb. reflexivity.
Qed.

Lemma updated_upto_start (f : nat -> Z -> Z) (b : ibitset) :
  updated_upto f b 0 b.
Proof.
  unfold updated_upto. repeat split; try reflexivity.
  intros k. destruct (Z.ltb_spec (Z.of_nat k) 0); [lia | reflexivity].
Qed.

Lemma updated_upto_step (f : nat -> Z -> Z) (b s : ibitset) (j x : Z) :
  updated_upto f b j s -> 0 <= j < Z.of_nat (length (pdata b)) ->
  pdata b !! Z.to_nat j = Some x ->
  updated_upto f b (j + 1)
               (with_pdata s (<[Z.to_nat j := f (Z.to_nat j) x]> (pdata s))).
Proof.
  intros (H1 & H2 & H3 & H4 & H5) Hj Hx.
  unfold updated_upto. simpl. rewrite length_insert.
  repeat split; try assumption.
  intros k. destruct (Nat.eq_dec k (Z.to_nat j)) as [-> | Hne].
  - rewrite list_lookup_insert_eq by lia.
    destruct (Z.ltb_spec (Z.of_nat (Z.to_nat j)) (j + 1)); [|lia].
    rewrite Hx. reflexivity.
  - rewrite list_lookup_insert_ne by congruence. rewrite H5.
    destruct (Z.ltb_spec (Z.of_nat k) j), (Z.ltb_spec (Z.of_nat k) (j + 1));
      try reflexivity; lia.
Qed.

Lemma updated_upto_end (f : nat -> Z -> Z) (b s : ibitset) :
  updated_upto f b (Z.of_nat (length (pdata b))) s ->
  s = with_pdata b (imap f (pdata b)).
Proof.
  intros (H1 & H2 & H3 & H4 & H5).
  destruct s as [n z l m], b as [n' z' l' m']. simpl in *. subst.
  unfold with_pdata. simpl. f_equal.
  apply list_eq. intros k. rewrite H5, list_lookup_imap.
  destruct (Z.ltb_spec (Z.of_nat k) (Z.of_nat (length l'))).
  - destruct (l' !! k); reflexivity.
  - rewrite (proj2 (lookup_ge_None l' k)) by lia. reflexivity.
Qed.

(** An element-wise loop over the whole storage: [pdata[i] = f(i, pdata[i])]. *)
Lemma elementwise_loop (f : nat -> Z -> Z) (body : Z -> ibitset -> UB ibitset)
      (b : ibitset) :
  (forall j s x, updated_upto f b j s ->
                 pdata b !! Z.to_nat j = Some x ->
                 0 <= j < Z.of_nat (length (pdata b)) ->
                 body j s = wr s j (f (Z.to_nat j) x)) ->
  for_loop (length (pdata b)) 0 body b
  = Some (with_pdata b (imap f (pdata b))).
Proof.
  intros Hbody.
  destruct (for_loop_rule (updated_upto f b) body (length (pdata b)) 0 b)
    as (s' & Hs' & HP).
  - apply updated_upto_start.
  - intros j t Hj Ht.
    destruct (pdata b !! Z.to_nat j) as [x|] eqn:Ex.
    2:{ apply lookup_ge_None in Ex. lia. }
    exists (with_pdata t (<[Z.to_nat j := f (Z.to_nat j) x]> (pdata t))).
    split.
    + rewrite (Hbody j t x Ht Ex) by lia. apply wr_in_range.
      destruct Ht as (_ & _ & _ & Hl & _). lia.
    + apply updated_upto_step; [exact Ht | lia | exact Ex].
  - rewrite Hs'. f_equal. apply updated_upto_end. exact HP.
Qed.

Lemma updated_upto_rd (f : nat -> Z -> Z) (b s : ibitset) (j x : Z) :
  updated_upto f b j s -> 0 <= j -> pdata b !! Z.to_nat j = Some x ->
  rd s j = Some x.
Proof.
  intros (_ & _ & _ & _ & H) Hj Hx. apply rd_some. split; [exact Hj|].
  rewrite H. destruct (Z.ltb_spec (Z.of_nat (Z.to_nat j)) j); [lia | exact Hx].
Qed.

Lemma reset_all_ok (b : ibitset) :
  Z.of_nat (length (pdata b)) = SIZE b ->
  reset_all b = Some (with_pdata b (imap (fun _ _ => ALL_CLEAR) (pdata b))).
Proof.
  intros Hl. unfold reset_all. rewrite <- Hl, Nat2Z.id.
  apply elementwise_loop. reflexivity.
Qed.

Lemma fill_loop_ok (b : ibitset) :
  Z.of_nat (length (pdata b)) = SIZE b ->
  for_loop (Z.to_nat (SIZE b)) 0 (fun i s => wr s i ALL_SET) b
  = Some (with_pdata b (imap (fun _ _ => ALL_SET) (pdata b))).
Proof.
  intros Hl. rewrite <- Hl, Nat2Z.id. apply elementwise_loop. reflexivity.
Qed.

Lemma invert_loop_ok (b : ibitset) :
  Z.of_nat (length (pdata b)) = SIZE b ->
  for_loop (Z.to_nat (SIZE b)) 0
    (fun i s => do v <- rd s i; wr s i (to_element (Z.lnot v))) b
  = Some (with_pdata b (imap (fun _ v => to_element (Z.lnot v)) (pdata b))).
Proof.
  intros Hl. rewrite <- Hl, Nat2Z.id. apply elementwise_loop.
  intros j s x Hs Hx Hj.
  rewrite (updated_upto_rd _ b s j x Hs); [reflexivity | lia | exact Hx].
Qed.

Lemma mask_top_ok (b : ibitset) :
  1 <= SIZE b <= size_max -> Z.of_nat (length (pdata b)) = SIZE b ->
  mask_top b
  = Some (with_pdata b
            (<[Z.to_nat (SIZE b - 1) :=
                 to_element (Z.land (default 0 (pdata b !! Z.to_nat (SIZE b - 1)))
                                    (TOP_MASK b))]> (pdata b))).
Proof.
  intros Hs Hl. unfold mask_top. rewrite to_size_small by lia.
  rewrite rd_in_range by lia. simpl. apply wr_in_range. lia.
Qed.

End Loops.

(** * Whole-array operations *)

Section WholeArray.

Lemma top_bits_cases (nbits : Z) :
  let t := top_bits nbits in
  t = 1 \/ t = 2 \/ t = 3 \/ t = 4 \/ t = 5 \/ t = 6 \/ t = 7 \/ t = 8.
Proof. pose proof (top_bits_range nbits). simpl. lia. Qed.

Lemma top_mask_is_element (b : ibitset) : wf b -> is_element (TOP_MASK b).
Proof.
  intros Hw. rewrite (wf_top_mask b Hw). unfold is_element.
  destruct (top_bits_cases (NBITS b)) as [-> | [-> | [-> | [-> | [-> | [-> | [-> | ->]]]]]]];
    vm_compute; split; congruence.
Qed.

Lemma top_mask_bits (b : ibitset) (j : Z) :
  wf b -> 0 <= j -> Z.testbit (TOP_MASK b) j = (j <? top_bits (NBITS b)).
Proof.
  intros Hw Hj. rewrite (wf_top_mask b Hw). apply ones_bits; [|exact Hj].
  pose proof (top_bits_range (NBITS b)). lia.
Qed.

Lemma land_all_set_top_mask (b : ibitset) :
  wf b -> Z.land ALL_SET (TOP_MASK b) = TOP_MASK b.
Proof.
  intros Hw. change ALL_SET with (Z.ones 8).
  rewrite Z.land_comm, Z.land_ones by lia.
  apply Z.mod_small. apply (top_mask_is_element b Hw).
Qed.

Lemma invariant_top (b : ibitset) :
  wf b ->
  (invariant b <->
   forall j, top_bits (NBITS b) <= j < 8 -> Z.testbit (last_element b) j = false).
Proof.
  intros Hw. pose proof (wf_geometry b Hw) as G.
  pose proof (top_bits_range (NBITS b)) as T.
  rewrite invariant_spec. split; intros H j Hj; [|intros Hn]; apply H; lia.
Qed.

(** The invariant, read on absolute positions of the storage. *)
Lemma invariant_raw (b : ibitset) :
  wf b ->
  (invariant b <->
   forall p, NBITS b <= p < 8 * SIZE b -> raw_bit (pdata b) p = false).
Proof.
  intros Hw. pose proof (wf_geometry b Hw) as G.
  pose proof (top_bits_range (NBITS b)) as T.
  rewrite (invariant_top b Hw). unfold raw_bit, last_element. split.
  - intros H p Hp.
    replace (p / 8) with (SIZE b - 1) by (Z.div_mod_to_equations; lia).
    apply H. Z.div_mod_to_equations; lia.
  - intros H j Hj. specialize (H (8 * (SIZE b - 1) + j) ltac:(lia)).
    replace ((8 * (SIZE b - 1) + j) / 8) with (SIZE b - 1) in H
      by (Z.div_mod_to_equations; lia).
    replace ((8 * (SIZE b - 1) + j) mod 8) with j in H
      by (Z.div_mod_to_equations; lia).
    exact H.
Qed.

(** An element masked with [TOP_MASK] has no bit above the top bits. *)
Lemma masked_last_invariant (b : ibitset) (x : Z) :
  wf b ->
  last_element b = to_element (Z.land x (TOP_MASK b)) -> invariant b.
Proof.
  intros Hw Hl. apply (invariant_top b Hw). intros j Hj. rewrite Hl.
  pose proof (top_bits_range (NBITS b)) as T.
  rewrite to_element_low_bits, Z.land_spec, (top_mask_bits b j Hw) by lia.
  destruct (Z.ltb_spec j (top_bits (NBITS b))); [lia | apply andb_false_r].
Qed.

Lemma wf_imap (b : ibitset) (f : nat -> Z -> Z) :
  wf b -> (forall k v, is_element (f k v)) ->
  wf (with_pdata b (imap f (pdata b))).
Proof.
  intros Hw Hf. apply wf_with_pdata; [exact Hw | apply length_imap |].
  apply Forall_forall. intros x Hx.
  apply elem_of_lookup_imap_1 in Hx. destruct Hx as (k & v & -> & _). apply Hf.
Qed.

(** [pdata[SIZE - 1] &= TOP_MASK] after an element-wise pass. *)
Lemma masked_pass_ok (b : ibitset) (f : nat -> Z -> Z) :
  wf b -> (forall k v, is_element (f k v)) ->
  exists b1, mask_top (with_pdata b (imap f (pdata b))) = Some b1
    /\ wf b1 /\ same_shape b b1 /\ invariant b1
    /\ forall k : nat,
         pdata b1 !! k
         = (fun v => if Z.of_nat k =? SIZE b - 1
                     then to_element (Z.land (f k v) (TOP_MASK b))
                     else f k v) <$> (pdata b !! k).
Proof.
  intros Hw Hf. pose proof (wf_geometry b Hw) as G.
  set (b0 := with_pdata b (imap f (pdata b))).
  assert (Hw0 : wf b0) by (apply wf_imap; assumption).
  assert (Hl0 : Z.of_nat (length (pdata b0)) = SIZE b0).
  { simpl. rewrite length_imap. tauto. }
  rewrite mask_top_ok; [| change (SIZE b0) with (SIZE b); lia | exact Hl0].
  match goal with |- exists b1, Some ?x = Some b1 /\ _ => set (b1 := x) end.
  assert (Hlook : forall k : nat,
         pdata b1 !! k
         = (fun v => if Z.of_nat k =? SIZE b - 1
                     then to_element (Z.land (f k v) (TOP_MASK b))
                     else f k v) <$> (pdata b !! k)).
  { intros k. simpl. destruct (Z.eqb_spec (Z.of_nat k) (SIZE b - 1)) as [E | E].
    - replace (Z.to_nat (SIZE b - 1)) with k by lia.
      rewrite list_lookup_insert_eq by (rewrite length_imap; lia).
      rewrite list_lookup_imap.
      destruct (pdata b !! k) eqn:Ek; simpl; [reflexivity|].
      apply lookup_ge_None in Ek. lia.
    - rewrite list_lookup_insert_ne by lia.
      rewrite list_lookup_imap. destruct (pdata b !! k); reflexivity. }
  assert (Hw1 : wf b1).
  { apply wf_with_pdata; [exact Hw0 | apply length_insert |].
    apply Forall_insert_element; [|apply to_element_is_element].
    apply wf_spec in Hw0. tauto. }
  exists b1. split; [reflexivity|]. split; [exact Hw1|].
  split.
  { unfold same_shape. simpl. rewrite length_insert, length_imap. tauto. }
  split; [|exact Hlook].
  apply (masked_last_invariant b1 (f (Z.to_nat (SIZE b - 1))
                                     (default 0 (pdata b !! Z.to_nat (SIZE b - 1))))
                               Hw1).
  unfold last_element. change (SIZE b1) with (SIZE b).
  rewrite Hlook. destruct (pdata b !! Z.to_nat (SIZE b - 1)) eqn:Ek; simpl.
  - destruct (Z.eqb_spec (Z.of_nat (Z.to_nat (SIZE b - 1))) (SIZE b - 1)); [reflexivity | lia].
  - apply lookup_ge_None in Ek. lia.
Qed.

Lemma set_all_ok (b : ibitset) :
  wf b ->
  exists b1, set_all b = Some b1 /\ wf b1 /\ same_shape b b1 /\ invariant b1
    /\ forall k : nat,
         (Z.of_nat k < SIZE b)%Z ->
         pdata b1 !! k
         = Some (if Z.of_nat k =? SIZE b - 1 then TOP_MASK b else ALL_SET).
Proof.
  intros Hw. pose proof (wf_geometry b Hw) as G.
  unfold set_all. rewrite fill_loop_ok by tauto. simpl.
  destruct (masked_pass_ok b (fun _ _ => ALL_SET) Hw) as (b1 & E & W & S & I & L).
  { intros _ _. unfold is_element, ALL_SET. lia. }
  exists b1. repeat (split; [assumption|]).
  intros k Hk. rewrite L.
  destruct (pdata b !! k) eqn:Ek; simpl.
  - rewrite (land_all_set_top_mask b Hw).
    rewrite (to_element_small _ (top_mask_is_element b Hw)). reflexivity.
  - apply lookup_ge_None in Ek. lia.
Qed.

Lemma flip_all_ok (b : ibitset) :
  wf b ->
  exists b1, flip_all b = Some b1 /\ wf b1 /\ same_shape b b1 /\ invariant b1
    /\ forall k : nat, pdata b1 !! k = flip_element b k <$> (pdata b !! k).
Proof.
  intros Hw. pose proof (wf_geometry b Hw) as G.
  unfold flip_all. rewrite invert_loop_ok by tauto. simpl.
  destruct (masked_pass_ok b (fun _ v => to_element (Z.lnot v)) Hw)
    as (b1 & E & W & S & I & L).
  { intros _ v. apply to_element_is_element. }
  exists b1. repeat (split; [assumption|]).
  intros k. rewrite L. unfold flip_element.
  destruct (pdata b !! k); reflexivity.
Qed.

End WholeArray.

(** * Extensionality of the storage *)

Section Extensionality.

Lemma raw_bit_lookup (l : list Z) (k : nat) (x j : Z) :
  l !! k = Some x -> 0 <= j < 8 ->
  raw_bit l (8 * Z.of_nat k + j) = Z.testbit x j.
Proof.
  intros Hk Hj. unfold raw_bit.
  replace ((8 * Z.of_nat k + j) / 8) with (Z.of_nat k)
    by (Z.div_mod_to_equations; lia).
  replace ((8 * Z.of_nat k + j) mod 8) with j by (Z.div_mod_to_equations; lia).
  rewrite Nat2Z.id, Hk. reflexivity.
Qed.

Lemma raw_bit_ext (l l' : list Z) :
  length l = length l' -> Forall is_element l -> Forall is_element l' ->
  (forall q, 0 <= q -> raw_bit l q = raw_bit l' q) -> l = l'.
Proof.
  intros Hlen Hl Hl' H. apply list_eq. intros k.
  destruct (l !! k) as [x|] eqn:Ex.
  - destruct (l' !! k) as [x'|] eqn:Ex'.
    + f_equal. apply element_ext.
      * apply (Forall_lookup_1 _ l k x Hl Ex).
      * apply (Forall_lookup_1 _ l' k x' Hl' Ex').
      * intros j Hj.
        rewrite <- (raw_bit_lookup l k x j Ex Hj).
        rewrite <- (raw_bit_lookup l' k x' j Ex' Hj).
        apply H. lia.
    + apply lookup_ge_None in Ex'. apply lookup_lt_Some in Ex. lia.
  - destruct (l' !! k) as [x'|] eqn:Ex'; [|reflexivity].
    apply lookup_ge_None in Ex. apply lookup_lt_Some in Ex'. lia.
Qed.

Lemma wf_elements (b : ibitset) : wf b -> Forall is_element (pdata b).
Proof. rewrite wf_spec. tauto. Qed.

Lemma wf_ext (b b' : ibitset) :
  wf b -> wf b' -> same_shape b b' ->
  (forall q, 0 <= q -> raw_bit (pdata b') q = raw_bit (pdata b) q) -> b' = b.
Proof.
  intros Hw Hw' Hs H. apply same_shape_eq; [exact Hs|].
  apply raw_bit_ext; try (apply wf_elements; assumption); [|exact H].
  destruct Hs as (_ & _ & _ & Hl). exact Hl.
Qed.

End Extensionality.

(** * Queries over the whole storage *)

Section Queries.

Lemma all_loop_true (b : ibitset) (cnt : nat) (i : Z) :
  (forall j, i <= j < i + Z.of_nat cnt -> rd b j = Some ALL_SET) ->
  all_loop cnt i b = Some true.
Proof.
  revert i. induction cnt as [|cnt IH]; intros i H; [reflexivity|].
  simpl. rewrite (H i) by lia. simpl. apply IH. intros j Hj. apply H. lia.
Qed.

Lemma none_loop_true (b : ibitset) (cnt : nat) (i : Z) :
  (forall j, i <= j < i + Z.of_nat cnt -> rd b j = Some 0) ->
  none_loop cnt i b = Some true.
Proof.
  revert i. induction cnt as [|cnt IH]; intros i H; [reflexivity|].
  simpl. rewrite (H i) by lia. simpl. apply IH. intros j Hj. apply H. lia.
Qed.

Lemma all_after_set_all (b b1 : ibitset) :
  wf b -> set_all b = Some b1 -> all b1 = Some true.
Proof.
  intros Hw Hset. pose proof (wf_geometry b Hw) as G.
  destruct (set_all_ok b Hw) as (b1' & E & W & (S1 & S2 & S3 & S4) & I & L).
  rewrite E in Hset. inversion Hset. subst b1'. clear Hset.
  unfold all. rewrite S2, S3. rewrite to_size_small by lia.
  rewrite all_loop_true.
  - simpl.
    assert (R : rd b1 (SIZE b - 1) = Some (TOP_MASK b)).
    { apply rd_some. split; [lia|]. rewrite L by lia.
      destruct (Z.eqb_spec (Z.of_nat (Z.to_nat (SIZE b - 1))) (SIZE b - 1)); [reflexivity | lia]. }
    rewrite R. simpl. rewrite (land_all_set_top_mask b Hw), Z.eqb_refl. reflexivity.
  - intros j Hj. apply rd_some. split; [lia|]. rewrite L by lia.
    destruct (Z.eqb_spec (Z.of_nat (Z.to_nat j)) (SIZE b - 1)); [lia | reflexivity].
Qed.

End Queries.

(** * Single positions: set, reset, flip, test *)

Section PositionProperties.

(** C9.  For a well-formed bitset and a position [p < NBITS]: [set(p)]
    returns and [test(p)] is then true; [reset(p)] returns and [test(p)] is
    then false. *)
Theorem set_reset_then_test (b : ibitset) (p : Z) :
  wf b -> 0 <= p < NBITS b ->
  (exists b1, set_bit b p true = Some b1 /\ test b1 p = Some true)
  /\ (exists b0, reset_bit b p = Some b0 /\ test b0 p = Some false).
Proof.
  intros Hw Hp. split.
  - destruct (set_bit_ok b p true Hw Hp) as (b1 & E & W & (S1 & _) & R).
    exists b1. split; [exact E|].
    rewrite test_ok by (try assumption; lia).
    rewrite R by lia. rewrite Z.eqb_refl. reflexivity.
  - destruct (reset_bit_ok b p Hw Hp) as (b0 & E & W & (S1 & _) & R).
    exists b0. split; [exact E|].
    rewrite test_ok by (try assumption; lia).
    rewrite R by lia. rewrite Z.eqb_refl. reflexivity.
Qed.

Lemma set_reset_then_test_witness :
  (exists b1, set_bit (ctor 12 2 [5; 0]) 9 true = Some b1
              /\ test b1 9 = Some true)
  /\ (exists b0, reset_bit (ctor 12 2 [5; 0]) 9 = Some b0
                 /\ test b0 9 = Some false).
Proof.
  apply (set_reset_then_test (ctor 12 2 [5; 0]) 9); [reflexivity | simpl; lia].
Defined.

(** C8.  [flip(p)] with [p >= NBITS] returns normally and leaves the whole
    bitset, storage included, as it was. *)
Theorem flip_out_of_range_noop (b : ibitset) (p : Z) :
  NBITS b <= p -> flip_bit b p = Some b.
Proof.
  intros Hp. unfold flip_bit.
  destruct (Z.ltb_spec p (NBITS b)); [lia | reflexivity].
Qed.

Lemma flip_out_of_range_noop_witness :
  flip_bit (ctor 12 2 [5; 3]) 12 = Some (ctor 12 2 [5; 3]).
Proof.
  apply (flip_out_of_range_noop (ctor 12 2 [5; 3]) 12). simpl. lia.
Defined.

Lemma double_complement (v j : Z) :
  0 <= j < 8 ->
  Z.testbit (to_element (Z.lnot (to_element (Z.lnot v)))) j = Z.testbit v j.
Proof.
  intros Hj.
  rewrite to_element_low_bits, Z.lnot_spec, to_element_low_bits, Z.lnot_spec by lia.
  apply negb_involutive.
Qed.

Lemma flip_element_twice (b b1 : ibitset) (k : nat) (v : Z) :
  wf b -> invariant b -> same_shape b b1 ->
  pdata b !! k = Some v ->
  flip_element b1 k (flip_element b k v) = v.
Proof.
  intros Hw Hi (S1 & S2 & S3 & S4) Hv.
  pose proof (top_bits_range (NBITS b)) as T.
  assert (Ev : is_element v) by (apply (Forall_lookup_1 _ _ _ _ (wf_elements b Hw) Hv)).
  unfold flip_element. rewrite S2, S3.
  destruct (Z.eqb_spec (Z.of_nat k) (SIZE b - 1)) as [E | E].
  - apply element_ext; [apply to_element_is_element | exact Ev |].
    intros j Hj.
    rewrite to_element_low_bits, Z.land_spec by lia.
    rewrite to_element_low_bits, Z.lnot_spec by lia.
    rewrite to_element_low_bits, Z.land_spec by lia.
    rewrite to_element_low_bits, Z.lnot_spec by lia.
    rewrite (top_mask_bits b j Hw) by lia.
    destruct (Z.ltb_spec j (top_bits (NBITS b))).
    + rewrite !andb_true_r. apply negb_involutive.
    + rewrite !andb_false_r. symmetry.
      assert (L : last_element b = v).
      { unfold last_element. replace (Z.to_nat (SIZE b - 1)) with k by lia.
        rewrite Hv. reflexivity. }
      rewrite <- L. apply (invariant_top b Hw); [exact Hi | lia].
  - apply element_ext; [apply to_element_is_element | exact Ev |].
    intros j Hj. apply double_complement. exact Hj.
Qed.

(** C7.  Double flip is the identity.  On a well-formed bitset that
    satisfies the invariant, [flip(); flip()] returns and restores the
    storage; for a position [p < NBITS], [flip(p); flip(p)] returns and
    restores the storage. *)
Theorem double_flip_identity (b : ibitset) :
  wf b ->
  (invariant b ->
   exists b1 b2, flip_all b = Some b1 /\ flip_all b1 = Some b2
                 /\ pdata b2 = pdata b)
  /\ (forall p, 0 <= p < NBITS b ->
      exists b1 b2, flip_bit b p = Some b1 /\ flip_bit b1 p = Some b2
                    /\ pdata b2 = pdata b).
Proof.
  intros Hw. split.
  - intros Hi.
    destruct (flip_all_ok b Hw) as (b1 & E1 & W1 & S1 & I1 & L1).
    destruct (flip_all_ok b1 W1) as (b2 & E2 & W2 & S2 & I2 & L2).
    exists b1, b2. repeat (split; [assumption|]).
    apply list_eq. intros k. rewrite L2, L1.
    destruct (pdata b !! k) as [v|] eqn:Ev; simpl; [|reflexivity].
    f_equal.
    assert (F : flip_element b1 k (flip_element b k v) = v)
      by (apply flip_element_twice; assumption).
    exact F.
  - intros p Hp.
    destruct (flip_bit_ok b p Hw Hp) as (b1 & E1 & _ & W1 & S1 & R1).
    assert (Hp1 : 0 <= p < NBITS b1) by (destruct S1 as (-> & _); exact Hp).
    destruct (flip_bit_ok b1 p W1 Hp1) as (b2 & E2 & _ & W2 & S2 & R2).
    exists b1, b2. repeat (split; [assumption|]).
    f_equal. apply wf_ext; try assumption.
    + apply (same_shape_trans _ _ _ S1 S2).
    + intros q Hq. rewrite R2, R1 by lia. rewrite (R1 q Hq).
      rewrite Z.eqb_refl.
      destruct (Z.eqb_spec q p) as [-> | _]; [apply negb_involutive | reflexivity].
Qed.

Lemma double_flip_identity_witness :
  (exists b1 b2, flip_all (ctor 12 2 [165; 9]) = Some b1
                 /\ flip_all b1 = Some b2
                 /\ pdata b2 = pdata (ctor 12 2 [165; 9]))
  /\ (exists b1 b2, flip_bit (ctor 12 2 [165; 9]) 10 = Some b1
                    /\ flip_bit b1 10 = Some b2
                    /\ pdata b2 = pdata (ctor 12 2 [165; 9])).
Proof.
  destruct (double_flip_identity (ctor 12 2 [165; 9])) as [H1 H2].
  - reflexivity.
  - split; [apply H1; reflexivity | apply H2; simpl; lia].
Defined.

End PositionProperties.

(** * Construction and initialisation *)

Section Construction.

Lemma ctor_wf (nbits : Z) (data : list Z) :
  0 < nbits <= size_max ->
  Z.of_nat (length data) = (nbits + 7) / 8 ->
  Forall is_element data ->
  wf (ctor nbits ((nbits + 7) / 8) data).
Proof.
  intros Hn Hl Hd. apply wf_spec. simpl. repeat split; try assumption; lia.
Qed.

(** C5.  The constructor over [SIZE = ceil(NBITS / 8)] elements: when [NBITS]
    is an exact multiple of 8, [TOP_MASK] is all-ones and [set()] followed by
    [all()] gives true; otherwise [TOP_MASK] is the low-order mask of
    [NBITS mod 8] bits. *)
Theorem ctor_top_mask_boundary (nbits : Z) (data : list Z) :
  0 < nbits <= size_max ->
  Z.of_nat (length data) = (nbits + 7) / 8 ->
  Forall is_element data ->
  (nbits mod 8 = 0 ->
   TOP_MASK (ctor nbits ((nbits + 7) / 8) data) = ALL_SET
   /\ exists b1, set_all (ctor nbits ((nbits + 7) / 8) data) = Some b1
                 /\ all b1 = Some true)
  /\ (nbits mod 8 <> 0 ->
      TOP_MASK (ctor nbits ((nbits + 7) / 8) data) = Z.ones (nbits mod 8)).
Proof.
  intros Hn Hl Hd.
  pose proof (ctor_wf nbits data Hn Hl Hd) as Hw.
  pose proof (ctor_top_mask_value nbits data ltac:(lia)) as M.
  unfold top_bits in M. split; intros Hm.
  - split.
    + rewrite M. destruct (Z.eqb_spec (nbits mod 8) 0); [reflexivity | contradiction].
    + destruct (set_all_ok _ Hw) as (b1 & E & _).
      exists b1. split; [exact E|].
      apply (all_after_set_all _ b1 Hw E).
  - rewrite M. destruct (Z.eqb_spec (nbits mod 8) 0); [contradiction | reflexivity].
Qed.

Lemma ctor_top_mask_boundary_witness :
  (TOP_MASK (ctor 16 2 [0; 0]) = ALL_SET
   /\ exists b1, set_all (ctor 16 2 [0; 0]) = Some b1 /\ all b1 = Some true)
  /\ TOP_MASK (ctor 11 2 [0; 0]) = Z.ones 3.
Proof.
  split.
  - apply (ctor_top_mask_boundary 16 [0; 0]).
    + vm_compute. split; congruence.
    + reflexivity.
    + repeat constructor; vm_compute; congruence.
    + reflexivity.
  - apply (ctor_top_mask_boundary 11 [0; 0]).
    + vm_compute. split; congruence.
    + reflexivity.
    + repeat constructor; vm_compute; congruence.
    + vm_compute. congruence.
Defined.

Lemma mask_top_wf (b : ibitset) :
  wf b ->
  exists b1, mask_top b = Some b1 /\ wf b1 /\ same_shape b b1 /\ invariant b1.
Proof.
  intros Hw. pose proof (wf_geometry b Hw) as G.
  rewrite mask_top_ok by lia.
  match goal with |- exists b1, Some ?x = Some b1 /\ _ => set (b1 := x) end.
  assert (Hw1 : wf b1).
  { apply wf_with_pdata; [exact Hw | apply length_insert |].
    apply Forall_insert_element; [apply wf_elements, Hw | apply to_element_is_element]. }
  exists b1. split; [reflexivity|]. split; [exact Hw1|].
  split; [apply same_shape_with_pdata, length_insert|].
  apply (masked_last_invariant b1 (default 0 (pdata b !! Z.to_nat (SIZE b - 1))) Hw1).
  unfold last_element. simpl. rewrite list_lookup_insert_eq by lia. reflexivity.
Qed.

Lemma initialise_loop_wf (cnt : nat) (value i : Z) (b : ibitset) :
  wf b -> 0 <= i ->
  exists b1, initialise_loop cnt BITS_PER_ELEMENT value i b = Some b1
             /\ wf b1 /\ same_shape b b1.
Proof.
  revert value i b. induction cnt as [|cnt IH]; intros value i b Hw Hi.
  - exists b. simpl. auto using same_shape_refl.
  - simpl. pose proof (wf_geometry b Hw) as G.
    destruct (negb (value =? 0) && (i <? SIZE b)) eqn:C.
    + apply andb_true_iff in C. destruct C as [_ C]. apply Z.ltb_lt in C.
      rewrite wr_in_range by lia. simpl.
      set (b' := with_pdata b _).
      assert (Hw' : wf b').
      { apply wf_with_pdata; [exact Hw | apply length_insert |].
        apply Forall_insert_element; [apply wf_elements, Hw | apply to_element_is_element]. }
      destruct (IH (Z.shiftr value BITS_PER_ELEMENT) (i + 1) b' Hw' ltac:(lia))
        as (b1 & E & W & S).
      exists b1. repeat split; try assumption; try apply S.
      destruct S as (S1 & S2 & S3 & S4). simpl in *.
      rewrite S4. apply length_insert.
    + exists b. auto using same_shape_refl.
Qed.

(** C10.  [initialise(value)] on a well-formed bitset returns and leaves the
    invariant established, whatever the storage held before. *)
Theorem initialise_establishes_invariant (b : ibitset) (value : Z) :
  wf b ->
  exists b', initialise b value = Some b' /\ same_shape b b' /\ invariant b'.
Proof.
  intros Hw. pose proof (wf_geometry b Hw) as G.
  unfold initialise. rewrite reset_all_ok by tauto. simpl.
  set (b0 := with_pdata b _).
  assert (Hw0 : wf b0).
  { apply wf_imap; [exact Hw|]. intros _ _. unfold is_element, ALL_CLEAR. lia. }
  assert (S0 : same_shape b b0) by (apply same_shape_with_pdata, length_imap).
  change (SIZE b0) with (SIZE b).
  destruct (initialise_loop_wf (Z.to_nat (SIZE b)) value 0 b0 Hw0 ltac:(lia))
    as (b1 & E1 & W1 & S1).
  change (if ull_bits <=? BITS_PER_ELEMENT then 0 else BITS_PER_ELEMENT)
    with BITS_PER_ELEMENT.
  change (BITS_PER_ELEMENT =? 0) with false. cbv iota.
  rewrite E1. simpl.
  destruct (mask_top_wf b1 W1) as (b2 & E2 & W2 & S2 & I2).
  exists b2. split; [exact E2|]. split; [|exact I2].
  apply (same_shape_trans _ _ _ S0), (same_shape_trans _ _ _ S1), S2.
Qed.

Lemma initialise_establishes_invariant_witness :
  exists b', initialise (ctor 12 2 [255; 255]) 65535 = Some b'
             /\ same_shape (ctor 12 2 [255; 255]) b' /\ invariant b'.
Proof.
  apply (initialise_establishes_invariant (ctor 12 2 [255; 255]) 65535).
  reflexivity.
Defined.

End Construction.

(** * Counting *)

Section Counting.

Lemma count_range_app (f : Z -> bool) (lo n1 n2 : Z) :
  0 <= n1 -> 0 <= n2 ->
  count_range f lo (n1 + n2) = count_range f lo n1 + count_range f (lo + n1) n2.
Proof.
  intros H1 H2. unfold count_range.
  rewrite seqZ_app, List.filter_app, length_app by lia. lia.
Qed.

Lemma count_range_ext (f g : Z -> bool) (lo n : Z) :
  (forall p, lo <= p < lo + n -> f p = g p) ->
  count_range f lo n = count_range g lo n.
Proof.
  intros H. unfold count_range. f_equal. f_equal.
  apply List.filter_ext_in. intros p Hp.
  apply list_elem_of_In, elem_of_seqZ in Hp. apply H. lia.
Qed.

Lemma count_range_none (f : Z -> bool) (lo n : Z) :
  (forall p, lo <= p < lo + n -> f p = false) -> count_range f lo n = 0.
Proof.
  intros H. rewrite (count_range_ext f (fun _ => false)) by exact H.
  unfold count_range. rewrite List.filter_false. reflexivity.
Qed.

Lemma count_range_shift (f : Z -> bool) (m lo n : Z) :
  count_range f (m + lo) n = count_range (fun j => f (m + j)) lo n.
Proof.
  unfold count_range. rewrite <- fmap_add_seqZ.
  change (Z.add m <$> seqZ lo n) with (List.map (Z.add m) (seqZ lo n)).
  rewrite List.filter_map_swap, length_map. reflexivity.
Qed.

Lemma count_range_bounds (f : Z -> bool) (lo n : Z) :
  0 <= n -> 0 <= count_range f lo n <= n.
Proof.
  intros Hn. unfold count_range.
  pose proof (List.filter_length_le f (seqZ lo n)) as H.
  rewrite length_seqZ in H. lia.
Qed.

(** The population count of element [k] counts the set positions among the
    eight positions that the element holds. *)
Lemma count_bits_element (l : list Z) (k : nat) (v : Z) :
  l !! k = Some v ->
  count_bits v = count_range (raw_bit l) (8 * Z.of_nat k) 8.
Proof.
  intros Hv. unfold count_bits.
  replace (8 * Z.of_nat k) with (8 * Z.of_nat k + 0) by lia.
  rewrite count_range_shift. unfold count_range. f_equal. f_equal.
  apply List.filter_ext_in. intros j Hj.
  apply list_elem_of_In, elem_of_seqZ in Hj.
  symmetry. apply raw_bit_lookup; [exact Hv | lia].
Qed.

Lemma to_size_add_l (a c : Z) : to_size (to_size a + c) = to_size (a + c).
Proof. unfold to_size. apply Zplus_mod_idemp_l. Qed.

(** The loop of [count()] sums the population counts in [size_t]. *)
Lemma count_loop (b : ibitset) :
  Z.of_nat (length (pdata b)) = SIZE b ->
  count b = Some (to_size (count_range (raw_bit (pdata b)) 0 (8 * SIZE b))).
Proof.
  intros Hl. unfold count.
  destruct (for_loop_rule
              (fun j n => n = to_size (count_range (raw_bit (pdata b)) 0 (8 * j)))
              (fun i n => do v <- rd b i; Some (to_size (n + count_bits v)))
              (Z.to_nat (SIZE b)) 0 0) as (n & E & Hn).
  - reflexivity.
  - intros j t Hj Ht.
    rewrite rd_in_range by lia. simpl.
    eexists. split; [reflexivity|]. subst t.
    rewrite to_size_add_l. f_equal.
    replace (8 * (j + 1)) with (8 * j + 8) by lia.
    rewrite count_range_app by lia. f_equal.
    destruct (pdata b !! Z.to_nat j) as [v|] eqn:Ev.
    + simpl. rewrite (count_bits_element _ _ _ Ev). f_equal. lia.
    + apply lookup_ge_None in Ev. lia.
  - rewrite E, Hn. do 3 f_equal. lia.
Qed.

(** C6.  On a well-formed bitset that satisfies the invariant, [count()]
    returns the number of positions [p] in [0, NBITS) with [test(p)] true. *)
Theorem count_is_number_of_set_positions (b : ibitset) :
  wf b -> invariant b -> count b = Some (positions_set b).
Proof.
  intros Hw Hi. pose proof (wf_geometry b Hw) as G.
  rewrite count_loop by tauto. f_equal.
  replace (8 * SIZE b) with (NBITS b + (8 * SIZE b - NBITS b)) by lia.
  rewrite count_range_app by lia.
  rewrite (count_range_none _ (0 + NBITS b)).
  2:{ intros p Hp. apply (invariant_raw b Hw); [exact Hi | lia]. }
  rewrite Z.add_0_r. unfold positions_set.
  rewrite (count_range_ext (test_true b) (raw_bit (pdata b))).
  2:{ intros p Hp. unfold test_true. rewrite test_ok by (try assumption; lia).
      destruct (raw_bit (pdata b) p); reflexivity. }
  apply to_size_small.
  pose proof (count_range_bounds (raw_bit (pdata b)) 0 (NBITS b) ltac:(lia)).
  apply wf_spec in Hw. lia.
Qed.

Lemma count_is_number_of_set_positions_witness :
  count (ctor 12 2 [165; 9]) = Some (positions_set (ctor 12 2 [165; 9])).
Proof.
  apply (count_is_number_of_set_positions (ctor 12 2 [165; 9])); reflexivity.
Defined.

End Counting.

(** * Setting from a string *)

Section FromText.

Lemma raw_bit_cleared (l : list Z) (q : Z) :
  raw_bit (imap (fun _ _ => ALL_CLEAR) l) q = false.
Proof.
  unfold raw_bit. rewrite list_lookup_imap.
  destruct (l !! Z.to_nat (q / 8)); simpl; apply Z.bits_0.
Qed.

Lemma strlen_nonneg (text : string) : 0 <= strlen text.
Proof.
  induction text as [|c rest IH]; simpl; [lia|].
  destruct (Ascii.eqb c zero); lia.
Qed.

Lemma strlen_positive (text : string) :
  0 < strlen text ->
  exists c rest, text = String c rest /\ strlen rest = strlen text - 1.
Proof.
  destruct text as [|c rest]; simpl; [lia|].
  destruct (Ascii.eqb c zero); [lia|].
  intros _. exists c, rest. split; [reflexivity | lia].
Qed.

Lemma set_text_loop_ok (cnt : nat) (i : Z) (text : string) (b : ibitset) :
  wf b -> i = Z.of_nat cnt -> i <= NBITS b -> i <= strlen text ->
  exists b', set_text_loop cnt i text b = Some b' /\ wf b' /\ same_shape b b'
    /\ forall q, 0 <= q ->
         raw_bit (pdata b') q
         = if q <? i then char_is_one text (Z.to_nat (i - 1 - q))
           else raw_bit (pdata b) q.
Proof.
  revert i text b. induction cnt as [|cnt IH]; intros i text b Hw Hi Hn Hlen.
  - exists b. simpl. repeat split; try assumption; try reflexivity.
    intros q Hq. destruct (Z.ltb_spec q i); [lia | reflexivity].
  - destruct (strlen_positive text ltac:(lia)) as (c & rest & -> & Hrest).
    cbn [set_text_loop next_char].
    destruct (set_bit_ok b (i - 1) (Ascii.eqb c "1"%char) Hw ltac:(lia))
      as (b1 & E1 & W1 & S1 & R1).
    rewrite E1. cbn [ub_bind].
    destruct (IH (i - 1) rest b1 W1 ltac:(lia)) as (b' & E & W & S & R).
    { destruct S1 as (-> & _). lia. }
    { lia. }
    exists b'. split; [exact E|]. split; [exact W|].
    split; [apply (same_shape_trans _ _ _ S1 S)|].
    intros q Hq. rewrite R by exact Hq.
    destruct (Z.ltb_spec q (i - 1)), (Z.ltb_spec q i); try lia.
    + replace (Z.to_nat (i - 1 - q)) with (Datatypes.S (Z.to_nat (i - 1 - 1 - q))) by lia.
      reflexivity.
    + rewrite R1 by exact Hq. replace q with (i - 1) by lia.
      rewrite Z.eqb_refl, Z.sub_diag. reflexivity.
    + rewrite R1 by exact Hq.
      destruct (Z.eqb_spec q (i - 1)); [lia | reflexivity].
Qed.

Lemma set_text_ok (b : ibitset) (text : string) :
  wf b ->
  exists b', set_text b text = Some b' /\ wf b' /\ same_shape b b'
    /\ forall q, 0 <= q ->
         raw_bit (pdata b') q = text_bit_from_left (NBITS b) text q.
Proof.
  intros Hw. pose proof (wf_geometry b Hw) as G.
  pose proof (strlen_nonneg text) as Hlen.
  unfold set_text. rewrite reset_all_ok by tauto. cbn [ub_bind].
  set (b0 := with_pdata b _).
  assert (Hw0 : wf b0).
  { apply wf_imap; [exact Hw|]. intros _ _. unfold is_element, ALL_CLEAR. lia. }
  assert (S0 : same_shape b b0) by (apply same_shape_with_pdata, length_imap).
  change (NBITS b0) with (NBITS b).
  set (m := Z.min (NBITS b) (strlen text)).
  assert (Hm : 0 <= m /\ m <= NBITS b /\ m <= strlen text) by lia.
  destruct (set_text_loop_ok (Z.to_nat m) m text b0 Hw0) as (b' & E & W & S & R).
  { lia. }
  { simpl. lia. }
  { lia. }
  exists b'. split; [exact E|]. split; [exact W|].
  split; [apply (same_shape_trans _ _ _ S0 S)|].
  intros q Hq. rewrite R by exact Hq. unfold text_bit_from_left. fold m.
  destruct (q <? m); simpl; [reflexivity|]. apply raw_bit_cleared.
Qed.

(** C3, as the code has it.  On a well-formed bitset [set(text)] returns; it
    leaves bit [p] set exactly when [p < min(NBITS, length)] and the character
    at index [min(NBITS, length) - 1 - p] from the left end of the text is
    ['1']: the leftmost [min(NBITS, length)] characters are consumed, the last
    of them maps to bit 0, every other bit is clear.  When the text is no
    longer than [NBITS] these are the characters counted from the right end. *)
Theorem set_text_consumes_leading_characters (b : ibitset) (text : string) :
  wf b ->
  exists b', set_text b text = Some b' /\ invariant b'
    /\ (forall p, 0 <= p < NBITS b ->
          test b' p = Some (text_bit_from_left (NBITS b) text p))
    /\ (strlen text <= NBITS b ->
        forall p, 0 <= p < NBITS b ->
          test b' p = Some (text_bit_from_right (NBITS b) text p)).
Proof.
  intros Hw. destruct (set_text_ok b text Hw) as (b' & E & W & S & R).
  pose proof S as (S1 & S2 & _).
  assert (T : forall p, 0 <= p < NBITS b ->
                test b' p = Some (text_bit_from_left (NBITS b) text p)).
  { intros p Hp. rewrite test_ok by (try assumption; lia). rewrite R by lia.
    reflexivity. }
  exists b'. split; [exact E|]. split; [|split; [exact T|]].
  - apply (invariant_raw b' W). intros p Hp.
    pose proof (wf_geometry b' W) as G'. rewrite R by lia.
    unfold text_bit_from_left.
    destruct (Z.ltb_spec p (Z.min (NBITS b) (strlen text))); [lia | reflexivity].
  - intros Hlen p Hp. rewrite T by exact Hp.
    unfold text_bit_from_left, text_bit_from_right.
    rewrite Z.min_r by exact Hlen. reflexivity.
Qed.

Lemma set_text_consumes_leading_characters_witness :
  exists b', set_text (ctor 12 2 [255; 255]) "10110011100011110000" = Some b'
    /\ invariant b'
    /\ (forall p, 0 <= p < 12 ->
          test b' p
          = Some (text_bit_from_left 12 "10110011100011110000" p)).
Proof.
  destruct (set_text_consumes_leading_characters
              (ctor 12 2 [255; 255]) "10110011100011110000")
    as (b' & E & I & T & _).
  - reflexivity.
  - exists b'. split; [exact E|]. split; [exact I | exact T].
Defined.

(** C3, as the specification words it, fails on a text longer than the
    bitset: on two bits, the text "100" sets bit 1 (from its first character),
    whereas the two characters at the right end are both '0'. *)
Lemma set_text_right_end_counterexample :
  ~ (exists b', set_text (ctor 2 1 [0]) "100" = Some b'
       /\ forall p, 0 <= p < NBITS (ctor 2 1 [0]) ->
            test b' p = Some (text_bit_from_right (NBITS (ctor 2 1 [0])) "100" p)).
Proof.
  intros (b' & E & H). vm_compute in E. inversion E. subst b'.
  specialize (H 1 ltac:(simpl; lia)). vm_compute in H. discriminate.
Qed.

End FromText.

(** * Shift operators on the multi-element path *)

Section Shifts.

Ltac zbool :=
  repeat match goal with
         | |- context [?a <? ?b] => destruct (Z.ltb_spec a b)
         | |- context [?a <=? ?b] => destruct (Z.leb_spec a b)
         | |- context [?a =? ?b] => destruct (Z.eqb_spec a b)
         end;
  simpl; try reflexivity; try lia.

Lemma shr_multi_ok (b : ibitset) (shift : Z) :
  wf b -> SIZE b <> 1 -> 0 <= shift <= NBITS b ->
  exists b', shr_assign b shift = Some b' /\ wf b' /\ same_shape b b'
    /\ forall q, 0 <= q ->
         raw_bit (pdata b') q
         = if q <? NBITS b - shift then raw_bit (pdata b) (q + shift)
           else if q <? NBITS b then false else raw_bit (pdata b) q.
Proof.
  intros Hw Hs Hsh. pose proof (proj1 (wf_spec b) Hw) as (Hn & _).
  unfold shr_assign. destruct (Z.eqb_spec (SIZE b) 1); [contradiction|].
  rewrite (to_size_small (NBITS b - shift)) by lia.
  match goal with
  | |- exists b', (do s1 <- for_loop ?c 0 ?body ?s0; _) = _ /\ _ =>
      destruct (for_loop_rule (shr_copied b shift) body c 0 s0) as (s1 & E1 & P1)
  end.
  { unfold shr_copied. simpl. split; [exact Hw|].
    split; [apply same_shape_refl|]. split; [lia|]. split; [lia|].
    intros q Hq. zbool. }
  { intros j t Hj (W & S & Hsrc & Hdst & R).
    pose proof S as (S1 & _).
    rewrite Hsrc, Hdst.
    rewrite test_ok by (try assumption; lia). simpl.
    destruct (set_bit_ok (sh_bitset t) j (raw_bit (pdata (sh_bitset t)) (shift + j)) W
                         ltac:(lia)) as (b1 & E & W1 & S' & R1).
    rewrite E. simpl. eexists. split; [reflexivity|].
    unfold shr_copied. simpl.
    split; [exact W1|]. split; [apply (same_shape_trans _ _ _ S S')|].
    split; [rewrite to_size_small; lia|]. split; [rewrite to_size_small; lia|].
    intros q Hq. rewrite R1 by exact Hq. rewrite !R by lia.
    replace (j + shift) with (shift + j) by lia. zbool.
    subst q. f_equal. lia. }
  rewrite E1. simpl. rewrite Z.add_0_l, Z2Nat.id in P1 by lia.
  match goal with
  | |- exists b', (do s2 <- for_loop ?c 0 ?body ?s0; _) = _ /\ _ =>
      destruct (for_loop_rule (shr_cleared b shift) body c 0 s0) as (s2 & E2 & P2)
  end.
  { destruct P1 as (W & S & Hsrc & Hdst & R).
    unfold shr_cleared. split; [exact W|]. split; [exact S|]. split; [lia|].
    intros q Hq. rewrite R by exact Hq. zbool. }
  { intros j t Hj (W & S & Hdst & R).
    pose proof S as (S1 & _).
    rewrite Hdst.
    destruct (reset_bit_ok (sh_bitset t) (NBITS b - shift + j) W ltac:(lia))
      as (b1 & E & W1 & S' & R1).
    rewrite E. simpl. eexists. split; [reflexivity|].
    unfold shr_cleared. simpl.
    split; [exact W1|]. split; [apply (same_shape_trans _ _ _ S S')|].
    split; [rewrite to_size_small; lia|].
    intros q Hq. rewrite R1 by exact Hq. rewrite R by lia. zbool. }
  rewrite E2. simpl. rewrite Z.add_0_l, Z2Nat.id in P2 by lia.
  destruct P2 as (W & S & Hdst & R).
  exists (sh_bitset s2). split; [reflexivity|]. split; [exact W|].
  split; [exact S|].
  intros q Hq. rewrite R by exact Hq. zbool.
Qed.

Lemma shl_multi_ok (b : ibitset) (shift : Z) :
  wf b -> SIZE b <> 1 -> 0 <= shift <= NBITS b ->
  exists b', shl_assign b shift = Some b' /\ wf b' /\ same_shape b b'
    /\ forall q, 0 <= q ->
         raw_bit (pdata b') q
         = if (shift <=? q) && (q <? NBITS b) then raw_bit (pdata b) (q - shift)
           else if q <? shift then false else raw_bit (pdata b) q.
Proof.
  intros Hw Hs Hsh. pose proof (proj1 (wf_spec b) Hw) as (Hn & _).
  unfold shl_assign. destruct (Z.eqb_spec (SIZE b) 1); [contradiction|].
  rewrite (to_size_small (NBITS b - shift)) by lia.
  match goal with
  | |- exists b', (do s1 <- for_loop ?c 0 ?body ?s0; _) = _ /\ _ =>
      destruct (for_loop_rule (shl_copied b shift) body c 0 s0) as (s1 & E1 & P1)
  end.
  { unfold shl_copied. simpl. split; [exact Hw|].
    split; [apply same_shape_refl|].
    split; [f_equal; lia|]. split; [f_equal; lia|].
    intros q Hq. zbool. }
  { intros j t Hj (W & S & Hsrc & Hdst & R).
    pose proof S as (S1 & _).
    rewrite Hsrc, Hdst.
    rewrite (to_size_small (NBITS b - shift - 1 - j)) by lia.
    rewrite (to_size_small (NBITS b - 1 - j)) by lia.
    rewrite test_ok by (try assumption; lia). simpl.
    destruct (set_bit_ok (sh_bitset t) (NBITS b - 1 - j)
                (raw_bit (pdata (sh_bitset t)) (NBITS b - shift - 1 - j)) W
                ltac:(lia)) as (b1 & E & W1 & S' & R1).
    rewrite E. simpl. eexists. split; [reflexivity|].
    unfold shl_copied. simpl.
    split; [exact W1|]. split; [apply (same_shape_trans _ _ _ S S')|].
    split; [f_equal; lia|]. split; [f_equal; lia|].
    intros q Hq. rewrite R1 by exact Hq. rewrite !R by lia. zbool.
    subst q. f_equal. lia. }
  rewrite E1. simpl. rewrite Z.add_0_l, Z2Nat.id in P1 by lia.
  match goal with
  | |- exists b', (do s2 <- for_loop ?c 0 ?body ?s0; _) = _ /\ _ =>
      destruct (for_loop_rule (shl_cleared b shift) body c 0 s0) as (s2 & E2 & P2)
  end.
  { destruct P1 as (W & S & Hsrc & Hdst & R).
    unfold shl_cleared. split; [exact W|]. split; [exact S|].
    split; [rewrite Hdst; f_equal; lia|].
    intros q Hq. rewrite R by exact Hq. zbool. }
  { intros j t Hj (W & S & Hdst & R).
    pose proof S as (S1 & _).
    rewrite Hdst. rewrite (to_size_small (shift - 1 - j)) by lia.
    destruct (reset_bit_ok (sh_bitset t) (shift - 1 - j) W ltac:(lia))
      as (b1 & E & W1 & S' & R1).
    rewrite E. simpl. eexists. split; [reflexivity|].
    unfold shl_cleared. simpl.
    split; [exact W1|]. split; [apply (same_shape_trans _ _ _ S S')|].
    split; [f_equal; lia|].
    intros q Hq. rewrite R1 by exact Hq. rewrite R by lia. zbool. }
  rewrite E2. simpl. rewrite Z.add_0_l, Z2Nat.id in P2 by lia.
  destruct P2 as (W & S & Hdst & R).
  exists (sh_bitset s2). split; [reflexivity|]. split; [exact W|].
  split; [exact S|].
  intros q Hq. rewrite R by exact Hq. zbool.
Qed.

(** *** The single-element path *)

Lemma single_storage (b : ibitset) :
  wf b -> SIZE b = 1 -> exists v, pdata b = [v] /\ is_element v.
Proof.
  intros Hw Hs. pose proof (wf_geometry b Hw) as G.
  pose proof (wf_elements b Hw) as F.
  destruct (pdata b) as [|v [|w l]] eqn:E; simpl in G; try lia.
  exists v. split; [reflexivity|]. inversion F. assumption.
Qed.

Lemma raw_bit_single (v q : Z) :
  0 <= q < 8 -> raw_bit [v] q = Z.testbit v q.
Proof.
  intros Hq. unfold raw_bit.
  rewrite Z.div_small, Z.mod_small by lia. reflexivity.
Qed.

Lemma native_shift_ok (b : ibitset) (x : Z) :
  wf b -> SIZE b = 1 ->
  exists b', wr b 0 (to_element x) = Some b' /\ wf b' /\ same_shape b b'
    /\ pdata b' = [to_element x].
Proof.
  intros Hw Hs. destruct (single_storage b Hw Hs) as (v & Ev & Hv).
  exists (with_pdata b [to_element x]).
  split.
  { rewrite wr_in_range by (rewrite Ev; simpl; lia). rewrite Ev. reflexivity. }
  split.
  { apply wf_with_pdata; [exact Hw | rewrite Ev; reflexivity |].
    repeat constructor; apply to_element_is_element. }
  split; [apply same_shape_with_pdata; rewrite Ev; reflexivity | reflexivity].
Qed.

Lemma shr_single_ok (b : ibitset) (shift : Z) :
  wf b -> SIZE b = 1 -> 0 <= shift < 32 ->
  exists b', shr_assign b shift = Some b' /\ wf b' /\ same_shape b b'
    /\ forall q, 0 <= q < 8 ->
         raw_bit (pdata b') q
         = (q + shift <? 8) && raw_bit (pdata b) (q + shift).
Proof.
  intros Hw Hs Hsh. destruct (single_storage b Hw Hs) as (v & Ev & Hv).
  unfold shr_assign. destruct (Z.eqb_spec (SIZE b) 1); [|contradiction].
  rewrite rd_in_range by (rewrite Ev; simpl; lia). rewrite Ev. simpl.
  unfold shr_int, int_bits. destruct (Z.ltb_spec shift 32); [|lia]. simpl.
  destruct (native_shift_ok b (Z.shiftr v shift) Hw Hs) as (b' & E & W & S & P).
  exists b'. split; [exact E|]. split; [exact W|]. split; [exact S|].
  intros q Hq. rewrite P, raw_bit_single, to_element_low_bits by exact Hq.
  rewrite Z.shiftr_spec by lia.
  destruct (Z.ltb_spec (q + shift) 8); simpl.
  - rewrite raw_bit_single by lia. reflexivity.
  - apply is_element_high_bits; [exact Hv | lia].
Qed.

Lemma shl_single_ok (b : ibitset) (shift : Z) :
  wf b -> SIZE b = 1 -> 0 <= shift < 32 ->
  exists b', shl_assign b shift = Some b' /\ wf b' /\ same_shape b b'
    /\ forall q, 0 <= q < 8 ->
         raw_bit (pdata b') q
         = (shift <=? q) && raw_bit (pdata b) (q - shift).
Proof.
  intros Hw Hs Hsh. destruct (single_storage b Hw Hs) as (v & Ev & Hv).
  unfold shl_assign. destruct (Z.eqb_spec (SIZE b) 1); [|contradiction].
  rewrite rd_in_range by (rewrite Ev; simpl; lia). rewrite Ev. simpl.
  unfold shl_int, int_bits. destruct (Z.ltb_spec shift 32); [|lia]. simpl.
  destruct (native_shift_ok b (Z.shiftl v shift) Hw Hs) as (b' & E & W & S & P).
  exists b'. split; [exact E|]. split; [exact W|]. split; [exact S|].
  intros q Hq. rewrite P, raw_bit_single, to_element_low_bits by exact Hq.
  rewrite Z.shiftl_spec by lia.
  destruct (Z.leb_spec shift q); simpl.
  - rewrite raw_bit_single by lia. reflexivity.
  - apply Z.testbit_neg_r. lia.
Qed.

End Shifts.

(** * What the shift operators guarantee *)

Section ShiftResults.

Lemma none_ok (b : ibitset) :
  wf b ->
  (forall q, 0 <= q < 8 * SIZE b -> raw_bit (pdata b) q = false) ->
  none b = Some true.
Proof.
  intros Hw H. pose proof (wf_geometry b Hw) as G.
  unfold none. apply none_loop_true. intros j Hj.
  rewrite rd_in_range by lia. f_equal.
  destruct (pdata b !! Z.to_nat j) as [v|] eqn:Ev.
  2:{ apply lookup_ge_None in Ev. lia. }
  simpl. apply element_ext.
  - apply (Forall_lookup_1 _ _ _ _ (wf_elements b Hw) Ev).
  - unfold is_element. lia.
  - intros k Hk. rewrite Z.bits_0.
    rewrite <- (raw_bit_lookup _ _ _ _ Ev Hk). apply H. lia.
Qed.

(** X4.  [>>=] keeps the invariant and moves every bit down by [shift], as long
    as the native shift is defined (single element) or the shift does not
    exceed [NBITS] (several elements). *)
Theorem shr_assign_keeps_invariant (b : ibitset) (shift : Z) :
  wf b -> invariant b -> 0 <= shift ->
  (SIZE b = 1 -> shift < 32) -> (SIZE b <> 1 -> shift <= NBITS b) ->
  exists b', shr_assign b shift = Some b' /\ invariant b'
    /\ forall p, 0 <= p < NBITS b ->
         test b' p
         = Some ((p + shift <? NBITS b) && raw_bit (pdata b) (p + shift)).
Proof.
  intros Hw Hi Hsh H1 Hm. pose proof (wf_geometry b Hw) as G.
  pose proof (proj1 (invariant_raw b Hw) Hi) as Hraw.
  destruct (Z.eq_dec (SIZE b) 1) as [Hs | Hs].
  - destruct (shr_single_ok b shift Hw Hs ltac:(lia)) as (b' & E & W & S & R).
    pose proof S as (S1 & S2 & _).
    exists b'. split; [exact E|]. split.
    + apply (invariant_raw b' W). intros p Hp. rewrite R by lia.
      destruct (Z.ltb_spec (p + shift) 8); simpl; [|reflexivity].
      apply Hraw. lia.
    + intros p Hp. rewrite test_ok by (try assumption; lia).
      rewrite R by lia. f_equal.
      destruct (Z.ltb_spec (p + shift) 8), (Z.ltb_spec (p + shift) (NBITS b));
        simpl; try reflexivity; try lia.
      apply Hraw. lia.
  - destruct (shr_multi_ok b shift Hw Hs ltac:(lia)) as (b' & E & W & S & R).
    pose proof S as (S1 & S2 & _).
    exists b'. split; [exact E|]. split.
    + apply (invariant_raw b' W). intros p Hp. rewrite R by lia.
      destruct (Z.ltb_spec p (NBITS b - shift)); [lia|].
      destruct (Z.ltb_spec p (NBITS b)); [lia|]. apply Hraw. lia.
    + intros p Hp. rewrite test_ok by (try assumption; lia).
      rewrite R by lia. f_equal.
      destruct (Z.ltb_spec p (NBITS b - shift)), (Z.ltb_spec (p + shift) (NBITS b));
        simpl; try reflexivity; try lia.
      destruct (Z.ltb_spec p (NBITS b)); [reflexivity | lia].
Qed.

(** X5.  On several elements [<<=] keeps the invariant and moves every bit up by
    [shift], as long as the shift does not exceed [NBITS]. *)
Theorem shl_assign_multi_keeps_invariant (b : ibitset) (shift : Z) :
  wf b -> invariant b -> SIZE b <> 1 -> 0 <= shift <= NBITS b ->
  exists b', shl_assign b shift = Some b' /\ invariant b'
    /\ forall p, 0 <= p < NBITS b ->
         test b' p = Some ((shift <=? p) && raw_bit (pdata b) (p - shift)).
Proof.
  intros Hw Hi Hs Hsh. pose proof (wf_geometry b Hw) as G.
  pose proof (proj1 (invariant_raw b Hw) Hi) as Hraw.
  destruct (shl_multi_ok b shift Hw Hs Hsh) as (b' & E & W & S & R).
  pose proof S as (S1 & S2 & _).
  exists b'. split; [exact E|]. split.
  - apply (invariant_raw b' W). intros p Hp. rewrite R by lia.
    destruct (Z.leb_spec shift p), (Z.ltb_spec p (NBITS b)); simpl; try lia.
    + destruct (Z.ltb_spec p shift); [lia|]. apply Hraw. lia.
  - intros p Hp. rewrite test_ok by (try assumption; lia).
    rewrite R by lia. f_equal.
    destruct (Z.leb_spec shift p), (Z.ltb_spec p (NBITS b)); simpl; try lia.
    + reflexivity.
    + destruct (Z.ltb_spec p shift); [reflexivity | lia].
Qed.



(** X8.  On several elements a shift beyond [NBITS] makes the loop bound
    [NBITS - shift] wrap around, and the first iteration already reads outside
    of the storage. *)
Theorem shl_assign_multi_beyond_width_undefined (b : ibitset) (shift : Z) :
  wf b -> SIZE b <> 1 -> NBITS b < shift <= size_max - 7 ->
  shl_assign b shift = None.
Proof.
  intros Hw Hs Hsh. pose proof (wf_geometry b Hw) as G.
  pose proof (proj1 (wf_spec b) Hw) as (Hn & _).
  unfold size_max, size_bits in *.
  change (2 ^ 64) with 18446744073709551616 in *.
  unfold shl_assign. destruct (Z.eqb_spec (SIZE b) 1); [contradiction|].
  assert (Ec : to_size (NBITS b - shift) = 18446744073709551616 + NBITS b - shift).
  { unfold to_size, size_bits. change (2 ^ 64) with 18446744073709551616.
    Z.div_mod_to_equations; lia. }
  assert (Es : to_size (NBITS b - shift - 1)
               = 18446744073709551616 + NBITS b - shift - 1).
  { unfold to_size, size_bits. change (2 ^ 64) with 18446744073709551616.
    Z.div_mod_to_equations; lia. }
  rewrite for_loop_fails_at_once; [reflexivity | rewrite Ec; lia |].
  simpl. rewrite Es. unfold test.
  rewrite locate_multi by (try assumption; lia). simpl.
  rewrite rd_out_of_range; [reflexivity|].
  Z.div_mod_to_equations; lia.
Qed.

(** On a single element a shift by 32 or more is undefined: the element is
    promoted to [int] before it is shifted. *)
Theorem native_shift_by_int_width_undefined (b : ibitset) (shift : Z) :
  wf b -> SIZE b = 1 -> 32 <= shift ->
  shl_assign b shift = None /\ shr_assign b shift = None.
Proof.
  intros Hw Hs Hsh. pose proof (wf_geometry b Hw) as G.
  unfold shl_assign, shr_assign, shl_int, shr_int, int_bits.
  destruct (Z.eqb_spec (SIZE b) 1); [|contradiction].
  rewrite rd_in_range by lia. simpl.
  destruct (Z.ltb_spec shift 32); [lia|]. split; reflexivity.
Qed.

End ShiftResults.

(** * Scanning for a bit *)

Section Scanning.

(** [r] is what a scan from [k] for [state] has to return, read on the raw
    storage. *)
Lemma first_raw_match_extend (b : ibitset) (state : bool) (k k' r : Z) :
  k <= k' ->
  (forall q, k <= q < k' -> q < NBITS b -> raw_bit (pdata b) q = negb state) ->
  first_raw_match b state k' r -> first_raw_match b state k r.
Proof.
  intros Hk Hno [(Hr & Hm & Hb) | (Hr & Hb)]; [left | right].
  - split; [lia|]. split; [exact Hm|]. intros q Hq.
    destruct (Z.lt_ge_cases q k'); [apply Hno; lia | apply Hb; lia].
  - split; [exact Hr|]. intros q Hq.
    destruct (Z.lt_ge_cases q k'); [apply Hno; lia | apply Hb; lia].
Qed.

Lemma first_raw_match_test (b : ibitset) (state : bool) (k r : Z) :
  wf b -> 0 <= k -> first_raw_match b state k r -> first_match_at b state k r.
Proof.
  intros Hw Hk [(Hr & Hm & Hb) | (Hr & Hb)]; [left | right].
  - split; [exact Hr|]. split.
    + rewrite test_ok by (try assumption; lia). f_equal. exact Hm.
    + intros q Hq. rewrite test_ok by (try assumption; lia). f_equal.
      apply Hb. exact Hq.
  - split; [exact Hr|]. intros q Hq.
    rewrite test_ok by (try assumption; lia). f_equal. apply Hb. exact Hq.
Qed.

Lemma mask_step (bit : Z) :
  0 <= bit ->
  to_element (Z.shiftl (to_element (2 ^ bit)) 1) = to_element (2 ^ (bit + 1)).
Proof.
  intros Hb. unfold to_element, element_bits.
  rewrite Z.shiftl_mul_pow2 by lia. change (2 ^ 1) with 2.
  rewrite Z.mul_mod_idemp_l by lia.
  rewrite Z.pow_add_r by lia. reflexivity.
Qed.

Lemma scan_element_past (cnt : nat) (nbits : Z) (state : bool)
      (v mask pos bit : Z) :
  nbits <= pos -> scan_element cnt nbits state v mask pos bit = Exhausted pos.
Proof.
  intros H. destruct cnt; [reflexivity|]. simpl.
  destruct (Z.ltb_spec pos nbits); [lia|]. rewrite andb_false_r. reflexivity.
Qed.

(** The inner loop over the bits of one element [v], whose bit 0 sits at
    position [base]. *)
Lemma scan_element_spec (cnt : nat) (nbits : Z) (state : bool)
      (v base mask pos bit : Z) :
  0 <= bit <= 8 -> pos = base + bit -> 8 - bit <= Z.of_nat cnt ->
  0 <= base -> nbits <= size_max -> mask = to_element (2 ^ bit) ->
  match scan_element cnt nbits state v mask pos bit with
  | Found p =>
      pos <= p < nbits /\ p < base + 8 /\ Z.testbit v (p - base) = state
      /\ forall q, pos <= q < p -> Z.testbit v (q - base) = negb state
  | Exhausted p' =>
      (forall q, pos <= q < base + 8 -> q < nbits ->
                 Z.testbit v (q - base) = negb state)
      /\ p' = if pos <? nbits then Z.min (base + 8) nbits else pos
  end.
Proof.
  revert mask pos bit.
  induction cnt as [|cnt IH]; intros mask pos bit Hb Hp Hc Hbase Hn Hm.
  - simpl. split; [intros q Hq; lia|].
    destruct (Z.ltb_spec pos nbits); lia.
  - simpl. unfold BITS_PER_ELEMENT.
    destruct (Z.ltb_spec bit 8) as [Hb8 | Hb8]; simpl.
    2:{ split; [intros q Hq; lia|]. destruct (Z.ltb_spec pos nbits); lia. }
    destruct (Z.ltb_spec pos nbits) as [Hpn | Hpn]; simpl.
    2:{ split; [intros q Hq; lia | reflexivity]. }
    assert (Em : to_element (2 ^ bit) = 2 ^ bit).
    { apply to_element_small. unfold is_element. split.
      - apply Z.pow_nonneg. lia.
      - change 256 with (2 ^ 8). apply Z.pow_lt_mono_r; lia. }
    assert (El : (Z.land v mask =? 0) = negb (Z.testbit v bit))
      by (rewrite Hm, Em; apply land_pow2_eqb; lia).
    rewrite El, negb_involutive.
    destruct (Bool.eqb (Z.testbit v bit) state) eqn:Et.
    + apply Bool.eqb_prop in Et.
      split; [lia|]. split; [lia|]. split.
      * replace (pos - base) with bit by lia. exact Et.
      * intros q Hq. lia.
    + apply Bool.eqb_false_iff in Et.
      assert (Et' : Z.testbit v bit = negb state)
        by (destruct (Z.testbit v bit), state; simpl; congruence).
      assert (Hmax : 8 <= size_max) by (vm_compute; congruence).
      rewrite (to_size_small (pos + 1)) by lia.
      rewrite (to_size_small (bit + 1)) by lia.
      specialize (IH (to_element (Z.shiftl mask 1)) (pos + 1) (bit + 1)
                     ltac:(lia) ltac:(lia) ltac:(lia) Hbase Hn
                     ltac:(rewrite Hm; apply mask_step; lia)).
      destruct (scan_element cnt nbits state v (to_element (Z.shiftl mask 1))
                             (pos + 1) (bit + 1)) as [p | p'].
      * destruct IH as (H1 & H2 & H3 & H4).
        split; [lia|]. split; [exact H2|]. split; [exact H3|].
        intros q Hq. destruct (Z.eq_dec q pos) as [-> | Hne].
        -- replace (pos - base) with bit by lia. exact Et'.
        -- apply H4. lia.
      * destruct IH as (H1 & H2). split.
        -- intros q Hq Hqn. destruct (Z.eq_dec q pos) as [-> | Hne].
           ++ replace (pos - base) with bit by lia. exact Et'.
           ++ apply H1; lia.
        -- rewrite H2. destruct (Z.ltb_spec (pos + 1) nbits); lia.
Qed.

(** An element that the scan skips has no bit in the wanted state. *)
Lemma skipped_element_bits (state : bool) (v j : Z) :
  skippable state v = true -> 0 <= j < 8 -> Z.testbit v j = negb state.
Proof.
  unfold skippable, ALL_CLEAR, ALL_SET. intros Hs Hj.
  apply negb_true_iff, orb_false_iff in Hs. destruct Hs as [H1 H2].
  destruct state; simpl in *.
  - apply negb_false_iff, Z.eqb_eq in H1. subst v. apply Z.bits_0.
  - apply negb_false_iff, Z.eqb_eq in H2. subst v.
    change 255 with (Z.ones 8). apply Z.ones_spec_low. lia.
Qed.

Lemma element_positions (b : ibitset) (index v q : Z) :
  0 <= index -> pdata b !! Z.to_nat index = Some v ->
  8 * index <= q < 8 * index + 8 ->
  raw_bit (pdata b) q = Z.testbit v (q - 8 * index).
Proof.
  intros Hi Hv Hq.
  replace q with (8 * Z.of_nat (Z.to_nat index) + (q - 8 * index)) at 1 by lia.
  apply raw_bit_lookup; [exact Hv | lia].
Qed.

Lemma find_loop_unfold (b : ibitset) (state : bool) (cnt : nat)
      (index position bit mask : Z) :
  find_loop (Datatypes.S cnt) b state index position bit mask
  = do value <- rd b index;
    if skippable state value
    then find_loop cnt b state (index + 1)
                   (to_size (position + BITS_PER_ELEMENT)) 0 1
    else match scan_element (Z.to_nat BITS_PER_ELEMENT) (NBITS b) state
                            value mask position bit with
         | Found p => Some p
         | Exhausted p => find_loop cnt b state (index + 1) p 0 1
         end.
Proof.
  cbn [find_loop]. destruct (rd b index) as [value|]; [|reflexivity].
  cbn [ub_bind]. unfold skippable.
  destruct ((state && negb (value =? ALL_CLEAR))
            || (negb state && negb (value =? ALL_SET))); reflexivity.
Qed.

(** One round of the outer loop, started at bit [bit] of element [index]
    with the cursor on that bit: either the match is returned, or the scan
    goes on with the next element, the cursor on its first bit, and nothing
    in between matches.  [realigned] says that the cursor is on that first
    bit when the element is skipped. *)
Lemma find_loop_step (b : ibitset) (state : bool) (cnt : nat)
      (index bit mask v : Z) :
  wf b -> 0 <= index -> Z.of_nat (Datatypes.S cnt) = SIZE b - index ->
  0 <= bit < 8 -> mask = to_element (2 ^ bit) ->
  pdata b !! Z.to_nat index = Some v ->
  (skippable state v = true -> bit = 0 \/ cnt = O) ->
  (exists p, find_loop (Datatypes.S cnt) b state index (8 * index + bit) bit mask
             = Some p
             /\ first_raw_match b state (8 * index + bit) p
             /\ p <> npos)
  \/ (exists position,
        find_loop (Datatypes.S cnt) b state index (8 * index + bit) bit mask
        = find_loop cnt b state (index + 1) position 0 1
        /\ ((0 < cnt)%nat -> position = 8 * (index + 1))
        /\ forall q, 8 * index + bit <= q < 8 * (index + 1) -> q < NBITS b ->
                     raw_bit (pdata b) q = negb state).
Proof.
  intros Hw Hi Hc Hb Hm Hv Hskip. pose proof (wf_geometry b Hw) as G.
  pose proof (proj1 (wf_spec b) Hw) as (Hn & _).
  assert (Ev : is_element v) by apply (Forall_lookup_1 _ _ _ _ (wf_elements b Hw) Hv).
  assert (Hnpos : NBITS b <= npos) by (unfold npos; lia).
  assert (R : rd b index = Some v) by (apply rd_some; auto).
  rewrite find_loop_unfold, R. cbn [ub_bind].
  destruct (skippable state v) eqn:Es.
  - right. eexists. split; [reflexivity|]. split.
    + intros Hcnt. destruct (Hskip eq_refl) as [-> | ->]; [|lia].
      unfold BITS_PER_ELEMENT. rewrite to_size_small; lia.
    + intros q Hq Hqn. rewrite (element_positions b index v q) by (try assumption; lia).
      apply (skipped_element_bits state v); [exact Es | lia].
  - pose proof (scan_element_spec (Z.to_nat BITS_PER_ELEMENT) (NBITS b) state v
                  (8 * index) mask (8 * index + bit) bit
                  ltac:(lia) eq_refl ltac:(unfold BITS_PER_ELEMENT; lia)
                  ltac:(lia) ltac:(lia) Hm) as Hscan.
    destruct (scan_element (Z.to_nat BITS_PER_ELEMENT) (NBITS b) state v mask
                           (8 * index + bit) bit) as [p | p'].
    + left. destruct Hscan as (H1 & H2 & H3 & H4).
      exists p. split; [reflexivity|]. split; [|lia].
      left. split; [lia|]. split.
      * rewrite (element_positions b index v p) by (try assumption; lia). exact H3.
      * intros q Hq. rewrite (element_positions b index v q) by (try assumption; lia).
        apply H4. lia.
    + right. destruct Hscan as (H1 & H2).
      exists p'. split; [reflexivity|]. split.
      * intros Hcnt. rewrite H2.
        destruct (Z.ltb_spec (8 * index + bit) (NBITS b)); lia.
      * intros q Hq Hqn.
        rewrite (element_positions b index v q) by (try assumption; lia).
        apply H1; lia.
Qed.

(** The outer loop from the first bit of element [index]. *)
Lemma find_loop_aligned (b : ibitset) (state : bool) (cnt : nat)
      (index position : Z) :
  wf b -> 0 <= index -> Z.of_nat cnt = SIZE b - index ->
  ((0 < cnt)%nat -> position = 8 * index) ->
  exists r, find_loop cnt b state index position 0 1 = Some r
            /\ first_raw_match b state (8 * index) r.
Proof.
  intros Hw. pose proof (wf_geometry b Hw) as G.
  revert index position. induction cnt as [|cnt IH]; intros index position Hi Hc Hp.
  - exists npos. split; [reflexivity|]. right. split; [reflexivity|].
    intros q Hq. lia.
  - rewrite (Hp ltac:(lia)).
    destruct (pdata b !! Z.to_nat index) as [v|] eqn:Ev.
    2:{ apply lookup_ge_None in Ev. lia. }
    replace (8 * index) with (8 * index + 0) by lia.
    destruct (find_loop_step b state cnt index 0 1 v Hw Hi Hc ltac:(lia)
                             eq_refl Ev ltac:(auto))
      as [(p & E & M & _) | (position' & E & A & N)].
    + exists p. split; assumption.
    + rewrite E.
      destruct (IH (index + 1) position' ltac:(lia) ltac:(lia) A) as (r & Er & Mr).
      exists r. split; [exact Er|].
      apply (first_raw_match_extend b state _ (8 * (index + 1))); [lia | exact N | exact Mr].
Qed.

(** Where [find_next] enters the outer loop for a start inside the bitset. *)
Lemma find_next_start (b : ibitset) (state : bool) (k : Z) :
  wf b -> 0 <= k < NBITS b ->
  find_next b state k
  = find_loop (Z.to_nat (SIZE b - k / 8)) b state (k / 8) (8 * (k / 8) + k mod 8)
              (k mod 8) (to_element (2 ^ (k mod 8))).
Proof.
  intros Hw Hk. pose proof (wf_geometry b Hw) as G.
  assert (Hm : 0 <= k mod 8 < 8) by (apply Z.mod_pos_bound; lia).
  replace (8 * (k / 8) + k mod 8) with k by (Z.div_mod_to_equations; lia).
  unfold find_next, shl_int, int_bits, BITS_PER_ELEMENT, log2_BITS_PER_ELEMENT.
  destruct (Z.eqb_spec (SIZE b) 1) as [Hs | Hs].
  - destruct (Z.ltb_spec k 32); [|lia]. cbn [ub_bind].
    rewrite Z.shiftl_1_l, Z.div_small, Z.mod_small by lia. reflexivity.
  - change (8 - 1) with (Z.ones 3). rewrite Z.land_ones by lia.
    change (2 ^ 3) with 8.
    destruct (Z.ltb_spec (k mod 8) 32); [|lia]. cbn [ub_bind].
    rewrite Z.shiftl_1_l, Z.shiftr_div_pow2 by lia. reflexivity.
Qed.

(** A scan that starts at or after [NBITS] finds nothing. *)
Lemma find_loop_past (b : ibitset) (state : bool) (cnt : nat)
      (index position bit mask : Z) :
  NBITS b <= position -> (cnt <= 1)%nat ->
  0 <= index < Z.of_nat (length (pdata b)) ->
  find_loop cnt b state index position bit mask = Some npos.
Proof.
  intros Hp Hc Hi. destruct cnt as [|[|cnt]]; [reflexivity | | lia].
  rewrite find_loop_unfold, rd_in_range by exact Hi. cbn [ub_bind].
  destruct (skippable state _); [reflexivity|].
  rewrite scan_element_past by exact Hp. reflexivity.
Qed.

Lemma find_next_past (b : ibitset) (state : bool) (k : Z) :
  wf b -> NBITS b <= k -> (SIZE b = 1 -> k < 32) ->
  find_next b state k = Some npos.
Proof.
  intros Hw Hk H32. pose proof (wf_geometry b Hw) as G.
  unfold find_next, shl_int, int_bits, BITS_PER_ELEMENT, log2_BITS_PER_ELEMENT.
  destruct (Z.eqb_spec (SIZE b) 1) as [Hs | Hs].
  - destruct (Z.ltb_spec k 32); [|lia]. cbn [ub_bind].
    apply find_loop_past; lia.
  - change (8 - 1) with (Z.ones 3). rewrite Z.land_ones by lia.
    change (2 ^ 3) with 8.
    assert (Hm : 0 <= k mod 8 < 8) by (apply Z.mod_pos_bound; lia).
    destruct (Z.ltb_spec (k mod 8) 32); [|lia]. cbn [ub_bind].
    rewrite Z.shiftr_div_pow2 by lia. change (2 ^ 3) with 8.
    assert (Hidx : SIZE b - 1 <= k / 8) by (Z.div_mod_to_equations; lia).
    destruct (Z.eq_dec (k / 8) (SIZE b - 1)) as [E | E].
    + apply find_loop_past; lia.
    + replace (Z.to_nat (SIZE b - k / 8)) with O by lia. reflexivity.
Qed.

(** X1.  [find_next] returns the first match at or after [k] whenever the element
    that holds [k] is not skipped from the middle: [k] is the first bit of its
    element, or the element is the last one, or the element holds a bit in the
    wanted state.  On a single element the start position must be below 32,
    since the mask is computed as [1 << position]. *)
Theorem find_next_first_match (b : ibitset) (state : bool) (k : Z) :
  wf b -> 0 <= k -> (SIZE b = 1 -> k < 32) ->
  k mod 8 = 0 \/ SIZE b - 1 <= k / 8
  \/ skippable state (default 0 (pdata b !! Z.to_nat (k / 8))) = false ->
  exists r, find_next b state k = Some r /\ first_match_at b state k r.
Proof.
  intros Hw Hk H32 Hc. pose proof (wf_geometry b Hw) as G.
  destruct (Z.lt_ge_cases k (NBITS b)) as [Hlt | Hge].
  2:{ exists npos. split; [apply find_next_past; assumption|].
      right. split; [reflexivity|]. intros q Hq. lia. }
  assert (Hm : 0 <= k mod 8 < 8) by (apply Z.mod_pos_bound; lia).
  assert (Hidx : 0 <= k / 8 < SIZE b) by (Z.div_mod_to_equations; lia).
  rewrite find_next_start by (try assumption; lia).
  destruct (pdata b !! Z.to_nat (k / 8)) as [v|] eqn:Ev.
  2:{ apply lookup_ge_None in Ev. lia. }
  simpl in Hc.
  destruct (Z.to_nat (SIZE b - k / 8)) as [|cnt] eqn:Ecnt; [lia|].
  assert (Ek : 8 * (k / 8) + k mod 8 = k) by (Z.div_mod_to_equations; lia).
  destruct (find_loop_step b state cnt (k / 8) (k mod 8)
              (to_element (2 ^ (k mod 8))) v Hw ltac:(lia) ltac:(lia) Hm
              eq_refl Ev)
    as [(p & E & M & _) | (position' & E & A & N)].
  { intros Hs. destruct Hc as [H0 | [Hl | Hns]]; [left; exact H0 | right; lia |].
    congruence. }
  - exists p. split; [exact E|]. apply first_raw_match_test; [exact Hw | exact Hk |].
    rewrite <- Ek. exact M.
  - rewrite E.
    destruct (find_loop_aligned b state cnt (k / 8 + 1) position' Hw
                ltac:(lia) ltac:(lia) A) as (r & Er & Mr).
    exists r. split; [exact Er|].
    apply first_raw_match_test; [exact Hw | exact Hk |].
    apply (first_raw_match_extend b state k (8 * (k / 8 + 1))); [lia | | exact Mr].
    intros q Hq Hqn. apply N; lia.
Qed.

(** X2.  [find_first] always starts on the first bit of element 0: on a
    well-formed bitset it returns the smallest position below [NBITS] whose
    bit is in the wanted state, or [npos] when there is none. *)
Corollary find_first_first_match (b : ibitset) (state : bool) :
  wf b -> exists r, find_first b state = Some r /\ first_match_at b state 0 r.
Proof.
  intros Hw. pose proof (wf_geometry b Hw) as G.
  pose proof (proj1 (wf_spec b) Hw) as (Hn & _).
  unfold find_first. rewrite find_next_start by (try assumption; lia).
  change (0 / 8) with 0. change (0 mod 8) with 0.
  change (to_element (2 ^ 0)) with 1.
  destruct (find_loop_aligned b state (Z.to_nat (SIZE b - 0)) 0 (8 * 0 + 0) Hw
              ltac:(lia) ltac:(lia) ltac:(intros _; lia)) as (r & E & M).
  exists r. split; [exact E|].
  apply first_raw_match_test; [exact Hw | lia | exact M].
Qed.

End Scanning.

(** * Scanning and shifting at concrete inputs *)

Section Evaluations.

(** C1 at a start position inside an element that the scan skips.  Sixteen
    bits over the elements 0x00 and 0x01: bit 8 is the only set bit.  The scan
    from position 3 skips element 0 by adding 8 to the cursor, which stood at
    3, so that element 1 is scanned with the cursor at 11 instead of 8; the
    set bit 8 is reported as position 11, where no bit is set.  With the
    elements 0x00 and 0x80 the cursor reaches 16 before bit 15 is inspected and
    the scan reports [npos] although bit 15 is set. *)
Theorem find_next_after_skipped_start_element :
  wf (ctor 16 2 [0; 1]) /\ invariant (ctor 16 2 [0; 1])
  /\ find_next (ctor 16 2 [0; 1]) true 3 = Some 11
  /\ first_match_at (ctor 16 2 [0; 1]) true 3 8
  /\ ~ first_match_at (ctor 16 2 [0; 1]) true 3 11
  /\ find_next (ctor 16 2 [0; 128]) true 3 = Some npos
  /\ first_match_at (ctor 16 2 [0; 128]) true 3 15.
Proof.
  split; [reflexivity|]. split; [reflexivity|]. split; [reflexivity|].
  split; [|split; [|split; [reflexivity|]]].
  - left. split; [simpl; lia|]. split; [reflexivity|]. intros q Hq.
    assert (C : q = 3 \/ q = 4 \/ q = 5 \/ q = 6 \/ q = 7) by lia.
    destruct C as [-> | [-> | [-> | [-> | ->]]]]; reflexivity.
  - intros [(_ & H & _) | (H & _)]; vm_compute in H; discriminate.
  - left. split; [simpl; lia|]. split; [reflexivity|]. intros q Hq.
    assert (C : q = 3 \/ q = 4 \/ q = 5 \/ q = 6 \/ q = 7 \/ q = 8 \/ q = 9
                \/ q = 10 \/ q = 11 \/ q = 12 \/ q = 13 \/ q = 14) by lia.
    destruct C as [-> | [-> | [-> | [-> | [-> | [-> | [-> | [-> | [-> | [-> | [-> | ->]]]]]]]]]]];
      reflexivity.
Qed.

(** C2 on a single element.  Four bits in one element that holds 0x0F: the
    invariant holds; after [<<= 1] the element holds 0x1E, whose bit 4 lies
    beyond the four bits of the bitset. *)
Theorem shl_single_element_breaks_invariant :
  wf (ctor 4 1 [15]) /\ invariant (ctor 4 1 [15])
  /\ shl_assign (ctor 4 1 [15]) 1 = Some (ctor 4 1 [30])
  /\ ~ invariant (ctor 4 1 [30]).
Proof.
  repeat split; try reflexivity.
  unfold invariant. vm_compute. discriminate.
Qed.

(** C4 on a single element.  Four bits in one element that holds 0x0F: after
    [<<= 4], a shift by the whole width, the element holds 0xF0 and [none()]
    is false. *)
Theorem shl_single_element_by_width_not_none :
  wf (ctor 4 1 [15]) /\ invariant (ctor 4 1 [15])
  /\ shl_assign (ctor 4 1 [15]) 4 = Some (ctor 4 1 [240])
  /\ none (ctor 4 1 [240]) = Some false.
Proof. repeat split; reflexivity. Qed.

(** The two examples of the specification on eight bits: [<<= 1] turns
    00000001 into 00000010, and [<<= 8] clears the bitset. *)
Example shl_eight_bits :
  shl_assign (ctor 8 1 [1]) 1 = Some (ctor 8 1 [2])
  /\ shl_assign (ctor 8 1 [1]) 8 = Some (ctor 8 1 [0])
  /\ none (ctor 8 1 [0]) = Some true.
Proof. repeat split; reflexivity. Qed.

End Evaluations.

(** * Positions inside and outside of the storage *)

Section StoragePositions.

Lemma locate_in_storage (b : ibitset) (p : Z) :
  wf b -> 0 <= p < 8 * SIZE b ->
  locate b p = Some (p / 8, 2 ^ (p mod 8))
  /\ 0 <= p / 8 < Z.of_nat (length (pdata b)).
Proof.
  intros Hw Hp. pose proof (wf_geometry b Hw) as G. split.
  - destruct (Z.eq_dec (SIZE b) 1) as [E | E].
    + apply locate_single; [exact E | lia].
    + apply locate_multi; [exact E | lia].
  - Z.div_mod_to_equations; lia.
Qed.

Lemma test_in_storage (b : ibitset) (p : Z) :
  wf b -> 0 <= p < 8 * SIZE b -> test b p = Some (raw_bit (pdata b) p).
Proof.
  intros Hw Hp. destruct (locate_in_storage b p Hw Hp) as [E R].
  unfold test. rewrite E. simpl. rewrite rd_in_range by exact R. simpl.
  rewrite land_pow2_eqb by (Z.div_mod_to_equations; lia).
  rewrite negb_involutive. reflexivity.
Qed.

Lemma set_bit_in_storage (b : ibitset) (p : Z) (val : bool) :
  wf b -> 0 <= p < 8 * SIZE b ->
  exists b', set_bit b p val = Some b' /\ wf b' /\ same_shape b b'
    /\ forall q, 0 <= q ->
         raw_bit (pdata b') q = if q =? p then val else raw_bit (pdata b) q.
Proof.
  intros Hw Hp. destruct (locate_in_storage b p Hw Hp) as [E R].
  assert (Hk : 0 <= p mod 8 < 8) by (apply Z.mod_pos_bound; lia).
  unfold set_bit. rewrite E. simpl. rewrite rd_in_range by exact R. simpl.
  set (v := default 0 (pdata b !! Z.to_nat (p / 8))).
  set (x := if val then Z.lor v (2 ^ (p mod 8))
            else Z.land v (Z.lnot (2 ^ (p mod 8)))).
  assert (Hx : forall j, 0 <= j < 8 ->
                 Z.testbit x j = if j =? p mod 8 then val else Z.testbit v j).
  { intros j Hj. unfold x. rewrite (Z.eqb_sym j (p mod 8)). destruct val.
    - rewrite Z.lor_spec, Z.pow2_bits_eqb by lia.
      destruct (p mod 8 =? j); [apply orb_true_r | apply orb_false_r].
    - rewrite Z.land_spec, Z.lnot_spec, Z.pow2_bits_eqb by lia.
      destruct (p mod 8 =? j); [apply andb_false_r | apply andb_true_r]. }
  exists (with_pdata b (<[Z.to_nat (p / 8) := to_element x]> (pdata b))).
  split.
  { unfold x. destruct val; apply wr_in_range; exact R. }
  split.
  { apply wf_with_pdata; [exact Hw | apply length_insert |].
    apply Forall_insert_element; [apply wf_elements, Hw | apply to_element_is_element]. }
  split; [apply same_shape_with_pdata, length_insert|].
  intros q Hq. simpl. rewrite raw_bit_insert by lia.
  assert (Hm : 0 <= q mod 8 < 8) by (apply Z.mod_pos_bound; lia).
  destruct (Z.eqb_spec (q / 8) (p / 8)) as [Eq | Eq].
  - rewrite Hx by exact Hm.
    destruct (Z.eqb_spec (q mod 8) (p mod 8)) as [E' | E'].
    + rewrite (position_split q p Eq E'), Z.eqb_refl. reflexivity.
    + destruct (Z.eqb_spec q p) as [-> | _]; [contradiction|].
      unfold raw_bit, v. rewrite Eq. reflexivity.
  - destruct (Z.eqb_spec q p) as [-> | _]; [contradiction | reflexivity].
Qed.

(** X10.  [set(position, value)] writes the one bit it is asked to write and keeps
    the invariant: for [position < NBITS] it returns, [test(position)] is then
    [value], every other position tests as before, and the bits of the last
    element beyond [NBITS] stay zero. *)
Theorem set_bit_changes_one_position (b : ibitset) (p : Z) (v : bool) :
  wf b -> 0 <= p < NBITS b ->
  exists b', set_bit b p v = Some b'
    /\ test b' p = Some v
    /\ (forall q, 0 <= q < NBITS b -> q <> p -> test b' q = test b q)
    /\ (invariant b -> invariant b').
Proof.
  intros Hw Hp. destruct (set_bit_ok b p v Hw Hp) as (b' & E & W & S & R).
  pose proof S as (S1 & S2 & _).
  exists b'. split; [exact E|]. split; [|split].
  - rewrite test_ok by (try assumption; lia). rewrite R by lia.
    rewrite Z.eqb_refl. reflexivity.
  - intros q Hq Hne. rewrite !test_ok by (try assumption; lia).
    rewrite R by lia. destruct (Z.eqb_spec q p); [contradiction | reflexivity].
  - intros Hi. apply (invariant_raw b' W). intros q Hq.
    pose proof (wf_geometry b Hw) as G.
    rewrite R by lia. destruct (Z.eqb_spec q p); [lia|].
    apply (invariant_raw b Hw); [exact Hi | lia].
Qed.

Lemma set_bit_changes_one_position_witness :
  exists b', set_bit (ctor 12 2 [165; 9]) 4 true = Some b'
    /\ test b' 4 = Some true
    /\ (forall q, 0 <= q < 12 -> q <> 4 ->
          test b' q = test (ctor 12 2 [165; 9]) q)
    /\ (invariant (ctor 12 2 [165; 9]) -> invariant b').
Proof.
  apply (set_bit_changes_one_position (ctor 12 2 [165; 9]) 4 true);
    [reflexivity | simpl; lia].
Defined.

(** X11.  [flip(position)] for [position < NBITS] toggles that bit and nothing
    else, and keeps the invariant. *)
Theorem flip_bit_toggles_one_position (b : ibitset) (p : Z) :
  wf b -> 0 <= p < NBITS b ->
  exists t b', test b p = Some t /\ flip_bit b p = Some b'
    /\ test b' p = Some (negb t)
    /\ (forall q, 0 <= q < NBITS b -> q <> p -> test b' q = test b q)
    /\ (invariant b -> invariant b').
Proof.
  intros Hw Hp. destruct (flip_bit_ok b p Hw Hp) as (b' & E & _ & W & S & R).
  pose proof S as (S1 & S2 & _).
  exists (raw_bit (pdata b) p), b'.
  split; [apply test_ok; assumption|]. split; [exact E|]. split; [|split].
  - rewrite test_ok by (try assumption; lia). rewrite R by lia.
    rewrite Z.eqb_refl. reflexivity.
  - intros q Hq Hne. rewrite !test_ok by (try assumption; lia).
    rewrite R by lia. destruct (Z.eqb_spec q p); [contradiction | reflexivity].
  - intros Hi. apply (invariant_raw b' W). intros q Hq.
    pose proof (wf_geometry b Hw) as G.
    rewrite R by lia. destruct (Z.eqb_spec q p); [lia|].
    apply (invariant_raw b Hw); [exact Hi | lia].
Qed.

Lemma flip_bit_toggles_one_position_witness :
  exists t b', test (ctor 12 2 [165; 9]) 11 = Some t
    /\ flip_bit (ctor 12 2 [165; 9]) 11 = Some b'
    /\ test b' 11 = Some (negb t)
    /\ (forall q, 0 <= q < 12 -> q <> 11 ->
          test b' q = test (ctor 12 2 [165; 9]) q)
    /\ (invariant (ctor 12 2 [165; 9]) -> invariant b').
Proof.
  apply (flip_bit_toggles_one_position (ctor 12 2 [165; 9]) 11);
    [reflexivity | simpl; lia].
Defined.

(** X12.  The doc comment of [test]: under the invariant a position at or beyond
    [NBITS] tests false, as long as the access is defined (inside the storage
    on several elements, a shift below 32 on a single element). *)
Theorem test_beyond_nbits_is_false (b : ibitset) (p : Z) :
  wf b -> invariant b -> NBITS b <= p ->
  (SIZE b = 1 -> p < 32) -> (SIZE b <> 1 -> p < 8 * SIZE b) ->
  test b p = Some false.
Proof.
  intros Hw Hi Hp H1 Hm. pose proof (wf_geometry b Hw) as G.
  destruct (Z.lt_ge_cases p (8 * SIZE b)) as [Hin | Hout].
  - rewrite test_in_storage by (try assumption; lia). f_equal.
    apply (invariant_raw b Hw); [exact Hi | lia].
  - assert (Hs : SIZE b = 1) by (destruct (Z.eq_dec (SIZE b) 1); [assumption | lia]).
    unfold test, locate, shl_int, int_bits.
    destruct (Z.eqb_spec (SIZE b) 1); [|contradiction].
    destruct (Z.ltb_spec p 32); [|lia]. cbn [ub_bind fst snd].
    rewrite rd_in_range by lia. cbn [ub_bind].
    assert (E0 : to_element (Z.shiftl 1 p) = 0).
    { unfold to_element, element_bits. rewrite Z.shiftl_1_l.
      replace p with (8 + (p - 8)) by lia. rewrite Z.pow_add_r by lia.
      rewrite Z.mul_comm. apply Z.mod_mul. lia. }
    rewrite E0, Z.land_0_r. reflexivity.
Qed.

Lemma test_beyond_nbits_is_false_witness :
  test (ctor 12 2 [165; 9]) 14 = Some false
  /\ test (ctor 4 1 [9]) 20 = Some false.
Proof.
  split.
  - apply (test_beyond_nbits_is_false (ctor 12 2 [165; 9]) 14);
      try reflexivity; simpl; intros; lia.
  - apply (test_beyond_nbits_is_false (ctor 4 1 [9]) 20);
      try reflexivity; simpl; intros; lia.
Defined.

(** X13.  On several elements [test], [set] and [reset] at a position beyond the
    storage access an element outside of the array. *)
Theorem position_beyond_storage_undefined (b : ibitset) (p : Z) (v : bool) :
  wf b -> SIZE b <> 1 -> 8 * SIZE b <= p ->
  test b p = None /\ set_bit b p v = None /\ reset_bit b p = None.
Proof.
  intros Hw Hs Hp. pose proof (wf_geometry b Hw) as G.
  assert (R : rd b (p / 8) = None).
  { apply rd_out_of_range. Z.div_mod_to_equations; lia. }
  unfold test, set_bit, reset_bit.
  rewrite locate_multi by (try assumption; lia). cbn [ub_bind fst snd].
  rewrite R. repeat split; reflexivity.
Qed.

Lemma position_beyond_storage_undefined_witness :
  test (ctor 12 2 [165; 9]) 16 = None
  /\ set_bit (ctor 12 2 [165; 9]) 16 true = None
  /\ reset_bit (ctor 12 2 [165; 9]) 16 = None.
Proof.
  apply (position_beyond_storage_undefined (ctor 12 2 [165; 9]) 16 true);
    [reflexivity | simpl; lia | simpl; lia].
Defined.

(** X14.  [set(position)] does not check [position] against [NBITS]: a position
    between [NBITS] and the end of the storage sets a bit of the last element
    beyond [NBITS], and the invariant is lost. *)
Theorem set_bit_beyond_nbits_breaks_invariant (b : ibitset) (p : Z) :
  wf b -> NBITS b <= p < 8 * SIZE b ->
  exists b', set_bit b p true = Some b' /\ ~ invariant b'.
Proof.
  intros Hw Hp. pose proof (wf_geometry b Hw) as G.
  destruct (set_bit_in_storage b p true Hw ltac:(lia)) as (b' & E & W & S & R).
  pose proof S as (S1 & S2 & _).
  exists b'. split; [exact E|]. intros Hi.
  pose proof (proj1 (invariant_raw b' W) Hi p ltac:(lia)) as Hf.
  rewrite R, Z.eqb_refl in Hf by lia. discriminate.
Qed.

Lemma set_bit_beyond_nbits_breaks_invariant_witness :
  exists b', set_bit (ctor 12 2 [165; 9]) 13 true = Some b' /\ ~ invariant b'.
Proof.
  apply (set_bit_beyond_nbits_breaks_invariant (ctor 12 2 [165; 9]) 13);
    [reflexivity | simpl; lia].
Defined.

End StoragePositions.

(** * Whole-array queries and mutators *)

Section WholeArrayResults.

Lemma all_loop_spec (b : ibitset) (cnt : nat) (i : Z) :
  0 <= i -> i + Z.of_nat cnt <= Z.of_nat (length (pdata b)) ->
  exists r, all_loop cnt i b = Some r
    /\ (r = true <->
        forall j, i <= j < i + Z.of_nat cnt -> rd b j = Some ALL_SET).
Proof.
  revert i. induction cnt as [|cnt IH]; intros i Hi Hn.
  - exists true. split; [reflexivity|]. split; [intros _ j Hj; lia | reflexivity].
  - cbn [all_loop]. rewrite rd_in_range by lia. cbn [ub_bind].
    set (v := default 0 (pdata b !! Z.to_nat i)).
    assert (Rv : rd b i = Some v) by (apply rd_in_range; lia).
    destruct (Z.eqb_spec v ALL_SET) as [E | E]; cbn [negb].
    + destruct (IH (i + 1) ltac:(lia) ltac:(lia)) as (r & Er & Hr).
      exists r. split; [exact Er|]. rewrite Hr. split.
      * intros H j Hj. destruct (Z.eq_dec j i) as [-> | Hne].
        -- rewrite Rv, E. reflexivity.
        -- apply H. lia.
      * intros H j Hj. apply H. lia.
    + exists false. split; [reflexivity|]. split; [discriminate|].
      intros H. specialize (H i ltac:(lia)). rewrite Rv in H. congruence.
Qed.

Lemma none_loop_spec (b : ibitset) (cnt : nat) (i : Z) :
  0 <= i -> i + Z.of_nat cnt <= Z.of_nat (length (pdata b)) ->
  exists r, none_loop cnt i b = Some r
    /\ (r = true <-> forall j, i <= j < i + Z.of_nat cnt -> rd b j = Some 0).
Proof.
  revert i. induction cnt as [|cnt IH]; intros i Hi Hn.
  - exists true. split; [reflexivity|]. split; [intros _ j Hj; lia | reflexivity].
  - cbn [none_loop]. rewrite rd_in_range by lia. cbn [ub_bind].
    set (v := default 0 (pdata b !! Z.to_nat i)).
    assert (Rv : rd b i = Some v) by (apply rd_in_range; lia).
    destruct (Z.eqb_spec v 0) as [E | E]; cbn [negb].
    + destruct (IH (i + 1) ltac:(lia) ltac:(lia)) as (r & Er & Hr).
      exists r. split; [exact Er|]. rewrite Hr. split.
      * intros H j Hj. destruct (Z.eq_dec j i) as [-> | Hne].
        -- rewrite Rv, E. reflexivity.
        -- apply H. lia.
      * intros H j Hj. apply H. lia.
    + exists false. split; [reflexivity|]. split; [discriminate|].
      intros H. specialize (H i ltac:(lia)). rewrite Rv in H. congruence.
Qed.

(** An element read at index [j] and the eight positions it holds. *)
Lemma rd_raw_bits (b : ibitset) (j c : Z) :
  wf b -> 0 <= j < SIZE b -> is_element c ->
  (rd b j = Some c <->
   forall k, 0 <= k < 8 -> raw_bit (pdata b) (8 * j + k) = Z.testbit c k).
Proof.
  intros Hw Hj Hc. pose proof (wf_geometry b Hw) as G.
  rewrite rd_in_range by lia.
  destruct (pdata b !! Z.to_nat j) as [v|] eqn:Ev.
  2:{ apply lookup_ge_None in Ev. lia. }
  cbn [default]. 
  assert (Hv : is_element v) by apply (Forall_lookup_1 _ _ _ _ (wf_elements b Hw) Ev).
  assert (Hraw : forall k, 0 <= k < 8 ->
                   raw_bit (pdata b) (8 * j + k) = Z.testbit v k).
  { intros k Hk. replace (8 * j) with (8 * Z.of_nat (Z.to_nat j)) by lia.
    apply raw_bit_lookup; assumption. }
  split.
  - intros E k Hk. inversion E. subst c. apply Hraw. exact Hk.
  - intros H. f_equal. apply element_ext; try assumption.
    intros k Hk. rewrite <- Hraw by exact Hk. apply H. exact Hk.
Qed.

Lemma position_of_raw (P : Z -> Prop) (n : Z) :
  0 <= n ->
  ((forall j, 0 <= j < n -> forall k, 0 <= k < 8 -> P (8 * j + k))
   <-> (forall q, 0 <= q < 8 * n -> P q)).
Proof.
  intros Hn. split.
  - intros H q Hq.
    replace q with (8 * (q / 8) + q mod 8) by (Z.div_mod_to_equations; lia).
    apply H; Z.div_mod_to_equations; lia.
  - intros H j Hj k Hk. apply H. lia.
Qed.

(** X21.  [none()] is true exactly when the invariant holds and every position
    tests false; [any()] is its negation. *)
Theorem none_iff_every_position_clear (b : ibitset) :
  wf b ->
  exists r, none b = Some r /\ any b = Some (negb r)
    /\ (r = true <->
        invariant b /\ forall p, 0 <= p < NBITS b -> test b p = Some false).
Proof.
  intros Hw. pose proof (wf_geometry b Hw) as G.
  destruct (none_loop_spec b (Z.to_nat (SIZE b)) 0 ltac:(lia) ltac:(lia))
    as (r & Er & Hr).
  exists r. split; [exact Er|]. split.
  { unfold any, none in *. rewrite Er. reflexivity. }
  rewrite Hr.
  assert (Hz : (forall j, 0 <= j < 0 + Z.of_nat (Z.to_nat (SIZE b)) -> rd b j = Some 0)
               <-> (forall q, 0 <= q < 8 * SIZE b -> raw_bit (pdata b) q = false)).
  { rewrite <- (position_of_raw (fun q => raw_bit (pdata b) q = false)) by lia.
    split.
    - intros H j Hj k Hk.
      rewrite (proj1 (rd_raw_bits b j 0 Hw Hj ltac:(unfold is_element; lia))
                     (H j ltac:(lia)) k Hk).
      apply Z.bits_0.
    - intros H j Hj. apply (rd_raw_bits b j 0 Hw ltac:(lia)).
      + unfold is_element. lia.
      + intros k Hk. rewrite Z.bits_0. apply H; lia. }
  rewrite Hz. rewrite (invariant_raw b Hw). split.
  - intros H. split.
    + intros p Hp. apply H. lia.
    + intros p Hp. rewrite test_ok by assumption. f_equal. apply H. lia.
  - intros [Hi Ht] q Hq. destruct (Z.lt_ge_cases q (NBITS b)).
    + specialize (Ht q ltac:(lia)). rewrite test_ok in Ht by (try assumption; lia).
      congruence.
    + apply Hi. lia.
Qed.

Lemma none_iff_every_position_clear_witness :
  exists r, none (ctor 12 2 [0; 16]) = Some r
    /\ any (ctor 12 2 [0; 16]) = Some (negb r)
    /\ (r = true <->
        invariant (ctor 12 2 [0; 16])
        /\ forall p, 0 <= p < NBITS (ctor 12 2 [0; 16]) ->
                     test (ctor 12 2 [0; 16]) p = Some false).
Proof.
  apply (none_iff_every_position_clear (ctor 12 2 [0; 16])). reflexivity.
Defined.

(** X20.  [all()] is true exactly when the invariant holds and every position
    tests true. *)
Theorem all_iff_every_position_set (b : ibitset) :
  wf b ->
  exists r, all b = Some r
    /\ (r = true <->
        invariant b /\ forall p, 0 <= p < NBITS b -> test b p = Some true).
Proof.
  intros Hw. pose proof (wf_geometry b Hw) as G.
  pose proof (top_bits_range (NBITS b)) as T.
  unfold all. rewrite (wf_last_index b Hw).
  destruct (all_loop_spec b (Z.to_nat (SIZE b - 1)) 0 ltac:(lia) ltac:(lia))
    as (r & Er & Hr).
  rewrite Er. cbn [ub_bind].
  assert (Hfull : (forall j, 0 <= j < 0 + Z.of_nat (Z.to_nat (SIZE b - 1)) ->
                             rd b j = Some ALL_SET)
                  <-> (forall q, 0 <= q < 8 * (SIZE b - 1) ->
                                 raw_bit (pdata b) q = true)).
  { rewrite <- (position_of_raw (fun q => raw_bit (pdata b) q = true)) by lia.
    split.
    - intros H j Hj k Hk.
      rewrite (proj1 (rd_raw_bits b j ALL_SET Hw ltac:(lia)
                        ltac:(unfold is_element, ALL_SET; lia))
                     (H j ltac:(lia)) k Hk).
      change ALL_SET with (Z.ones 8). apply Z.ones_spec_low. lia.
    - intros H j Hj. apply (rd_raw_bits b j ALL_SET Hw ltac:(lia)).
      + unfold is_element, ALL_SET. lia.
      + intros k Hk. rewrite H by lia.
        change ALL_SET with (Z.ones 8). symmetry. apply Z.ones_spec_low. lia. }
  assert (Hlast : rd b (SIZE b - 1) = Some (TOP_MASK b)
                  <-> (forall k, 0 <= k < 8 ->
                         raw_bit (pdata b) (8 * (SIZE b - 1) + k)
                         = (k <? top_bits (NBITS b)))).
  { rewrite (rd_raw_bits b (SIZE b - 1) (TOP_MASK b) Hw ltac:(lia)
                         (top_mask_is_element b Hw)).
    split; intros H k Hk; rewrite H by exact Hk;
      [|symmetry]; apply (top_mask_bits b k Hw); lia. }
  destruct r.
  - rewrite rd_in_range by lia. cbn [ub_bind].
    set (v := default 0 (pdata b !! Z.to_nat (SIZE b - 1))).
    assert (Rv : rd b (SIZE b - 1) = Some v) by (apply rd_in_range; lia).
    rewrite (land_all_set_top_mask b Hw).
    pose proof (proj1 Hfull (proj1 Hr eq_refl)) as Hlow.
    destruct (Z.eqb_spec v (TOP_MASK b)) as [E | E]; cbn [negb].
    + exists true. split; [reflexivity|]. split; [intros _|reflexivity].
      rewrite E in Rv. pose proof (proj1 Hlast Rv) as Htop.
      assert (Hraw : forall q, 0 <= q < 8 * SIZE b ->
                       raw_bit (pdata b) q = (q <? NBITS b)).
      { intros q Hq. destruct (Z.lt_ge_cases q (8 * (SIZE b - 1))).
        - rewrite Hlow by lia. symmetry. apply Z.ltb_lt. lia.
        - replace q with (8 * (SIZE b - 1) + (q - 8 * (SIZE b - 1))) at 1 by lia.
          rewrite Htop by lia.
          destruct (Z.ltb_spec (q - 8 * (SIZE b - 1)) (top_bits (NBITS b))),
                   (Z.ltb_spec q (NBITS b)); try reflexivity; lia. }
      split.
      * apply (invariant_raw b Hw). intros p Hp. rewrite Hraw by lia.
        apply Z.ltb_ge. lia.
      * intros p Hp. rewrite test_ok by assumption. rewrite Hraw by lia.
        f_equal. apply Z.ltb_lt. lia.
    + exists false. split; [reflexivity|]. split; [discriminate|].
      intros [Hi Ht]. exfalso. apply E.
      assert (Rt : rd b (SIZE b - 1) = Some (TOP_MASK b)).
      { apply Hlast. intros k Hk.
        destruct (Z.ltb_spec k (top_bits (NBITS b))).
        - specialize (Ht (8 * (SIZE b - 1) + k) ltac:(lia)).
          rewrite test_ok in Ht by (try assumption; lia). congruence.
        - apply (invariant_raw b Hw); [exact Hi | lia]. }
      congruence.
  - exists false. split; [reflexivity|]. split; [discriminate|].
    intros [Hi Ht]. apply Hr, Hfull. intros q Hq.
    specialize (Ht q ltac:(lia)). rewrite test_ok in Ht by (try assumption; lia).
    congruence.
Qed.

Lemma all_iff_every_position_set_witness :
  exists r, all (ctor 12 2 [255; 15]) = Some r
    /\ (r = true <->
        invariant (ctor 12 2 [255; 15])
        /\ forall p, 0 <= p < NBITS (ctor 12 2 [255; 15]) ->
                     test (ctor 12 2 [255; 15]) p = Some true).
Proof.
  apply (all_iff_every_position_set (ctor 12 2 [255; 15])). reflexivity.
Defined.

End WholeArrayResults.

(** * set(), reset(), flip(), invert() and count() *)

Section FillAndFlip.

Lemma count_range_all (f : Z -> bool) (lo n : Z) :
  0 <= n -> (forall p, lo <= p < lo + n -> f p = true) ->
  count_range f lo n = n.
Proof.
  intros Hn H. rewrite (count_range_ext f (fun _ => true)) by exact H.
  unfold count_range. rewrite List.filter_true, length_seqZ. lia.
Qed.

Lemma count_range_complement (f : Z -> bool) (lo n : Z) :
  0 <= n ->
  count_range (fun p => negb (f p)) lo n = n - count_range f lo n.
Proof.
  intros Hn. unfold count_range.
  pose proof (List.filter_length f (seqZ lo n)) as H.
  rewrite length_seqZ in H. lia.
Qed.

(** [count()] on the raw storage, under the invariant. *)
Lemma count_positions (b : ibitset) :
  wf b -> invariant b ->
  count b = Some (count_range (raw_bit (pdata b)) 0 (NBITS b)).
Proof.
  intros Hw Hi. pose proof (wf_geometry b Hw) as G.
  rewrite count_loop by tauto. f_equal.
  replace (8 * SIZE b) with (NBITS b + (8 * SIZE b - NBITS b)) by lia.
  rewrite count_range_app by lia.
  rewrite (count_range_none _ (0 + NBITS b)).
  2:{ intros p Hp. apply (invariant_raw b Hw); [exact Hi | lia]. }
  rewrite Z.add_0_r. apply to_size_small.
  pose proof (count_range_bounds (raw_bit (pdata b)) 0 (NBITS b) ltac:(lia)).
  apply wf_spec in Hw. lia.
Qed.

Lemma raw_bit_of_lookup (l : list Z) (q v : Z) :
  0 <= q -> l !! Z.to_nat (q / 8) = Some v ->
  raw_bit l q = Z.testbit v (q mod 8).
Proof. intros Hq Hv. unfold raw_bit. rewrite Hv. reflexivity. Qed.

Lemma set_all_raw (b : ibitset) :
  wf b ->
  exists b1, set_all b = Some b1 /\ wf b1 /\ same_shape b b1 /\ invariant b1
    /\ forall q, 0 <= q < NBITS b -> raw_bit (pdata b1) q = true.
Proof.
  intros Hw. pose proof (wf_geometry b Hw) as G.
  pose proof (top_bits_range (NBITS b)) as T.
  destruct (set_all_ok b Hw) as (b1 & E & W & S & I & L).
  exists b1. repeat (split; [assumption|]).
  intros q Hq.
  assert (Hk : 0 <= q / 8 < SIZE b) by (Z.div_mod_to_equations; lia).
  assert (Hj : 0 <= q mod 8 < 8) by (apply Z.mod_pos_bound; lia).
  rewrite (raw_bit_of_lookup _ q _ ltac:(lia) (L (Z.to_nat (q / 8)) ltac:(lia))).
  destruct (Z.eqb_spec (Z.of_nat (Z.to_nat (q / 8))) (SIZE b - 1)) as [El | El].
  - rewrite (top_mask_bits b _ Hw) by lia. apply Z.ltb_lt.
    Z.div_mod_to_equations; lia.
  - change ALL_SET with (Z.ones 8). apply Z.ones_spec_low. lia.
Qed.

(** X15.  [set()] returns with the invariant established, every position testing
    true, [all()] true and [count()] equal to [NBITS]. *)
Theorem set_all_sets_every_position (b : ibitset) :
  wf b ->
  exists b1, set_all b = Some b1 /\ invariant b1
    /\ (forall p, 0 <= p < NBITS b -> test b1 p = Some true)
    /\ all b1 = Some true
    /\ count b1 = Some (NBITS b).
Proof.
  intros Hw. destruct (set_all_raw b Hw) as (b1 & E & W & S & I & R).
  pose proof S as (S1 & _).
  exists b1. split; [exact E|]. split; [exact I|]. split; [|split].
  - intros p Hp. rewrite test_ok by (try assumption; lia). f_equal. apply R, Hp.
  - apply (all_after_set_all b b1 Hw E).
  - rewrite (count_positions b1 W I), S1. f_equal.
    apply count_range_all; [apply wf_spec in Hw; lia|].
    intros p Hp. apply R. lia.
Qed.

Lemma set_all_sets_every_position_witness :
  exists b1, set_all (ctor 12 2 [165; 249]) = Some b1 /\ invariant b1
    /\ (forall p, 0 <= p < NBITS (ctor 12 2 [165; 249]) ->
          test b1 p = Some true)
    /\ all b1 = Some true
    /\ count b1 = Some (NBITS (ctor 12 2 [165; 249])).
Proof.
  apply (set_all_sets_every_position (ctor 12 2 [165; 249])). reflexivity.
Defined.

(** X16.  [reset()] returns with every element zero: the invariant holds, every
    position tests false, [none()] is true, [any()] false and [count()] 0. *)
Theorem reset_all_clears_every_position (b : ibitset) :
  wf b ->
  exists b0, reset_all b = Some b0 /\ invariant b0
    /\ (forall p, 0 <= p < NBITS b -> test b0 p = Some false)
    /\ none b0 = Some true /\ any b0 = Some false
    /\ count b0 = Some 0.
Proof.
  intros Hw. pose proof (wf_geometry b Hw) as G.
  rewrite reset_all_ok by tauto.
  set (b0 := with_pdata b _).
  assert (W : wf b0).
  { apply wf_imap; [exact Hw|]. intros _ _. unfold is_element, ALL_CLEAR. lia. }
  assert (R : forall q, raw_bit (pdata b0) q = false)
    by (intros q; apply raw_bit_cleared).
  assert (I : invariant b0) by (apply (invariant_raw b0 W); intros p _; apply R).
  assert (N : none b0 = Some true) by (apply (none_ok b0 W); intros q _; apply R).
  exists b0. split; [reflexivity|]. split; [exact I|]. split; [|split; [exact N|split]].
  - intros p Hp. rewrite test_ok by (try assumption; exact Hp). f_equal. apply R.
  - unfold any. rewrite N. reflexivity.
  - rewrite (count_positions b0 W I). f_equal.
    apply count_range_none. intros p _. apply R.
Qed.

Lemma reset_all_clears_every_position_witness :
  exists b0, reset_all (ctor 12 2 [165; 249]) = Some b0 /\ invariant b0
    /\ (forall p, 0 <= p < NBITS (ctor 12 2 [165; 249]) ->
          test b0 p = Some false)
    /\ none b0 = Some true /\ any b0 = Some false
    /\ count b0 = Some 0.
Proof.
  apply (reset_all_clears_every_position (ctor 12 2 [165; 249])). reflexivity.
Defined.

Lemma flip_all_raw (b : ibitset) :
  wf b ->
  exists b1, flip_all b = Some b1 /\ wf b1 /\ same_shape b b1 /\ invariant b1
    /\ forall q, 0 <= q < NBITS b ->
         raw_bit (pdata b1) q = negb (raw_bit (pdata b) q).
Proof.
  intros Hw. pose proof (wf_geometry b Hw) as G.
  pose proof (top_bits_range (NBITS b)) as T.
  destruct (flip_all_ok b Hw) as (b1 & E & W & S & I & L).
  exists b1. repeat (split; [assumption|]).
  intros q Hq.
  assert (Hk : 0 <= q / 8 < SIZE b) by (Z.div_mod_to_equations; lia).
  assert (Hj : 0 <= q mod 8 < 8) by (apply Z.mod_pos_bound; lia).
  destruct (pdata b !! Z.to_nat (q / 8)) as [v|] eqn:Ev.
  2:{ apply lookup_ge_None in Ev. lia. }
  specialize (L (Z.to_nat (q / 8))). rewrite Ev in L. cbn [fmap option_fmap option_map] in L.
  rewrite (raw_bit_of_lookup _ q _ ltac:(lia) L).
  rewrite (raw_bit_of_lookup _ q _ ltac:(lia) Ev).
  unfold flip_element.
  destruct (Z.eqb_spec (Z.of_nat (Z.to_nat (q / 8))) (SIZE b - 1)) as [El | El].
  - rewrite to_element_low_bits, Z.land_spec, to_element_low_bits, Z.lnot_spec by lia.
    rewrite (top_mask_bits b _ Hw) by lia.
    replace (q mod 8 <? top_bits (NBITS b)) with true; [apply andb_true_r|].
    symmetry. apply Z.ltb_lt. Z.div_mod_to_equations; lia.
  - rewrite to_element_low_bits, Z.lnot_spec by lia. reflexivity.
Qed.

(** X17.  [flip()] returns with the invariant established, whatever the bits
    beyond [NBITS] were, and every position tests the opposite of before. *)
Theorem flip_all_complements_every_position (b : ibitset) :
  wf b ->
  exists b1, flip_all b = Some b1 /\ invariant b1
    /\ forall p, 0 <= p < NBITS b ->
         exists t, test b p = Some t /\ test b1 p = Some (negb t).
Proof.
  intros Hw. destruct (flip_all_raw b Hw) as (b1 & E & W & S & I & R).
  pose proof S as (S1 & _).
  exists b1. split; [exact E|]. split; [exact I|].
  intros p Hp. exists (raw_bit (pdata b) p).
  split; [apply test_ok; assumption|].
  rewrite test_ok by (try assumption; lia). f_equal. apply R, Hp.
Qed.

Lemma flip_all_complements_every_position_witness :
  exists b1, flip_all (ctor 12 2 [165; 249]) = Some b1 /\ invariant b1
    /\ forall p, 0 <= p < NBITS (ctor 12 2 [165; 249]) ->
         exists t, test (ctor 12 2 [165; 249]) p = Some t
                   /\ test b1 p = Some (negb t).
Proof.
  apply (flip_all_complements_every_position (ctor 12 2 [165; 249])).
  reflexivity.
Defined.

(** X18.  Under the invariant [flip()] turns a count of [n] into [NBITS - n]. *)
Theorem count_after_flip_all (b : ibitset) :
  wf b -> invariant b ->
  exists b1 n, flip_all b = Some b1 /\ count b = Some n
               /\ count b1 = Some (NBITS b - n).
Proof.
  intros Hw Hi. destruct (flip_all_raw b Hw) as (b1 & E & W & S & I & R).
  pose proof S as (S1 & _).
  exists b1, (count_range (raw_bit (pdata b)) 0 (NBITS b)).
  split; [exact E|]. split; [apply count_positions; assumption|].
  rewrite (count_positions b1 W I), S1. f_equal.
  rewrite <- count_range_complement by (apply wf_spec in Hw; lia).
  apply count_range_ext. intros p Hp. apply R. lia.
Qed.

Lemma count_after_flip_all_witness :
  exists b1 n, flip_all (ctor 12 2 [165; 9]) = Some b1
               /\ count (ctor 12 2 [165; 9]) = Some n
               /\ count b1 = Some (NBITS (ctor 12 2 [165; 9]) - n).
Proof.
  apply (count_after_flip_all (ctor 12 2 [165; 9])); reflexivity.
Defined.

(** X19.  [invert()] complements every element and applies no mask: it is its own
    inverse on any storage, every position inside the storage tests the
    opposite of before, and when the last element has bits beyond [NBITS] the
    invariant does not survive it. *)
Theorem invert_complements_whole_storage (b : ibitset) :
  wf b ->
  exists b1, invert b = Some b1 /\ invert b1 = Some b
    /\ (forall p, 0 <= p < 8 * SIZE b ->
          exists t, test b p = Some t /\ test b1 p = Some (negb t))
    /\ (invariant b -> NBITS b < 8 * SIZE b -> ~ invariant b1).
Proof.
  intros Hw. pose proof (wf_geometry b Hw) as G.
  unfold invert at 1. rewrite invert_loop_ok by tauto.
  set (b1 := with_pdata b _).
  assert (W : wf b1) by (apply wf_imap; [exact Hw | intros; apply to_element_is_element]).
  assert (L : Z.of_nat (length (pdata b1)) = SIZE b1).
  { simpl. rewrite length_imap. tauto. }
  assert (R : forall q, 0 <= q < 8 * SIZE b ->
                raw_bit (pdata b1) q = negb (raw_bit (pdata b) q)).
  { intros q Hq.
    assert (Hk : 0 <= q / 8 < SIZE b) by (Z.div_mod_to_equations; lia).
    assert (Hj : 0 <= q mod 8 < 8) by (apply Z.mod_pos_bound; lia).
    destruct (pdata b !! Z.to_nat (q / 8)) as [v|] eqn:Ev.
    2:{ apply lookup_ge_None in Ev. lia. }
    rewrite (raw_bit_of_lookup _ q v ltac:(lia) Ev).
    rewrite (raw_bit_of_lookup _ q (to_element (Z.lnot v)) ltac:(lia)).
    - rewrite to_element_low_bits, Z.lnot_spec by lia. reflexivity.
    - simpl. rewrite list_lookup_imap, Ev. reflexivity. }
  exists b1. split; [reflexivity|]. split; [|split].
  - unfold invert. rewrite invert_loop_ok by exact L. f_equal.
    apply same_shape_eq.
    + unfold same_shape. simpl. rewrite !length_imap. tauto.
    + simpl. apply list_eq. intros k. rewrite !list_lookup_imap.
      destruct (pdata b !! k) as [v|] eqn:Ev; [|reflexivity]. simpl. f_equal.
      apply element_ext.
      * apply to_element_is_element.
      * apply (Forall_lookup_1 _ _ _ _ (wf_elements b Hw) Ev).
      * intros j Hj. apply double_complement. exact Hj.
  - intros p Hp. exists (raw_bit (pdata b) p).
    split; [apply test_in_storage; assumption|].
    rewrite test_in_storage by (try assumption; exact Hp). f_equal. apply R, Hp.
  - intros Hi Hlt Hi1.
    pose proof (proj1 (invariant_raw b Hw) Hi (NBITS b) ltac:(lia)) as H0.
    pose proof (proj1 (invariant_raw b1 W) Hi1 (NBITS b) ltac:(simpl; lia)) as H1.
    rewrite R, H0 in H1 by lia. discriminate.
Qed.

Lemma invert_complements_whole_storage_witness :
  exists b1, invert (ctor 12 2 [165; 9]) = Some b1
    /\ invert b1 = Some (ctor 12 2 [165; 9])
    /\ (forall p, 0 <= p < 8 * SIZE (ctor 12 2 [165; 9]) ->
          exists t, test (ctor 12 2 [165; 9]) p = Some t
                    /\ test b1 p = Some (negb t))
    /\ (invariant (ctor 12 2 [165; 9]) ->
        NBITS (ctor 12 2 [165; 9]) < 8 * SIZE (ctor 12 2 [165; 9]) ->
        ~ invariant b1).
Proof.
  apply (invert_complements_whole_storage (ctor 12 2 [165; 9])). reflexivity.
Defined.

End FillAndFlip.

(** * Two bitsets: bitwise assignment, swap and comparison *)

Section TwoBitsets.

Lemma for_loop_app {S : Type} (body : Z -> S -> UB S) (n m : nat) (i : Z) (s : S) :
  for_loop (n + m) i body s
  = do s' <- for_loop n i body s; for_loop m (i + Z.of_nat n) body s'.
Proof.
  revert i s. induction n as [|n IH]; intros i s.
  - simpl. rewrite Z.add_0_r. reflexivity.
  - cbn [Nat.add for_loop]. destruct (body i s) as [t|]; [|reflexivity].
    cbn [ub_bind]. rewrite IH. do 2 f_equal. lia.
Qed.

Lemma wf_same_nbits (b other : ibitset) :
  wf b -> wf other -> NBITS other = NBITS b ->
  SIZE other = SIZE b /\ length (pdata other) = length (pdata b)
  /\ TOP_MASK other = TOP_MASK b.
Proof.
  intros Hw Ho Hn. pose proof (wf_geometry b Hw) as G.
  pose proof (wf_geometry other Ho) as G'.
  pose proof (wf_top_mask b Hw) as M. pose proof (wf_top_mask other Ho) as M'.
  apply wf_spec in Hw. apply wf_spec in Ho.
  destruct Hw as (_ & Hs & _). destruct Ho as (_ & Hs' & _).
  rewrite Hn in Hs'. split; [congruence|]. split; [lia | congruence].
Qed.

Lemma combine_ok (op : Z -> Z -> Z) (b other : ibitset) :
  Z.of_nat (length (pdata b)) = SIZE b ->
  (length (pdata b) <= length (pdata other))%nat ->
  combine op b other
  = Some (with_pdata b
            (imap (fun k x => to_element (op x (default 0 (pdata other !! k))))
                  (pdata b))).
Proof.
  intros Hl Ho. unfold combine. rewrite <- Hl, Nat2Z.id.
  apply elementwise_loop. intros j s x Hs Hx Hj.
  rewrite (updated_upto_rd _ b s j x Hs) by (try assumption; lia).
  cbn [ub_bind]. unfold rd. destruct (Z.leb_spec 0 j); [|lia].
  destruct (pdata other !! Z.to_nat j) as [y|] eqn:Ey; [reflexivity|].
  apply lookup_ge_None in Ey. lia.
Qed.

Lemma combine_raw (op : Z -> Z -> Z) (f : bool -> bool -> bool)
      (b other : ibitset) :
  (forall x y j, 0 <= j -> Z.testbit (op x y) j = f (Z.testbit x j) (Z.testbit y j)) ->
  wf b -> wf other -> NBITS other = NBITS b ->
  exists b', combine op b other = Some b' /\ wf b' /\ same_shape b b'
    /\ forall q, 0 <= q < 8 * SIZE b ->
         raw_bit (pdata b') q
         = f (raw_bit (pdata b) q) (raw_bit (pdata other) q).
Proof.
  intros Hop Hw Ho Hn. pose proof (wf_geometry b Hw) as G.
  destruct (wf_same_nbits b other Hw Ho Hn) as (Hs & Hl & _).
  rewrite combine_ok by lia.
  set (b' := with_pdata b _).
  exists b'. split; [reflexivity|]. split; [|split].
  - apply wf_imap; [exact Hw | intros; apply to_element_is_element].
  - apply same_shape_with_pdata, length_imap.
  - intros q Hq.
    assert (Hk : 0 <= q / 8 < SIZE b) by (Z.div_mod_to_equations; lia).
    assert (Hj : 0 <= q mod 8 < 8) by (apply Z.mod_pos_bound; lia).
    destruct (pdata b !! Z.to_nat (q / 8)) as [x|] eqn:Ex.
    2:{ apply lookup_ge_None in Ex. lia. }
    destruct (pdata other !! Z.to_nat (q / 8)) as [y|] eqn:Ey.
    2:{ apply lookup_ge_None in Ey. lia. }
    rewrite (raw_bit_of_lookup _ q x ltac:(lia) Ex).
    rewrite (raw_bit_of_lookup _ q y ltac:(lia) Ey).
    rewrite (raw_bit_of_lookup _ q (to_element (op x y)) ltac:(lia)).
    + rewrite to_element_low_bits by lia. apply Hop. lia.
    + simpl. rewrite list_lookup_imap, Ex. simpl. rewrite Ey. reflexivity.
Qed.

(** What the three bitwise assignments have in common. *)
Lemma combine_pointwise (op : Z -> Z -> Z) (f : bool -> bool -> bool)
      (b other : ibitset) :
  (forall x y j, 0 <= j -> Z.testbit (op x y) j = f (Z.testbit x j) (Z.testbit y j)) ->
  f false false = false ->
  wf b -> wf other -> NBITS other = NBITS b ->
  exists b', combine op b other = Some b'
    /\ (invariant b -> invariant other -> invariant b')
    /\ forall p, 0 <= p < NBITS b ->
         exists t u, test b p = Some t /\ test other p = Some u
                     /\ test b' p = Some (f t u).
Proof.
  intros Hop Hff Hw Ho Hn. pose proof (wf_geometry b Hw) as G.
  destruct (wf_same_nbits b other Hw Ho Hn) as (Hs & _).
  destruct (combine_raw op f b other Hop Hw Ho Hn) as (b' & E & W & S & R).
  pose proof S as (S1 & S2 & _).
  exists b'. split; [exact E|]. split.
  - intros Hi Hi'. apply (invariant_raw b' W). intros p Hp.
    rewrite R by lia.
    rewrite (proj1 (invariant_raw b Hw) Hi p) by lia.
    rewrite (proj1 (invariant_raw other Ho) Hi' p) by lia. exact Hff.
  - intros p Hp. exists (raw_bit (pdata b) p), (raw_bit (pdata other) p).
    split; [apply test_ok; assumption|].
    split; [apply test_ok; [assumption | lia]|].
    rewrite test_ok by (try assumption; lia). f_equal. apply R. lia.
Qed.

(** X22.  [&=], [|=] and [^=] between two bitsets of the same width return, combine
    every position with the boolean operation, and keep the invariant when
    both operands satisfy it. *)
Theorem bitwise_assign_is_pointwise (b other : ibitset) :
  wf b -> wf other -> NBITS other = NBITS b ->
  (exists b', and_assign b other = Some b'
     /\ (invariant b -> invariant other -> invariant b')
     /\ forall p, 0 <= p < NBITS b ->
          exists t u, test b p = Some t /\ test other p = Some u
                      /\ test b' p = Some (t && u))
  /\ (exists b', or_assign b other = Some b'
        /\ (invariant b -> invariant other -> invariant b')
        /\ forall p, 0 <= p < NBITS b ->
             exists t u, test b p = Some t /\ test other p = Some u
                         /\ test b' p = Some (t || u))
  /\ (exists b', xor_assign b other = Some b'
        /\ (invariant b -> invariant other -> invariant b')
        /\ forall p, 0 <= p < NBITS b ->
             exists t u, test b p = Some t /\ test other p = Some u
                         /\ test b' p = Some (xorb t u)).
Proof.
  intros Hw Ho Hn. split; [|split].
  - apply (combine_pointwise Z.land andb); try assumption; [|reflexivity].
    intros x y j Hj. apply Z.land_spec.
  - apply (combine_pointwise Z.lor orb); try assumption; [|reflexivity].
    intros x y j Hj. apply Z.lor_spec.
  - apply (combine_pointwise Z.lxor xorb); try assumption; [|reflexivity].
    intros x y j Hj. apply Z.lxor_spec.
Qed.

Lemma bitwise_assign_is_pointwise_witness :
  (exists b', and_assign (ctor 12 2 [204; 12]) (ctor 12 2 [170; 10]) = Some b'
     /\ (invariant (ctor 12 2 [204; 12]) -> invariant (ctor 12 2 [170; 10]) ->
         invariant b')
     /\ forall p, 0 <= p < NBITS (ctor 12 2 [204; 12]) ->
          exists t u, test (ctor 12 2 [204; 12]) p = Some t
                      /\ test (ctor 12 2 [170; 10]) p = Some u
                      /\ test b' p = Some (t && u))
  /\ (exists b', or_assign (ctor 12 2 [204; 12]) (ctor 12 2 [170; 10]) = Some b'
        /\ (invariant (ctor 12 2 [204; 12]) -> invariant (ctor 12 2 [170; 10]) ->
            invariant b')
        /\ forall p, 0 <= p < NBITS (ctor 12 2 [204; 12]) ->
             exists t u, test (ctor 12 2 [204; 12]) p = Some t
                         /\ test (ctor 12 2 [170; 10]) p = Some u
                         /\ test b' p = Some (t || u))
  /\ (exists b', xor_assign (ctor 12 2 [204; 12]) (ctor 12 2 [170; 10]) = Some b'
        /\ (invariant (ctor 12 2 [204; 12]) -> invariant (ctor 12 2 [170; 10]) ->
            invariant b')
        /\ forall p, 0 <= p < NBITS (ctor 12 2 [204; 12]) ->
             exists t u, test (ctor 12 2 [204; 12]) p = Some t
                         /\ test (ctor 12 2 [170; 10]) p = Some u
                         /\ test b' p = Some (xorb t u)).
Proof.
  apply (bitwise_assign_is_pointwise (ctor 12 2 [204; 12]) (ctor 12 2 [170; 10]));
    reflexivity.
Defined.

(** X23.  The loops of [&=], [|=] and [^=] run over the [SIZE] of the left operand:
    a right operand with fewer elements is read outside of its array. *)
Theorem bitwise_assign_shorter_operand_undefined (b other : ibitset) :
  Z.of_nat (length (pdata b)) = SIZE b ->
  (length (pdata other) < length (pdata b))%nat ->
  and_assign b other = None /\ or_assign b other = None
  /\ xor_assign b other = None.
Proof.
  intros Hl Ho.
  assert (H : forall op, combine op b other = None).
  { intros op. unfold combine. rewrite <- Hl, Nat2Z.id.
    replace (length (pdata b))
      with (length (pdata other) + (length (pdata b) - length (pdata other)))%nat
      by lia.
    rewrite for_loop_app.
    match goal with
    | |- (do s' <- for_loop ?n 0 ?body b; _) = None =>
        destruct (for_loop_rule
                    (fun (_ : Z) s => length (pdata s) = length (pdata b))
                    body n 0 b) as (s1 & E1 & P1)
    end.
    - reflexivity.
    - intros j t Hj Ht.
      rewrite rd_in_range by lia. cbn [ub_bind].
      rewrite rd_in_range by lia. cbn [ub_bind].
      rewrite wr_in_range by lia. eexists. split; [reflexivity|].
      simpl. rewrite length_insert. exact Ht.
    - rewrite E1. cbn [ub_bind].
      apply for_loop_fails_at_once; [lia|].
      rewrite rd_in_range by lia. cbn [ub_bind].
      rewrite rd_out_of_range by lia. reflexivity. }
  repeat split; apply H.
Qed.

Lemma bitwise_assign_shorter_operand_undefined_witness :
  and_assign (ctor 12 2 [204; 12]) (ctor 8 1 [170]) = None
  /\ or_assign (ctor 12 2 [204; 12]) (ctor 8 1 [170]) = None
  /\ xor_assign (ctor 12 2 [204; 12]) (ctor 8 1 [170]) = None.
Proof.
  apply (bitwise_assign_shorter_operand_undefined
           (ctor 12 2 [204; 12]) (ctor 8 1 [170]));
    [reflexivity | simpl; lia].
Defined.

End TwoBitsets.

(** * swap and is_equal *)

Section SwapAndCompare.

Lemma imap_replace (l l' : list Z) :
  length l = length l' ->
  imap (fun k _ => default 0 (l' !! k)) l = l'.
Proof.
  intros Hl. apply list_eq. intros k. rewrite list_lookup_imap.
  destruct (l !! k) as [x|] eqn:Ex; simpl.
  - destruct (l' !! k) as [y|] eqn:Ey; [reflexivity|].
    apply lookup_ge_None in Ey. apply lookup_lt_Some in Ex. lia.
  - apply lookup_ge_None in Ex. symmetry. apply lookup_ge_None. lia.
Qed.

Lemma swap_ok (b other : ibitset) :
  Z.of_nat (length (pdata b)) = SIZE b ->
  length (pdata other) = length (pdata b) ->
  swap b other
  = Some (with_pdata b (pdata other), with_pdata other (pdata b)).
Proof.
  intros Hl Ho. unfold swap.
  set (fb := fun (k : nat) (_ : Z) => default 0 (pdata other !! k)).
  set (fo := fun (k : nat) (_ : Z) => default 0 (pdata b !! k)).
  match goal with
  | |- for_loop ?n 0 ?body ?s0 = _ =>
      destruct (for_loop_rule
                  (fun j s => updated_upto fb b j (fst s)
                              /\ updated_upto fo other j (snd s))
                  body n 0 s0) as (s1 & E1 & P1 & P2)
  end.
  - split; apply updated_upto_start.
  - intros j [t u] Hj [Pt Pu]. cbn [fst snd] in *.
    destruct (pdata b !! Z.to_nat j) as [x|] eqn:Ex.
    2:{ apply lookup_ge_None in Ex. lia. }
    destruct (pdata other !! Z.to_nat j) as [y|] eqn:Ey.
    2:{ apply lookup_ge_None in Ey. lia. }
    rewrite (updated_upto_rd fb b t j x Pt) by (try assumption; lia).
    cbn [ub_bind].
    rewrite (updated_upto_rd fo other u j y Pu) by (try assumption; lia).
    cbn [ub_bind].
    pose proof Pt as (_ & _ & _ & Lt & _). pose proof Pu as (_ & _ & _ & Lu & _).
    rewrite wr_in_range by lia. cbn [ub_bind].
    rewrite wr_in_range by lia. cbn [ub_bind].
    eexists. split; [reflexivity|]. cbn [fst snd]. split.
    + replace y with (fb (Z.to_nat j) x) by (unfold fb; rewrite Ey; reflexivity).
      apply updated_upto_step; [exact Pt | lia | exact Ex].
    + replace x with (fo (Z.to_nat j) y) by (unfold fo; rewrite Ex; reflexivity).
      apply updated_upto_step; [exact Pu | lia | exact Ey].
  - rewrite E1. f_equal. rewrite Z.add_0_l, Z2Nat.id in P1, P2 by lia.
    rewrite <- Hl in P1. rewrite <- Hl, <- Ho in P2.
    apply updated_upto_end in P1. apply updated_upto_end in P2.
    destruct s1 as [t u]. cbn [fst snd] in *. subst t u.
    unfold fb, fo. rewrite !imap_replace by congruence. reflexivity.
Qed.

(** X24.  [swap] between two bitsets with the same number of elements exchanges
    the two storages and nothing else; a second [swap] restores both, and for
    the same width every position of the one tests as it did in the other. *)
Theorem swap_exchanges_storage (b other : ibitset) :
  wf b -> wf other -> SIZE other = SIZE b ->
  exists b' o', swap b other = Some (b', o')
    /\ pdata b' = pdata other /\ pdata o' = pdata b
    /\ same_shape b b' /\ same_shape other o'
    /\ swap b' o' = Some (b, other)
    /\ (NBITS other = NBITS b ->
        forall p, 0 <= p < NBITS b ->
          test b' p = test other p /\ test o' p = test b p).
Proof.
  intros Hw Ho Hs. pose proof (wf_geometry b Hw) as G.
  pose proof (wf_geometry other Ho) as G'.
  assert (Hl : length (pdata other) = length (pdata b)) by lia.
  exists (with_pdata b (pdata other)), (with_pdata other (pdata b)).
  split; [apply swap_ok; [tauto | exact Hl]|].
  split; [reflexivity|]. split; [reflexivity|].
  split; [apply same_shape_with_pdata; exact Hl|].
  split; [apply same_shape_with_pdata; congruence|].
  split.
  - rewrite swap_ok by (simpl; lia). simpl.
    destruct b, other. reflexivity.
  - intros Hn p Hp.
    destruct (wf_same_nbits b other Hw Ho Hn) as (_ & _ & Hm).
    assert (W1 : wf (with_pdata b (pdata other))).
    { apply wf_with_pdata; [exact Hw | exact Hl | apply wf_elements, Ho]. }
    assert (W2 : wf (with_pdata other (pdata b))).
    { apply wf_with_pdata; [exact Ho | congruence | apply wf_elements, Hw]. }
    rewrite !test_ok by (try assumption; simpl; lia). split; reflexivity.
Qed.

Lemma swap_exchanges_storage_witness :
  exists b' o', swap (ctor 12 2 [204; 12]) (ctor 12 2 [170; 10]) = Some (b', o')
    /\ pdata b' = pdata (ctor 12 2 [170; 10])
    /\ pdata o' = pdata (ctor 12 2 [204; 12])
    /\ same_shape (ctor 12 2 [204; 12]) b'
    /\ same_shape (ctor 12 2 [170; 10]) o'
    /\ swap b' o' = Some (ctor 12 2 [204; 12], ctor 12 2 [170; 10])
    /\ (NBITS (ctor 12 2 [170; 10]) = NBITS (ctor 12 2 [204; 12]) ->
        forall p, 0 <= p < NBITS (ctor 12 2 [204; 12]) ->
          test b' p = test (ctor 12 2 [170; 10]) p
          /\ test o' p = test (ctor 12 2 [204; 12]) p).
Proof.
  apply (swap_exchanges_storage (ctor 12 2 [204; 12]) (ctor 12 2 [170; 10]));
    reflexivity.
Defined.

Lemma equal_loop_spec (lhs rhs : ibitset) (cnt : nat) (i : Z) :
  0 <= i -> i + Z.of_nat cnt <= Z.of_nat (length (pdata lhs)) ->
  i + Z.of_nat cnt <= Z.of_nat (length (pdata rhs)) ->
  exists r, equal_loop cnt i lhs rhs = Some r
    /\ (r = true <->
        forall k : nat, i <= Z.of_nat k < i + Z.of_nat cnt ->
                        pdata lhs !! k = pdata rhs !! k).
Proof.
  revert i. induction cnt as [|cnt IH]; intros i Hi Hl Hr.
  - exists true. split; [reflexivity|]. split; [intros _ k Hk; lia | reflexivity].
  - cbn [equal_loop].
    destruct (pdata lhs !! Z.to_nat i) as [x|] eqn:Ex.
    2:{ apply lookup_ge_None in Ex. lia. }
    destruct (pdata rhs !! Z.to_nat i) as [y|] eqn:Ey.
    2:{ apply lookup_ge_None in Ey. lia. }
    rewrite (proj2 (rd_some lhs i x) (conj Hi Ex)). cbn [ub_bind].
    rewrite (proj2 (rd_some rhs i y) (conj Hi Ey)). cbn [ub_bind].
    destruct (Z.eqb_spec x y) as [E | E]; cbn [negb].
    + destruct (IH (i + 1) ltac:(lia) ltac:(lia) ltac:(lia)) as (r & Er & Hr').
      exists r. split; [exact Er|]. rewrite Hr'. split.
      * intros H k Hk. destruct (Z.eq_dec (Z.of_nat k) i) as [Ek | Ek].
        -- replace k with (Z.to_nat i) by lia. congruence.
        -- apply H. lia.
      * intros H k Hk. apply H. lia.
    + exists false. split; [reflexivity|]. split; [discriminate|].
      intros H. specialize (H (Z.to_nat i) ltac:(lia)). congruence.
Qed.

(** X25.  [is_equal] between two bitsets of the same width returns true exactly
    when the two storages hold the same elements; when both satisfy the
    invariant, exactly when every position tests the same in both. *)
Theorem is_equal_iff_same_bits (lhs rhs : ibitset) :
  wf lhs -> wf rhs -> NBITS rhs = NBITS lhs ->
  exists r, is_equal lhs rhs = Some r
    /\ (r = true <-> pdata lhs = pdata rhs)
    /\ (invariant lhs -> invariant rhs ->
        (r = true <->
         forall p, 0 <= p < NBITS lhs -> test lhs p = test rhs p)).
Proof.
  intros Hw Ho Hn. pose proof (wf_geometry lhs Hw) as G.
  destruct (wf_same_nbits lhs rhs Hw Ho Hn) as (Hs & Hl & _).
  destruct (equal_loop_spec lhs rhs (Z.to_nat (SIZE lhs)) 0
              ltac:(lia) ltac:(lia) ltac:(lia)) as (r & Er & Hr).
  assert (Hlist : r = true <-> pdata lhs = pdata rhs).
  { rewrite Hr. split.
    - intros H. apply list_eq. intros k.
      destruct (Z.lt_ge_cases (Z.of_nat k) (SIZE lhs)).
      + apply H. lia.
      + rewrite !(proj2 (lookup_ge_None _ k)) by lia. reflexivity.
    - intros H k _. rewrite H. reflexivity. }
  exists r. split; [exact Er|]. split; [exact Hlist|].
  intros Hi Hi'. rewrite Hlist. split.
  - intros H p Hp. rewrite !test_ok by (try assumption; lia). rewrite H. reflexivity.
  - intros H. apply raw_bit_ext; try (apply wf_elements; assumption); [congruence|].
    intros q Hq. destruct (Z.lt_ge_cases q (NBITS lhs)) as [Hlt | Hge].
    + specialize (H q ltac:(lia)).
      rewrite !test_ok in H by (try assumption; lia). congruence.
    + destruct (Z.lt_ge_cases q (8 * SIZE lhs)) as [Hin | Hout].
      * rewrite (proj1 (invariant_raw lhs Hw) Hi q) by lia.
        rewrite (proj1 (invariant_raw rhs Ho) Hi' q) by lia. reflexivity.
      * unfold raw_bit.
        rewrite !(proj2 (lookup_ge_None _ (Z.to_nat (q / 8))))
          by (Z.div_mod_to_equations; lia).
        reflexivity.
Qed.

Lemma is_equal_iff_same_bits_witness :
  exists r, is_equal (ctor 12 2 [204; 12]) (ctor 12 2 [204; 28]) = Some r
    /\ (r = true <-> pdata (ctor 12 2 [204; 12]) = pdata (ctor 12 2 [204; 28]))
    /\ (invariant (ctor 12 2 [204; 12]) -> invariant (ctor 12 2 [204; 28]) ->
        (r = true <->
         forall p, 0 <= p < NBITS (ctor 12 2 [204; 12]) ->
                   test (ctor 12 2 [204; 12]) p = test (ctor 12 2 [204; 28]) p)).
Proof.
  apply (is_equal_iff_same_bits (ctor 12 2 [204; 12]) (ctor 12 2 [204; 28]));
    reflexivity.
Defined.

End SwapAndCompare.

(** * initialise from an integer *)

Section Initialise.

Lemma mask_top_raw (b : ibitset) :
  wf b ->
  exists b1, mask_top b = Some b1 /\ wf b1 /\ same_shape b b1 /\ invariant b1
    /\ forall q, 0 <= q < NBITS b -> raw_bit (pdata b1) q = raw_bit (pdata b) q.
Proof.
  intros Hw. pose proof (wf_geometry b Hw) as G.
  pose proof (top_bits_range (NBITS b)) as T.
  destruct (mask_top_wf b Hw) as (b1 & E & W & S & I).
  exists b1. repeat (split; [assumption|]).
  rewrite mask_top_ok in E by lia. inversion E as [E']. clear E. simpl.
  intros q Hq.
  assert (Hj : 0 <= q mod 8 < 8) by (apply Z.mod_pos_bound; lia).
  replace (Z.to_nat (SIZE b - 1)) with (Z.to_nat ((8 * (SIZE b - 1)) / 8))
    by (f_equal; Z.div_mod_to_equations; lia).
  rewrite raw_bit_insert by (try lia; Z.div_mod_to_equations; lia).
  destruct (Z.eqb_spec (q / 8) (8 * (SIZE b - 1) / 8)) as [Eq | Eq];
    [|reflexivity].
  rewrite Z.land_spec, (top_mask_bits b _ Hw) by lia.
  replace (q mod 8 <? top_bits (NBITS b)) with true.
  - rewrite andb_true_r. unfold raw_bit. rewrite Eq. reflexivity.
  - symmetry. apply Z.ltb_lt. Z.div_mod_to_equations; lia.
Qed.

Lemma initialise_loop_bits (cnt : nat) (value i : Z) (b : ibitset) :
  wf b -> 0 <= i -> Z.of_nat cnt = SIZE b - i ->
  (forall q, 8 * i <= q -> raw_bit (pdata b) q = false) ->
  exists b1, initialise_loop cnt BITS_PER_ELEMENT value i b = Some b1
    /\ wf b1 /\ same_shape b b1
    /\ forall q, 0 <= q < 8 * SIZE b ->
         raw_bit (pdata b1) q
         = if q <? 8 * i then raw_bit (pdata b) q
           else Z.testbit value (q - 8 * i).
Proof.
  revert value i b. induction cnt as [|cnt IH]; intros value i b Hw Hi Hc Hz.
  - exists b. split; [reflexivity|]. split; [exact Hw|].
    split; [apply same_shape_refl|]. intros q Hq.
    destruct (Z.ltb_spec q (8 * i)); [reflexivity | lia].
  - pose proof (wf_geometry b Hw) as G. cbn [initialise_loop].
    destruct (Z.eqb_spec value 0) as [E0 | E0]; cbn [negb andb].
    + exists b. split; [reflexivity|]. split; [exact Hw|].
      split; [apply same_shape_refl|]. intros q Hq.
      destruct (Z.ltb_spec q (8 * i)); [reflexivity|].
      rewrite E0, Z.bits_0. apply Hz. lia.
    + destruct (Z.ltb_spec i (SIZE b)); [|lia].
      rewrite wr_in_range by lia. cbn [ub_bind].
      set (b' := with_pdata b _).
      assert (Hw' : wf b').
      { apply wf_with_pdata; [exact Hw | apply length_insert |].
        apply Forall_insert_element; [apply wf_elements, Hw | apply to_element_is_element]. }
      assert (R' : forall q, 0 <= q ->
                     raw_bit (pdata b') q
                     = if q / 8 =? i then Z.testbit value (q mod 8)
                       else raw_bit (pdata b) q).
      { intros q Hq. unfold b'. cbn [pdata with_pdata].
        replace (Z.to_nat i) with (Z.to_nat ((8 * i) / 8))
          by (f_equal; Z.div_mod_to_equations; lia).
        rewrite raw_bit_insert by (try lia; Z.div_mod_to_equations; lia).
        replace (8 * i / 8) with i by (Z.div_mod_to_equations; lia).
        destruct (Z.eqb_spec (q / 8) i); [|reflexivity].
        assert (Hj : 0 <= q mod 8 < 8) by (apply Z.mod_pos_bound; lia).
        rewrite Z.land_spec. change ALL_SET with (Z.ones 8).
        rewrite Z.ones_spec_low by lia. apply andb_true_r. }
      destruct (IH (Z.shiftr value BITS_PER_ELEMENT) (i + 1) b' Hw' ltac:(lia)
                   ltac:(simpl; lia)) as (b1 & E & W & S & R).
      { intros q Hq. rewrite R' by lia.
        destruct (Z.eqb_spec (q / 8) i); [Z.div_mod_to_equations; lia|].
        apply Hz. lia. }
      exists b1. split; [exact E|]. split; [exact W|]. split.
      { apply (same_shape_trans _ b'); [|exact S].
        apply same_shape_with_pdata, length_insert. }
      intros q Hq. rewrite R by (simpl; lia). rewrite R' by lia.
      unfold BITS_PER_ELEMENT.
      destruct (Z.ltb_spec q (8 * (i + 1))), (Z.ltb_spec q (8 * i)),
               (Z.eqb_spec (q / 8) i);
        try reflexivity; try (Z.div_mod_to_equations; lia).
      * f_equal. Z.div_mod_to_equations; lia.
      * rewrite Z.shiftr_spec by lia. f_equal. lia.
Qed.

(** X26.  [initialise(value)] returns with the invariant established, and
    position [p] then tests as bit [p] of [value]. *)
Theorem initialise_stores_value_bits (b : ibitset) (value : Z) :
  wf b ->
  exists b', initialise b value = Some b' /\ invariant b'
    /\ forall p, 0 <= p < NBITS b -> test b' p = Some (Z.testbit value p).
Proof.
  intros Hw. pose proof (wf_geometry b Hw) as G.
  unfold initialise. rewrite reset_all_ok by tauto. cbn [ub_bind].
  set (b0 := with_pdata b _).
  assert (Hw0 : wf b0).
  { apply wf_imap; [exact Hw|]. intros _ _. unfold is_element, ALL_CLEAR. lia. }
  change (SIZE b0) with (SIZE b).
  destruct (initialise_loop_bits (Z.to_nat (SIZE b)) value 0 b0 Hw0 ltac:(lia)
              ltac:(simpl; lia)) as (b1 & E1 & W1 & S1 & R1).
  { intros q _. apply raw_bit_cleared. }
  change (if ull_bits <=? BITS_PER_ELEMENT then 0 else BITS_PER_ELEMENT)
    with BITS_PER_ELEMENT.
  change (BITS_PER_ELEMENT =? 0) with false. cbv iota.
  rewrite E1. cbn [ub_bind].
  destruct (mask_top_raw b1 W1) as (b2 & E2 & W2 & S2 & I2 & R2).
  pose proof S1 as (N1 & _). pose proof S2 as (N2 & _). simpl in N1.
  exists b2. split; [exact E2|]. split; [exact I2|].
  intros p Hp. rewrite test_ok by (try assumption; lia).
  rewrite R2 by lia. rewrite R1 by (simpl; lia).
  destruct (Z.ltb_spec p (8 * 0)); [lia|]. do 2 f_equal. lia.
Qed.

Lemma initialise_stores_value_bits_witness :
  exists b', initialise (ctor 12 2 [255; 255]) 43981 = Some b' /\ invariant b'
    /\ forall p, 0 <= p < NBITS (ctor 12 2 [255; 255]) ->
         test b' p = Some (Z.testbit 43981 p).
Proof.
  apply (initialise_stores_value_bits (ctor 12 2 [255; 255]) 43981).
  reflexivity.
Defined.

End Initialise.

(** * The bit proxy *)

Section BitReference.

(** X27.  Assigning one bit of a bitset to another through two references,
    [b[i] = b[j]]: afterwards [b[i]] reads what [b[j]] read before, [~b[i]]
    is its negation, and every other position is as before. *)
Theorem reference_assignment_copies_bit (b : ibitset) (i j : Z) :
  wf b -> 0 <= i < NBITS b -> 0 <= j < NBITS b ->
  exists t b', ref_bool b (index_ref j) = Some t
    /\ ref_assign_ref b (index_ref i) b (index_ref j) = Some b'
    /\ ref_bool b' (index_ref i) = Some t
    /\ ref_not b' (index_ref i) = Some (negb t)
    /\ forall q, 0 <= q < NBITS b -> q <> i ->
         ref_bool b' (index_ref q) = ref_bool b (index_ref q).
Proof.
  intros Hw Hi Hj. unfold ref_assign_ref, ref_not, ref_bool, index_ref.
  cbn [position].
  exists (raw_bit (pdata b) j).
  rewrite (test_ok b j Hw Hj). cbn [ub_bind].
  destruct (set_bit_ok b i (raw_bit (pdata b) j) Hw Hi) as (b' & E & W & S & R).
  pose proof S as (S1 & _).
  assert (T : test b' i = Some (raw_bit (pdata b) j)).
  { rewrite test_ok by (try assumption; lia). rewrite R by lia.
    rewrite Z.eqb_refl. reflexivity. }
  exists b'. split; [reflexivity|]. split; [exact E|]. split; [exact T|].
  split; [rewrite T; reflexivity|].
  intros q Hq Hne. rewrite !test_ok by (try assumption; lia).
  rewrite R by lia. destruct (Z.eqb_spec q i); [contradiction | reflexivity].
Qed.

Lemma reference_assignment_copies_bit_witness :
  exists t b', ref_bool (ctor 12 2 [165; 9]) (index_ref 0) = Some t
    /\ ref_assign_ref (ctor 12 2 [165; 9]) (index_ref 9)
                      (ctor 12 2 [165; 9]) (index_ref 0) = Some b'
    /\ ref_bool b' (index_ref 9) = Some t
    /\ ref_not b' (index_ref 9) = Some (negb t)
    /\ forall q, 0 <= q < NBITS (ctor 12 2 [165; 9]) -> q <> 9 ->
         ref_bool b' (index_ref q) = ref_bool (ctor 12 2 [165; 9]) (index_ref q).
Proof.
  apply (reference_assignment_copies_bit (ctor 12 2 [165; 9]) 9 0);
    [reflexivity | simpl; lia | simpl; lia].
Defined.

End BitReference.

(** * The result range of a scan *)

Section ScanRange.

Lemma scan_element_range (cnt : nat) (nbits : Z) (state : bool)
      (v mask pos bit : Z) :
  0 <= bit -> 0 <= pos -> nbits <= size_max ->
  match scan_element cnt nbits state v mask pos bit with
  | Found p => pos <= p < nbits
  | Exhausted p' =>
      pos <= p' /\ p' <= pos + Z.of_nat cnt /\ p' <= Z.max pos nbits
  end.
Proof.
  revert mask pos bit. induction cnt as [|cnt IH]; intros mask pos bit Hb Hp Hn.
  - simpl. lia.
  - cbn [scan_element]. unfold BITS_PER_ELEMENT.
    destruct (Z.ltb_spec bit 8); cbn [andb]; [|lia].
    destruct (Z.ltb_spec pos nbits); [|lia].
    destruct (Bool.eqb _ state); [lia|].
    assert (Hmax : 8 <= size_max) by (vm_compute; congruence).
    rewrite (to_size_small (pos + 1)) by lia.
    rewrite (to_size_small (bit + 1)) by lia.
    specialize (IH (to_element (Z.shiftl mask 1)) (pos + 1) (bit + 1)
                   ltac:(lia) ltac:(lia) Hn).
    destruct (scan_element cnt nbits state v (to_element (Z.shiftl mask 1))
                           (pos + 1) (bit + 1)); lia.
Qed.

Lemma find_loop_range (b : ibitset) (state : bool) (lo : Z) (cnt : nat)
      (index position bit mask : Z) :
  wf b -> 0 <= index -> Z.of_nat cnt = SIZE b - index ->
  0 <= lo <= position -> position <= size_max -> 0 <= bit ->
  (index + 1 < SIZE b -> position <= 8 * index + 7) ->
  exists r, find_loop cnt b state index position bit mask = Some r
            /\ (r = npos \/ lo <= r < NBITS b).
Proof.
  intros Hw. pose proof (wf_geometry b Hw) as G.
  pose proof (proj1 (wf_spec b) Hw) as (Hn & _).
  assert (H8 : 8 * SIZE b <= size_max + 1).
  { unfold size_max, size_bits in *. change (2 ^ 64) with 18446744073709551616 in *.
    lia. }
  revert index position bit mask.
  induction cnt as [|cnt IH]; intros index position bit mask Hi Hc Hlo Hmax Hb Hal.
  - exists npos. split; [reflexivity | left; reflexivity].
  - rewrite find_loop_unfold, rd_in_range by lia. cbn [ub_bind].
    destruct (skippable state _).
    + destruct cnt as [|cnt'].
      { exists npos. split; [reflexivity | left; reflexivity]. }
      unfold BITS_PER_ELEMENT. rewrite to_size_small by lia.
      apply IH; lia.
    + pose proof (scan_element_range (Z.to_nat BITS_PER_ELEMENT) (NBITS b) state
                    (default 0 (pdata b !! Z.to_nat index)) mask position bit
                    Hb ltac:(lia) ltac:(lia)) as Hscan.
      destruct (scan_element (Z.to_nat BITS_PER_ELEMENT) (NBITS b) state _ mask
                             position bit) as [p | p'].
      * exists p. split; [reflexivity | right; lia].
      * destruct cnt as [|cnt'].
        { exists npos. split; [reflexivity | left; reflexivity]. }
        unfold BITS_PER_ELEMENT in Hscan. apply IH; lia.
Qed.

(** X3.  Whatever the start position, [find_next] returns, and what it returns is
    [npos] or a position from the start position on and below [NBITS]; on a
    single element the start position must be below 32. *)
Theorem find_next_result_in_range (b : ibitset) (state : bool) (k : Z) :
  wf b -> 0 <= k <= size_max -> (SIZE b = 1 -> k < 32) ->
  exists r, find_next b state k = Some r /\ (r = npos \/ k <= r < NBITS b).
Proof.
  intros Hw Hk H32. pose proof (wf_geometry b Hw) as G.
  unfold find_next, shl_int, int_bits, BITS_PER_ELEMENT, log2_BITS_PER_ELEMENT.
  destruct (Z.eqb_spec (SIZE b) 1) as [Hs | Hs].
  - destruct (Z.ltb_spec k 32); [|lia]. cbn [ub_bind].
    apply find_loop_range; try assumption; lia.
  - change (8 - 1) with (Z.ones 3). rewrite Z.land_ones by lia.
    change (2 ^ 3) with 8.
    assert (Hm : 0 <= k mod 8 < 8) by (apply Z.mod_pos_bound; lia).
    destruct (Z.ltb_spec (k mod 8) 32); [|lia]. cbn [ub_bind].
    rewrite Z.shiftr_div_pow2 by lia. change (2 ^ 3) with 8.
    destruct (Z.lt_ge_cases (k / 8) (SIZE b)) as [Hin | Hout].
    + apply find_loop_range; try assumption; try lia;
        Z.div_mod_to_equations; lia.
    + replace (Z.to_nat (SIZE b - k / 8)) with O by lia.
      exists npos. split; [reflexivity | left; reflexivity].
Qed.

Lemma find_next_result_in_range_witness :
  exists r, find_next (ctor 16 2 [0; 1]) true 3 = Some r
            /\ (r = npos \/ 3 <= r < NBITS (ctor 16 2 [0; 1])).
Proof.
  apply (find_next_result_in_range (ctor 16 2 [0; 1]) true 3).
  - reflexivity.
  - vm_compute. split; congruence.
  - simpl. lia.
Defined.

End ScanRange.

(** * Shifting down and up again *)

Section ShiftRoundTrip.

(** X9.  [>>= shift] followed by [<<= shift] returns and clears the [shift]
    lowest positions, every other position testing as before. *)
Theorem shift_down_then_up_clears_low_positions (b : ibitset) (shift : Z) :
  wf b -> 0 <= shift ->
  (SIZE b = 1 -> shift < 32) -> (SIZE b <> 1 -> shift <= NBITS b) ->
  exists b1 b2, shr_assign b shift = Some b1 /\ shl_assign b1 shift = Some b2
    /\ forall p, 0 <= p < NBITS b ->
         exists t, test b p = Some t
                   /\ test b2 p = Some ((shift <=? p) && t).
Proof.
  intros Hw Hsh H1 Hm. pose proof (wf_geometry b Hw) as G.
  destruct (Z.eq_dec (SIZE b) 1) as [Hs | Hs].
  - destruct (shr_single_ok b shift Hw Hs ltac:(lia)) as (b1 & E1 & W1 & S1 & R1).
    pose proof S1 as (N1 & Z1 & _).
    destruct (shl_single_ok b1 shift W1 ltac:(lia) ltac:(lia))
      as (b2 & E2 & W2 & S2 & R2).
    pose proof S2 as (N2 & _).
    exists b1, b2. split; [exact E1|]. split; [exact E2|].
    intros p Hp. exists (raw_bit (pdata b) p).
    split; [apply test_ok; assumption|].
    rewrite test_ok by (try assumption; lia). rewrite R2 by lia. f_equal.
    destruct (Z.leb_spec shift p); cbn [andb]; [|reflexivity].
    rewrite R1 by lia. replace (p - shift + shift) with p by lia.
    destruct (Z.ltb_spec p 8); [reflexivity | lia].
  - destruct (shr_multi_ok b shift Hw Hs ltac:(lia)) as (b1 & E1 & W1 & S1 & R1).
    pose proof S1 as (N1 & Z1 & _).
    destruct (shl_multi_ok b1 shift W1 ltac:(lia) ltac:(lia))
      as (b2 & E2 & W2 & S2 & R2).
    pose proof S2 as (N2 & _).
    exists b1, b2. split; [exact E1|]. split; [exact E2|].
    intros p Hp. exists (raw_bit (pdata b) p).
    split; [apply test_ok; assumption|].
    rewrite test_ok by (try assumption; lia). rewrite R2 by lia. f_equal.
    rewrite N1.
    destruct (Z.leb_spec shift p), (Z.ltb_spec p (NBITS b)); cbn [andb]; try lia.
    + rewrite R1 by lia. replace (p - shift + shift) with p by lia.
      destruct (Z.ltb_spec (p - shift) (NBITS b - shift)); [reflexivity | lia].
    + destruct (Z.ltb_spec p shift); [reflexivity | lia].
Qed.

Lemma shift_down_then_up_clears_low_positions_witness :
  exists b1 b2, shr_assign (ctor 12 2 [165; 9]) 3 = Some b1
    /\ shl_assign b1 3 = Some b2
    /\ forall p, 0 <= p < NBITS (ctor 12 2 [165; 9]) ->
         exists t, test (ctor 12 2 [165; 9]) p = Some t
                   /\ test b2 p = Some ((3 <=? p) && t).
Proof.
  apply (shift_down_then_up_clears_low_positions (ctor 12 2 [165; 9]) 3);
    try (simpl; intros; lia). reflexivity.
Defined.

End ShiftRoundTrip.

(** * Scans and shifts on concrete bitsets *)

Section ScanAndShiftInstances.

Lemma find_next_first_match_witness :
  exists r, find_next (ctor 16 2 [4; 1]) true 3 = Some r
            /\ first_match_at (ctor 16 2 [4; 1]) true 3 r.
Proof.
  apply (find_next_first_match (ctor 16 2 [4; 1]) true 3).
  - reflexivity.
  - lia.
  - simpl. lia.
  - right. right. reflexivity.
Defined.

Lemma find_first_first_match_witness :
  exists r, find_first (ctor 16 2 [0; 64]) true = Some r
            /\ first_match_at (ctor 16 2 [0; 64]) true 0 r.
Proof.
  apply (find_first_first_match (ctor 16 2 [0; 64]) true). reflexivity.
Defined.

Lemma shr_assign_keeps_invariant_witness :
  exists b', shr_assign (ctor 12 2 [165; 9]) 3 = Some b' /\ invariant b'
    /\ forall p, 0 <= p < NBITS (ctor 12 2 [165; 9]) ->
         test b' p
         = Some ((p + 3 <? NBITS (ctor 12 2 [165; 9]))
                 && raw_bit (pdata (ctor 12 2 [165; 9])) (p + 3)).
Proof.
  apply (shr_assign_keeps_invariant (ctor 12 2 [165; 9]) 3);
    try reflexivity; simpl; intros; lia.
Defined.

Lemma shl_assign_multi_keeps_invariant_witness :
  exists b', shl_assign (ctor 12 2 [165; 9]) 3 = Some b' /\ invariant b'
    /\ forall p, 0 <= p < NBITS (ctor 12 2 [165; 9]) ->
         test b' p
         = Some ((3 <=? p) && raw_bit (pdata (ctor 12 2 [165; 9])) (p - 3)).
Proof.
  apply (shl_assign_multi_keeps_invariant (ctor 12 2 [165; 9]) 3);
    try reflexivity; simpl; lia.
Defined.



Lemma shl_assign_multi_beyond_width_undefined_witness :
  shl_assign (ctor 16 2 [1; 128]) 17 = None.
Proof.
  apply (shl_assign_multi_beyond_width_undefined (ctor 16 2 [1; 128]) 17).
  - reflexivity.
  - simpl. lia.
  - vm_compute. split; congruence.
Defined.

End ScanAndShiftInstances.
